(** * MatrixExtra: sparse-times-dense multiplication kernels (src/matmul.cpp)

    A shallow embedding of the kernels of [matmul.cpp] and the properties
    checked about them.  Floating-point values are IEEE-754 binary64
    ([double]) and binary32 ([float]) numbers, represented with the
    Standard Library's [spec_float] and its round-to-nearest-even
    operations.  C arrays are lists, pointers are offsets into them, and
    C [int]/[size_t] quantities are integers of [Z] (signed overflow is
    undefined in C++, so the kernels are only ever described on inputs whose
    sizes fit the machine types). *)

From Stdlib Require Import ZArith List Bool Lia Permutation.
From Stdlib Require Import Floats.SpecFloat.
Import ListNotations.

Local Open Scope Z_scope.

(** ** Floating-point arithmetic *)

Module Float.

(** The template parameter [real_t] of the kernels: [double] or [float]. *)
Inductive real_t : Type := double | float.

Definition prec (t : real_t) : Z :=
  match t with double => 53 | float => 24 end.

Definition emax (t : real_t) : Z :=
  match t with double => 1024 | float => 128 end.

(** A number of either precision, and in which format it is well formed. *)
Definition real := spec_float.

Definition valid (t : real_t) (x : real) : bool :=
  valid_binary (prec t) (emax t) x.

Definition zero : real := S754_zero false.
Definition neg_zero : real := S754_zero true.
Definition infinity : real := S754_infinity false.

Definition add (t : real_t) : real -> real -> real := SFadd (prec t) (emax t).
Definition mul (t : real_t) : real -> real -> real := SFmul (prec t) (emax t).

(** [a == b] of C on floating-point operands. *)
Definition eqb (a b : real) : bool := SFeqb a b.

(** Conversion to the format [t], rounding to nearest even: the C++
    conversions [(float)x] of a double and [(double)x] of a float (the
    latter is exact). *)
Definition round_to (t : real_t) (x : real) : real :=
  match x with
  | S754_finite s m e => binary_round (prec t) (emax t) s m e
  | _ => x
  end.

(** Conversion of a [double] to [real_t]: the identity at [double]. *)
Definition of_double (t : real_t) (x : real) : real :=
  match t with double => x | float => round_to float x end.

(** Conversion of a [real_t] to [double]: the identity at [double]. *)
Definition to_double (t : real_t) (x : real) : real :=
  match t with double => x | float => round_to double x end.

(** Conversion of a C [int] to [double] (exact). *)
Definition of_int (z : Z) : real := binary_normalize 53 1024 z 0 false.

(** The literal [1.0f] / [1.0]. *)
Definition one (t : real_t) : real := binary_normalize (prec t) (emax t) 1 0 false.

Definition is_nan (x : real) : bool :=
  match x with S754_nan => true | _ => false end.

(** Neither an infinity nor a NaN. *)
Definition is_finite (x : real) : bool :=
  match x with S754_zero _ | S754_finite _ _ _ => true | _ => false end.

End Float.

Import Float.

(** ** R's missing values *)

(** [NA_INTEGER] and [NA_LOGICAL] are both [INT_MIN]; [NA_REAL] is a NaN
    (its payload is not represented in [spec_float]). *)
Definition NA_INTEGER : Z := - 2 ^ 31.
Definition NA_LOGICAL : Z := - 2 ^ 31.
Definition NA_REAL : real := S754_nan.

(** ** Arrays and loops *)

Section Arrays.
Context {A : Type}.

(** [a[i]]: reading outside the array is undefined in C; here it yields [d]. *)
Definition get (d : A) (a : list A) (i : Z) : A :=
  if i <? 0 then d else nth (Z.to_nat i) a d.

Fixpoint set_nat (a : list A) (i : nat) (v : A) : list A :=
  match a, i with
  | [], _ => []
  | _ :: a', O => v :: a'
  | x :: a', S i' => x :: set_nat a' i' v
  end.

(** [a[i] = v]: writing outside the array is undefined in C; here it
    leaves the array as it is. *)
Definition set (a : list A) (i : Z) (v : A) : list A :=
  if i <? 0 then a else set_nat a (Z.to_nat i) v.
End Arrays.

Section Loops.
Context {S : Type}.

Fixpoint for_nat (k : nat) (i : Z) (body : Z -> S -> S) (s : S) : S :=
  match k with
  | O => s
  | Datatypes.S k' => for_nat k' (i + 1) body (body i s)
  end.

(** [for (int i = lo; i < hi; i++) body]. *)
Definition for_loop (lo hi : Z) (body : Z -> S -> S) (s : S) : S :=
  for_nat (Z.to_nat (hi - lo)) lo body s.
End Loops.

Definition geti := get (A := Z) 0.
Definition getr := get (A := real) zero.

(** ** The accumulate-multiply and strided-copy primitives *)

(** The elementwise-add path of [saxpy]: [y[ix] += x[ix]]. *)
Definition saxpy_add_path (n : Z) (x : list real) (xo : Z)
    (y : list real) (yo : Z) : list real :=
  for_loop 0 n (fun ix y =>
    set y (yo + ix) (add float (getr y (yo + ix)) (getr x (xo + ix)))) y.

(** The general path of [saxpy]: [y[ix*inc_y] += alpha * x[ix*inc_x]]. *)
Definition saxpy_general_path (n : Z) (alpha : real) (x : list real) (xo inc_x : Z)
    (y : list real) (yo inc_y : Z) : list real :=
  for_loop 0 n (fun ix y =>
    set y (yo + ix * inc_y)
      (add float (getr y (yo + ix * inc_y))
                 (mul float alpha (getr x (xo + ix * inc_x))))) y.

(** [F77_CALL(saxpy)] as defined in the file.  The pointers [x] and [y] are
    an array together with an offset into it. *)
Definition saxpy (n : Z) (a : real) (x : list real) (xo incx : Z)
    (y : list real) (yo incy : Z) : list real :=
  if (incx =? 1) && (incy =? 1) && eqb a (one float)
  then saxpy_add_path n x xo y yo
  else saxpy_general_path n a x xo incx y yo incy.

(** Modelled from the spec: BLAS [daxpy] is linked from outside the
    repository; section 4.1 gives it as [y[i*incy] += alpha * x[i*incx]]
    for [i] in [[0, n)], here in double precision. *)
Definition daxpy (n : Z) (alpha : real) (x : list real) (xo incx : Z)
    (y : list real) (yo incy : Z) : list real :=
  for_loop 0 n (fun i y =>
    set y (yo + i * incy)
      (add double (getr y (yo + i * incy))
                  (mul double alpha (getr x (xo + i * incx))))) y.

(** [F77_CALL(scopy)] as defined in the file. *)
Definition scopy (n : Z) (x : list real) (xo incx : Z)
    (y : list real) (yo incy : Z) : list real :=
  for_loop 0 n (fun ix y => set y (yo + ix * incy) (getr x (xo + ix * incx))) y.

(** Modelled from the spec: BLAS [dcopy] is linked from outside the
    repository; section 4.2 gives it as a copy of [n] elements from a strided
    source to a strided destination. *)
Definition dcopy (n : Z) (x : list real) (xo incx : Z)
    (y : list real) (yo incy : Z) : list real :=
  for_loop 0 n (fun i y => set y (yo + i * incy) (getr x (xo + i * incx))) y.

(** The overloads of [axpy] taking a double [alpha]: at [double] they call
    [daxpy]; at [float] they narrow [alpha] once and call [saxpy]. *)
Definition axpy (t : real_t) (n : Z) (alpha : real) (x : list real) (xo incx : Z)
    (y : list real) (yo incy : Z) : list real :=
  match t with
  | double => daxpy n alpha x xo incx y yo incy
  | float => let alpha_ := of_double float alpha in saxpy n alpha_ x xo incx y yo incy
  end.

(** The two overloads of [tcopy]. *)
Definition tcopy (t : real_t) (n : Z) (x : list real) (xo incx : Z)
    (y : list real) (yo incy : Z) : list real :=
  match t with
  | double => dcopy n x xo incx y yo incy
  | float => scopy n x xo incx y yo incy
  end.

(** ** Accumulate mode: [gemm_csr_drm_as_drm] *)

(** The body of the row loop: every stored entry of [row] adds its multiple
    of a dense row to the output row at [row_ptr]. *)
Definition drm_row (t : real_t) (n : Z) (indptr indices : list Z) (values : list real)
    (DenseMat : list real) (ldb : Z) (ldc : Z) (row : Z) (OutputMat : list real)
    : list real :=
  let row_ptr := row * ldc in
  for_loop (geti indptr row) (geti indptr (row + 1)) (fun col OutputMat =>
    axpy t n (getr values col) DenseMat (geti indices col * ldb) 1
         OutputMat row_ptr 1) OutputMat.

Definition gemm_csr_drm_as_drm (t : real_t) (m n : Z)
    (indptr indices : list Z) (values : list real)
    (DenseMat : list real) (ldb : Z) (OutputMat : list real) (ldc : Z)
    (nthreads : Z) : list real :=
  if (m <=? 0) || (geti indptr 0 =? geti indptr m) then OutputMat
  else for_loop 0 m (drm_row t n indptr indices values DenseMat ldb ldc) OutputMat.


(** *** The parallel row loop

    [#pragma omp parallel for schedule(dynamic) num_threads(nthreads)] hands
    every iteration of the row loop to one of the threads, in an order the
    runtime chooses.  A schedule lists the iterations in the order in which
    they run, each with the thread that runs it. *)

Definition range (lo hi : Z) : list Z :=
  map (fun k => lo + Z.of_nat k) (seq 0 (Z.to_nat (hi - lo))).

Definition schedule := list (Z * Z).

Definition dynamic_schedule (nthreads lo hi : Z) (sched : schedule) : Prop :=
  Permutation (map snd sched) (range lo hi) /\
  Forall (fun ti => 0 <= fst ti < Z.max 1 nthreads) sched.

Definition omp_for {S : Type} (sched : schedule) (body : Z -> S -> S) (s : S) : S :=
  fold_left (fun s ti => body (snd ti) s) sched s.

Definition gemm_csr_drm_as_drm_omp (sched : schedule) (t : real_t) (m n : Z)
    (indptr indices : list Z) (values : list real)
    (DenseMat : list real) (ldb : Z) (OutputMat : list real) (ldc : Z)
    (nthreads : Z) : list real :=
  if (m <=? 0) || (geti indptr 0 =? geti indptr m) then OutputMat
  else omp_for sched (drm_row t n indptr indices values DenseMat ldb ldc) OutputMat.

(** ** Materialize mode: [gemm_csr_drm_as_dcm] *)

(** An access outside the scratch buffer is undefined behaviour; the model
    stops with [OutOfBounds]. *)
Inductive result (A : Type) : Type :=
| Ok (a : A)
| OutOfBounds.
Arguments Ok {A} a.
Arguments OutOfBounds {A}.

Definition bind {A B : Type} (r : result A) (f : A -> result B) : result B :=
  match r with Ok a => f a | OutOfBounds => OutOfBounds end.

Definition for_loopM {S : Type} (lo hi : Z) (body : Z -> S -> result S) (s : S)
    : result S :=
  for_loop lo hi (fun i r => bind r (body i)) (Ok s).

(** [count] elements from the start of [buf] lie inside it. *)
Definition in_bounds (count : Z) (buf : list real) : bool :=
  (count <=? 0) || (count <=? Z.of_nat (length buf)).

Definition checked (count : Z) (buf : list real) {A : Type} (a : A) : result A :=
  if in_bounds count buf then Ok a else OutOfBounds.

(** [memset(write_ptr, 0, count * sizeof(real_t))]: all-zero bytes are [+0.0]. *)
Definition memset_zero (buf : list real) (count : Z) : result (list real) :=
  checked count buf (for_loop 0 count (fun i b => set b i zero) buf).

(** The state of the row loop: the output and the thread's scratch buffer
    ([temp_arr], null until the first row with entries). *)
Record dcm_state : Type := {
  dcm_OutputMat : list real;
  dcm_temp_arr : option (list real)
}.

Section Materialize.
(** The content of freshly allocated memory. *)
Variable uninit : real.

Definition dcm_row (t : real_t) (n : Z) (indptr indices : list Z) (values : list real)
    (DenseMat : list real) (ldb : Z) (ldc : Z) (row : Z) (st : dcm_state)
    : result dcm_state :=
  if geti indptr row <? geti indptr (row + 1) then
    let write_ptr :=
      match dcm_temp_arr st with
      | Some buf => buf
      | None => repeat uninit (Z.to_nat ldc)
      end in
    bind (memset_zero write_ptr ldb) (fun write_ptr =>
    bind (for_loopM (geti indptr row) (geti indptr (row + 1)) (fun ix write_ptr =>
            checked n write_ptr
              (axpy t n (getr values ix) DenseMat (geti indices ix * ldb) 1
                    write_ptr 0 1)) write_ptr) (fun write_ptr =>
    bind (checked n write_ptr
            (tcopy t n write_ptr 0 1 (dcm_OutputMat st) row ldc)) (fun OutputMat =>
    Ok {| dcm_OutputMat := OutputMat; dcm_temp_arr := Some write_ptr |})))
  else Ok st.

Definition gemm_csr_drm_as_dcm (t : real_t) (m n : Z)
    (indptr indices : list Z) (values : list real)
    (DenseMat : list real) (ldb : Z) (OutputMat : list real) (ldc : Z)
    (nthreads : Z) : result (list real) :=
  if (m <=? 0) || (geti indptr 0 =? geti indptr m) then Ok OutputMat
  else
    let nthreads := Z.min nthreads m in
    bind (for_loopM 0 m (dcm_row t n indptr indices values DenseMat ldb ldc)
            {| dcm_OutputMat := OutputMat; dcm_temp_arr := None |})
         (fun st => Ok (dcm_OutputMat st)).

(** [tcrossprod_csr_dense]: [x %*% t(y)] for a CSR [x] and a column-major
    [y] with [Y_nrow] rows; the result is column-major with as many rows
    as [x] and [Y_nrow] columns, zero-initialised by its constructor. *)
Definition tcrossprod_csr_dense (t : real_t)
    (X_csr_indptr X_csr_indices : list Z) (X_csr_values : list real)
    (Y_colmajor : list real) (Y_nrow : Z) (nthreads : Z) : result (list real) :=
  let out_nrow := Z.of_nat (length X_csr_indptr) - 1 in
  let out_ncol := Y_nrow in
  let out_colmajor := repeat zero (Z.to_nat (out_nrow * out_ncol)) in
  gemm_csr_drm_as_dcm t out_nrow out_ncol
    X_csr_indptr X_csr_indices X_csr_values
    Y_colmajor Y_nrow out_colmajor out_nrow nthreads.
End Materialize.

(** *** The parallel row loop of materialize mode

    [temp_arr] is private: every thread has a scratch buffer of its own,
    null until the thread meets its first row with entries. *)
Record dcm_omp_state : Type := {
  omp_OutputMat : list real;
  omp_temp_arr : Z -> option (list real)
}.

Definition omp_forM {S : Type} (sched : schedule) (body : Z -> Z -> S -> result S)
    (s : S) : result S :=
  fold_left (fun r ti => bind r (body (fst ti) (snd ti))) sched (Ok s).

Section MaterializeParallel.
Variable uninit : real.

(** The row body run by [thread]: it sees the shared output and its own
    scratch buffer. *)
Definition dcm_row_omp (t : real_t) (n : Z) (indptr indices : list Z)
    (values : list real) (DenseMat : list real) (ldb : Z) (ldc : Z)
    (thread row : Z) (st : dcm_omp_state) : result dcm_omp_state :=
  bind (dcm_row uninit t n indptr indices values DenseMat ldb ldc row
          {| dcm_OutputMat := omp_OutputMat st;
             dcm_temp_arr := omp_temp_arr st thread |})
       (fun st' =>
          Ok {| omp_OutputMat := dcm_OutputMat st';
                omp_temp_arr := fun th =>
                  if th =? thread then dcm_temp_arr st' else omp_temp_arr st th |}).

Definition gemm_csr_drm_as_dcm_omp (sched : schedule) (t : real_t) (m n : Z)
    (indptr indices : list Z) (values : list real)
    (DenseMat : list real) (ldb : Z) (OutputMat : list real) (ldc : Z)
    (nthreads : Z) : result (list real) :=
  if (m <=? 0) || (geti indptr 0 =? geti indptr m) then Ok OutputMat
  else
    let nthreads := Z.min nthreads m in
    bind (omp_forM sched (dcm_row_omp t n indptr indices values DenseMat ldb ldc)
            {| omp_OutputMat := OutputMat; omp_temp_arr := fun _ => None |})
         (fun st => Ok (omp_OutputMat st)).
End MaterializeParallel.

(** ** Sparse matrix times dense vector: [matmul_csr_dvec] *)

(** The dense operand, by the instantiation it selects. *)
Inductive dense_vector : Type :=
| NumericVector (y : list real)    (* matmul_csr_dvec_numeric *)
| IntegerVector (y : list Z)       (* matmul_csr_dvec_integer *)
| LogicalVector (y : list Z)       (* matmul_csr_dvec_logical *)
| FloatVector (y : list real).     (* matmul_csr_dvec_float32 *)

(** The template argument [OutputDType] of each instantiation. *)
Definition OutputDType (y_dense : dense_vector) : real_t :=
  match y_dense with FloatVector _ => float | _ => double end.

(** [(bool)y] converted back to a number. *)
Definition bool_of_int (y : Z) : Z := if y =? 0 then 0 else 1.

(** The right-hand side of [val += ...], a double in every instantiation. *)
Definition dvec_term (y_dense : dense_vector) (x : real) (index : Z) : real :=
  match y_dense with
  | IntegerVector y =>
      if geti y index =? NA_INTEGER then NA_REAL
      else mul double x (of_int (geti y index))
  | LogicalVector y =>
      if geti y index =? NA_LOGICAL then NA_REAL
      else mul double x (of_int (bool_of_int (geti y index)))
  | NumericVector y => mul double x (getr y index)
  | FloatVector y => mul double x (to_double float (getr y index))
  end.

(** [val += term] for [val] of type [T] and a double [term]: the sum is
    formed in double precision and converted back to [T]. *)
Definition add_assign (T : real_t) (val term : real) : real :=
  of_double T (add double (to_double T val) term).

Definition dvec_row (X_csr_indptr X_csr_indices : list Z) (X_csr_values : list real)
    (y_dense : dense_vector) (row : Z) : real :=
  for_loop (geti X_csr_indptr row) (geti X_csr_indptr (row + 1)) (fun ix val =>
    add_assign (OutputDType y_dense) val
      (dvec_term y_dense (getr X_csr_values ix) (geti X_csr_indices ix))) zero.

Definition matmul_csr_dvec (X_csr_indptr X_csr_indices : list Z) (X_csr_values : list real)
    (y_dense : dense_vector) (nthreads : Z) : list real :=
  let nrows := Z.of_nat (length X_csr_indptr) - 1 in
  let out := repeat zero (Z.to_nat nrows) in
  for_loop 0 nrows (fun row out =>
    set out row (dvec_row X_csr_indptr X_csr_indices X_csr_values y_dense row)) out.

(** The same kernel with its row loop run under a schedule. *)
Definition matmul_csr_dvec_omp (sched : schedule)
    (X_csr_indptr X_csr_indices : list Z) (X_csr_values : list real)
    (y_dense : dense_vector) (nthreads : Z) : list real :=
  let nrows := Z.of_nat (length X_csr_indptr) - 1 in
  let out := repeat zero (Z.to_nat nrows) in
  omp_for sched (fun row out =>
    set out row (dvec_row X_csr_indptr X_csr_indices X_csr_values y_dense row)) out.

(** ** Sparse matrix times sparse vector: [matmul_csr_svec] *)

(** [std::lower_bound(first, last, val)] over the array [a], as the usual
    bisection: the range is halved until it is empty. *)
Fixpoint lower_bound_loop (fuel : nat) (a : list Z) (first len val : Z) : Z :=
  match fuel with
  | O => first
  | S fuel' =>
      if 0 <? len then
        let half := len / 2 in
        let middle := first + half in
        if geti a middle <? val
        then lower_bound_loop fuel' a (middle + 1) (len - half - 1) val
        else lower_bound_loop fuel' a first half val
      else first
  end.

Definition lower_bound (a : list Z) (first last val : Z) : Z :=
  lower_bound_loop (Z.to_nat (last - first)) a first (last - first) val.

(** The values of the sparse vector, by the instantiation they select. *)
Inductive sparse_values : Type :=
| SNumeric (y : list real)   (* matmul_csr_svec_numeric *)
| SInteger (y : list Z)      (* matmul_csr_svec_integer *)
| SLogical (y : list Z)      (* matmul_csr_svec_logical *)
| SBinary                    (* matmul_csr_svec_binary *)
| SFloat (y : list real).    (* matmul_csr_svec_float32 *)

(** The right-hand side of [out[row] += ...] at a matched pair: [x] is the
    stored value of the matrix, [pos] the position in the sparse vector. *)
Definition svec_term (y_values : sparse_values) (x : real) (pos : Z) : real :=
  match y_values with
  | SInteger y =>
      if geti y pos =? NA_INTEGER then NA_REAL
      else mul double x (of_int (geti y pos))
  | SLogical y =>
      if geti y pos =? NA_LOGICAL then NA_REAL
      else mul double x (of_int (bool_of_int (geti y pos)))
  | SBinary => x
  | SNumeric y => mul double x (getr y pos)
  | SFloat y => mul double x (to_double float (getr y pos))
  end.

(** The [while (true)] loop of one row.  The pointers are positions in
    [X_csr_indices] and [y_indices_base1]; [None] means that the fuel ran out
    before the loop reached [next_row].  The sums [*ptr1 + 1] and [*ptr2 - 1]
    are formed in [Z]: the loop is described for indices on which they do
    not overflow an [int]. *)
Fixpoint svec_loop (fuel : nat) (X_csr_indices : list Z) (X_csr_values : list real)
    (y_indices_base1 : list Z) (y_values : sparse_values)
    (end1 end_y : Z) (ptr1 ptr2 : Z) (out_row : real) : option real :=
  match fuel with
  | O => None
  | S fuel' =>
      let continue := svec_loop fuel' X_csr_indices X_csr_values
                        y_indices_base1 y_values end1 end_y in
      if (ptr1 >=? end1) || (ptr2 >=? end_y) then Some out_row
      else if geti X_csr_indices ptr1 =? geti y_indices_base1 ptr2 - 1 then
        continue (ptr1 + 1) (ptr2 + 1)
          (add double out_row (svec_term y_values (getr X_csr_values ptr1) ptr2))
      else if geti y_indices_base1 ptr2 - 1 >? geti X_csr_indices ptr1 then
        continue (lower_bound X_csr_indices ptr1 end1 (geti y_indices_base1 ptr2 - 1))
                 ptr2 out_row
      else
        continue ptr1
                 (lower_bound y_indices_base1 ptr2 end_y (geti X_csr_indices ptr1 + 1))
                 out_row
  end.

(** Every iteration moves one of the two pointers forward, so this many
    iterations reach [next_row]. *)
Definition svec_fuel (end1 end_y ptr1 ptr2 : Z) : nat :=
  S (Z.to_nat (end1 - ptr1) + Z.to_nat (end_y - ptr2)).

Definition svec_row (X_csr_indptr X_csr_indices : list Z) (X_csr_values : list real)
    (y_indices_base1 : list Z) (y_values : sparse_values) (row : Z) (out_row : real)
    : option real :=
  let ptr1 := geti X_csr_indptr row in
  let end1 := geti X_csr_indptr (row + 1) in
  let ptr2 := 0 in
  let end_y := Z.of_nat (length y_indices_base1) in
  svec_loop (svec_fuel end1 end_y ptr1 ptr2) X_csr_indices X_csr_values
    y_indices_base1 y_values end1 end_y ptr1 ptr2 out_row.

Definition option_bind {A B : Type} (o : option A) (f : A -> option B) : option B :=
  match o with Some a => f a | None => None end.

Definition matmul_csr_svec (X_csr_indptr X_csr_indices : list Z) (X_csr_values : list real)
    (y_indices_base1 : list Z) (y_values : sparse_values) (nthreads : Z)
    : option (list real) :=
  let out := repeat zero (Z.to_nat (Z.of_nat (length X_csr_indptr) - 1)) in
  if Z.of_nat (length y_indices_base1) =? 0 then Some out
  else
    let nrows := Z.of_nat (length out) in
    for_loop 0 nrows (fun row out =>
      option_bind out (fun out =>
      option_bind (svec_row X_csr_indptr X_csr_indices X_csr_values
                     y_indices_base1 y_values row (getr out row)) (fun v =>
      Some (set out row v)))) (Some out).

(** The same kernel with its row loop run under a schedule. *)
Definition matmul_csr_svec_omp (sched : schedule)
    (X_csr_indptr X_csr_indices : list Z) (X_csr_values : list real)
    (y_indices_base1 : list Z) (y_values : sparse_values) (nthreads : Z)
    : option (list real) :=
  let out := repeat zero (Z.to_nat (Z.of_nat (length X_csr_indptr) - 1)) in
  if Z.of_nat (length y_indices_base1) =? 0 then Some out
  else
    omp_for sched (fun row out =>
      option_bind out (fun out =>
      option_bind (svec_row X_csr_indptr X_csr_indices X_csr_values
                     y_indices_base1 y_values row (getr out row)) (fun v =>
      Some (set out row v)))) (Some out).

(** ** The outer-product kernels *)

(** The [Rcpp::List] of a compressed structure. *)
Record sparse_list : Type := {
  sl_indptr : list Z;
  sl_indices : list Z;
  sl_values : list real
}.

(** [std::iota(a + first, a + first + count, 0)]. *)
Definition iota (a : list Z) (first count : Z) : list Z :=
  for_loop 0 count (fun j a => set a (first + j) j) a.

(** The state of the first loop of [matmul_colvec_by_scolvecascsr_template]. *)
Record colvec_state : Type := {
  cs_indptr : list Z;
  cs_indices : list Z;
  cs_values : list real;
  cs_ncurr : Z
}.

Definition colvec_row (t : real_t) (colvec : list real) (indptr : list Z)
    (values : list real) (ix : Z) (st : colvec_state) : colvec_state :=
  let dim := Z.of_nat (length colvec) in
  if geti indptr ix <? geti indptr (ix + 1) then
    {| cs_indptr := set (cs_indptr st) (ix + 1) dim;
       cs_values := axpy t dim (getr values (geti indptr ix)) colvec 0 1
                         (cs_values st) (cs_ncurr st) 1;
       cs_indices := iota (cs_indices st) (cs_ncurr st) dim;
       cs_ncurr := cs_ncurr st + dim |}
  else st.

(** [for (ix = 0; ix < count; ix++) a[ix+1] += a[ix]]. *)
Definition cumulate (a : list Z) (count : Z) : list Z :=
  for_loop 0 count (fun ix a => set a (ix + 1) (geti a (ix + 1) + geti a ix)) a.

Definition matmul_colvec_by_scolvecascsr_template (t : real_t) (colvec_ : list real)
    (indptr indices : list Z) (values_ : list real) : sparse_list :=
  let dim := Z.of_nat (length colvec_) in
  let dim2 := Z.of_nat (length indptr) - 1 in
  let nnz := Z.of_nat (length indices) in
  let nnz_out := nnz * dim in
  let st := for_loop 0 dim2 (colvec_row t colvec_ indptr values_)
              {| cs_indptr := repeat 0 (Z.to_nat (dim2 + 1));
                 cs_indices := repeat 0 (Z.to_nat nnz_out);
                 cs_values := repeat zero (Z.to_nat nnz_out);
                 cs_ncurr := 0 |} in
  {| sl_indptr := cumulate (cs_indptr st) dim2;
     sl_indices := cs_indices st;
     sl_values := map (to_double t) (cs_values st) |}.

(** The dense operand of [matmul_spcolvec_by_scolvecascsr], by the
    instantiation it selects ([LOGICAL] yields [int*] as [INTEGER] does). *)
Inductive spcolvec_values : Type :=
| PNumeric (y : list real)   (* ..._numeric: InputDType = double *)
| PInteger (y : list Z)      (* ..._integer and ..._logical: InputDType = int *)
| PBinary.                   (* ..._binary: InputDType = char, null pointer *)

(** The value pushed for a row with entries, whose first stored value is [x]. *)
Definition spcolvec_value (y_values : spcolvec_values) (col : Z) (x : real) : real :=
  match y_values with
  | PInteger y =>
      let yval := geti y col in
      if yval =? NA_INTEGER then NA_REAL else mul double (of_int yval) x
  | PBinary => x
  | PNumeric y => let yval := getr y col in mul double yval x
  end.

Record spcolvec_state : Type := {
  ps_indptr : list Z;
  ps_indices : list Z;
  ps_values : list real
}.

Definition spcolvec_col (X_csr_indptr : list Z) (X_csr_values : list real)
    (y_indices_base1 : list Z) (y_values : spcolvec_values) (ix : Z)
    (st : spcolvec_state) : spcolvec_state :=
  let dim2 := Z.of_nat (length X_csr_indptr) - 1 in
  let col := geti y_indices_base1 ix - 1 in
  let '(out_csc_indices, out_csc_values, ncurr) :=
    for_loop 0 dim2 (fun row '(out_csc_indices, out_csc_values, ncurr) =>
      if geti X_csr_indptr row <? geti X_csr_indptr (row + 1) then
        (out_csc_indices ++ [row],
         out_csc_values ++
           [spcolvec_value y_values col (getr X_csr_values (geti X_csr_indptr row))],
         ncurr + 1)
      else (out_csc_indices, out_csc_values, ncurr))
      (ps_indices st, ps_values st, 0) in
  {| ps_indptr := set (ps_indptr st) (col + 1) ncurr;
     ps_indices := out_csc_indices;
     ps_values := out_csc_values |}.

Definition matmul_spcolvec_by_scolvecascsr (X_csr_indptr X_csr_indices : list Z)
    (X_csr_values : list real) (y_indices_base1 : list Z)
    (y_values : spcolvec_values) (y_length : Z) : sparse_list :=
  let nnz_y := Z.of_nat (length y_indices_base1) in
  let st := for_loop 0 nnz_y
              (spcolvec_col X_csr_indptr X_csr_values y_indices_base1 y_values)
              {| ps_indptr := repeat 0 (Z.to_nat (y_length + 1));
                 ps_indices := [];
                 ps_values := [] |} in
  {| sl_indptr := cumulate (ps_indptr st) y_length;
     sl_indices := ps_indices st;
     sl_values := ps_values st |}.

(** ** Dense matrix times sparse matrix: [matmul_dense_csc], [tcrossprod_dense_csr] *)

(** [matmul_dense_csc]: [x %*% y] for a column-major [x] with [X_nrow] rows
    and a CSC [y].  The column-major result is zero-initialised by its
    constructor; the kernel is called with the rows and columns exchanged. *)
Definition matmul_dense_csc (t : real_t) (X_colmajor : list real) (X_nrow : Z)
    (Y_csc_indptr Y_csc_indices : list Z) (Y_csc_values : list real) (nthreads : Z)
    : list real :=
  let nrows_X := X_nrow in
  let ncols_Y := Z.of_nat (length Y_csc_indptr) - 1 in
  let out_colmajor := repeat zero (Z.to_nat (nrows_X * ncols_Y)) in
  let nrows := nrows_X in
  let ncols := ncols_Y in
  gemm_csr_drm_as_drm t ncols nrows Y_csc_indptr Y_csc_indices Y_csc_values
    X_colmajor nrows out_colmajor nrows nthreads.

(** [tcrossprod_dense_csr]: [x %*% t(y)] for a column-major [x] and a CSR
    [y]; the argument [ncols_Y] is passed along with the others. *)
Definition tcrossprod_dense_csr (t : real_t) (X_colmajor : list real) (X_nrow : Z)
    (Y_csr_indptr Y_csr_indices : list Z) (Y_csr_values : list real)
    (nthreads ncols_Y : Z) : list real :=
  let out_nrow := X_nrow in
  let out_ncol := Z.of_nat (length Y_csr_indptr) - 1 in
  let out_colmajor := repeat zero (Z.to_nat (out_nrow * out_ncol)) in
  gemm_csr_drm_as_drm t out_ncol out_nrow Y_csr_indptr Y_csr_indices Y_csr_values
    X_colmajor X_nrow out_colmajor out_nrow nthreads.

(** ** Row vector times sparse matrix: [matmul_rowvec_by_csc], [matmul_rowvec_by_cscbin] *)

(** The row vector and the result are arrays of [float]; [values] are
    doubles, so [out[col] += values[ix] * rowvec[indices[ix]]] forms the
    product and the sum in double precision and narrows the sum. *)
Definition matmul_rowvec_by_csc (rowvec_ : list real) (indptr indices : list Z)
    (values : list real) : list real :=
  let rowvec := rowvec_ in
  let ncols_Y := Z.of_nat (length indptr) - 1 in
  let out := repeat zero (Z.to_nat ncols_Y) in
  for_loop 0 ncols_Y (fun col out =>
    for_loop (geti indptr col) (geti indptr (col + 1)) (fun ix out =>
      set out col
        (add_assign float (getr out col)
           (mul double (getr values ix)
              (to_double float (getr rowvec (geti indices ix)))))) out) out.

(** The same for a matrix without values: [out[col] += rowvec[indices[ix]]],
    a sum of two [float]s. *)
Definition matmul_rowvec_by_cscbin (rowvec_ : list real) (indptr indices : list Z)
    : list real :=
  let rowvec := rowvec_ in
  let ncols_Y := Z.of_nat (length indptr) - 1 in
  let out := repeat zero (Z.to_nat ncols_Y) in
  for_loop 0 ncols_Y (fun col out =>
    for_loop (geti indptr col) (geti indptr (col + 1)) (fun ix out =>
      set out col (add float (getr out col) (getr rowvec (geti indices ix)))) out) out.

(** ** Reference accumulation *)

(** The sum of [terms], formed left to right in an accumulator of type [T]
    that starts at zero. *)
Definition accumulate (T : real_t) (terms : list real) : real :=
  fold_left (add_assign T) terms zero.

(** The terms of one row of [matmul_csr_dvec], in the order of its stored
    entries. *)
Definition dvec_terms (X_csr_indptr X_csr_indices : list Z) (X_csr_values : list real)
    (y_dense : dense_vector) (row : Z) : list real :=
  map (fun ix => dvec_term y_dense (getr X_csr_values ix) (geti X_csr_indices ix))
      (range (geti X_csr_indptr row) (geti X_csr_indptr (row + 1))).

(** An integer or logical dense vector, and the number each element stands for. *)
Definition int_vector (logical : bool) (y : list Z) : dense_vector :=
  if logical then LogicalVector y else IntegerVector y.

Definition int_value (logical : bool) (y : Z) : real :=
  of_int (if logical then bool_of_int y else y).

(** ** Compressed sparse matrices and the reference product *)

(** The data model of section 3: [indptr] has one more element than there
    are rows, starts at zero, does not decrease and ends at the number of
    stored entries; every index lies in [[0, ncols)]; the indices of a row
    ascend strictly. *)
Definition csr_valid (nrows ncols : Z) (indptr indices : list Z) (values : list real)
    : bool :=
  (0 <=? nrows) && (0 <=? ncols) &&
  (Z.of_nat (length indptr) =? nrows + 1) &&
  (geti indptr 0 =? 0) &&
  (geti indptr nrows =? Z.of_nat (length indices)) &&
  (Z.of_nat (length values) =? Z.of_nat (length indices)) &&
  forallb (fun r => geti indptr r <=? geti indptr (r + 1)) (range 0 nrows) &&
  forallb (fun p => (0 <=? geti indices p) && (geti indices p <? ncols))
          (range 0 (Z.of_nat (length indices))) &&
  forallb (fun r =>
             forallb (fun p => geti indices p <? geti indices (p + 1))
                     (range (geti indptr r) (geti indptr (r + 1) - 1)))
          (range 0 nrows).

(** The element [(r, c)] of the matrix a compressed structure stands for:
    the value stored for column [c] in row [r], zero when there is none. *)
Definition csr_entry (indptr indices : list Z) (values : list real) (r c : Z) : real :=
  for_loop (geti indptr r) (geti indptr (r + 1)) (fun p a =>
    if geti indices p =? c then getr values p else a) zero.

(** The triple nested loop [C[i][j] += A[i][c] * B[c][j]] over a dense [A]
    with [k] columns, in the arithmetic of [real_t]; [B] and [C] are
    row-major with leading dimensions [ldb] and [ldc]. *)
Definition matmul_reference (t : real_t) (m k n : Z) (A : Z -> Z -> real)
    (B : list real) (ldb : Z) (C : list real) (ldc : Z) : list real :=
  for_loop 0 m (fun i C =>
    for_loop 0 n (fun j C =>
      for_loop 0 k (fun c C =>
        set C (i * ldc + j)
          (add t (getr C (i * ldc + j))
                 (mul t (of_double t (A i c)) (getr B (c * ldb + j))))) C) C) C.

(** A finite number of type [real_t]. *)
Definition finite_real (t : real_t) (x : real) : bool :=
  is_finite x && valid t x.

(** ** The reference dot product of two sparse vectors *)

(** The indices of a sparse vector ascend strictly. *)
Definition ascending (a : list Z) : bool :=
  forallb (fun q => geti a q <? geti a (q + 1)) (range 0 (Z.of_nat (length a) - 1)).

(** The entries [q] of the sparse vector whose one-based index minus one is
    the index of the stored entry [p], each adding the term of the pair. *)
Definition matches_of (X_csr_indices : list Z) (X_csr_values : list real)
    (y_indices_base1 : list Z) (y_values : sparse_values) (p : Z) (acc : real) : real :=
  for_loop 0 (Z.of_nat (length y_indices_base1)) (fun q acc =>
    if geti X_csr_indices p =? geti y_indices_base1 q - 1
    then add double acc (svec_term y_values (getr X_csr_values p) q)
    else acc) acc.

(** The same over the stored entries from [p0] up to [end1]. *)
Definition matches_from (X_csr_indices : list Z) (X_csr_values : list real)
    (y_indices_base1 : list Z) (y_values : sparse_values) (end1 p0 : Z) (acc : real) : real :=
  for_loop p0 end1 (matches_of X_csr_indices X_csr_values y_indices_base1 y_values) acc.

(** The sum, over every stored entry [p] of the row and every entry [q] of
    the sparse vector whose one-based index minus one is the index of [p],
    of the term of the pair. *)
Definition svec_dot_reference (X_csr_indptr X_csr_indices : list Z)
    (X_csr_values : list real) (y_indices_base1 : list Z) (y_values : sparse_values)
    (row : Z) : real :=
  matches_from X_csr_indices X_csr_values y_indices_base1 y_values
    (geti X_csr_indptr (row + 1)) (geti X_csr_indptr row) zero.

(** ** The dot product of a row and a sparse vector, by the words of the contract *)

(** The number an entry of the sparse vector stands for, [None] when it is
    missing: a double as it is, a float widened, an integer converted, a
    logical as zero or one, and one for every entry of a vector without
    values. *)
Definition svec_value (y_values : sparse_values) (q : Z) : option real :=
  match y_values with
  | SNumeric y => Some (getr y q)
  | SFloat y => Some (to_double float (getr y q))
  | SInteger y =>
      if geti y q =? NA_INTEGER then None else Some (of_int (geti y q))
  | SLogical y =>
      if geti y q =? NA_LOGICAL then None
      else Some (of_int (if geti y q =? 0 then 0 else 1))
  | SBinary => Some (one double)
  end.

(** The product of a stored value of the matrix and an entry of the vector,
    in double precision; it is missing when the entry is. *)
Definition pair_product (x : real) (v : option real) : real :=
  match v with
  | Some y => mul double x y
  | None => NA_REAL
  end.

(** The products of exactly those pairs of a stored entry [p] of the row
    and an entry [q] of the vector for which the zero-based index of [p] is
    the one-based index of [q] minus one, in the order of the entries. *)
Definition matching_products (X_csr_indptr X_csr_indices : list Z)
    (X_csr_values : list real) (y_indices_base1 : list Z) (y_values : sparse_values)
    (row : Z) : list real :=
  flat_map (fun p =>
    flat_map (fun q =>
      if geti X_csr_indices p =? geti y_indices_base1 q - 1
      then [pair_product (getr X_csr_values p) (svec_value y_values q)]
      else [])
      (range 0 (Z.of_nat (length y_indices_base1))))
    (range (geti X_csr_indptr row) (geti X_csr_indptr (row + 1))).

(** The dot product: the sum of those products, from zero. *)
Definition svec_dot_product (X_csr_indptr X_csr_indices : list Z)
    (X_csr_values : list real) (y_indices_base1 : list Z) (y_values : sparse_values)
    (row : Z) : real :=
  fold_left (add double)
    (matching_products X_csr_indptr X_csr_indices X_csr_values
       y_indices_base1 y_values row) zero.

(** ** Where the linked routines and the machine integers are as described *)

(** A number other than [+0.0] and [-0.0]: [x != 0.0] of C.  The reference
    [daxpy] returns at once when its factor is zero. *)
Definition nonzero (x : real) : bool :=
  match x with S754_zero _ => false | _ => true end.


(** ** The shape of an outer product *)

(** The number of entries the outer product gives a row: the length of the
    dense vector for a row with entries, none for a row without. *)
Definition row_count (dim : Z) (indptr : list Z) (ix : Z) : Z :=
  if geti indptr ix <? geti indptr (ix + 1) then dim else 0.

(** The running sum of the counts of the rows before [ix]. *)
Definition row_start (dim : Z) (indptr : list Z) (ix : Z) : Z :=
  for_loop 0 ix (fun r s => s + row_count dim indptr r) 0.

(** [stored] is the product of the weight [w] (a double) and the element
    [v] of a vector of [real_t], formed in [real_t] and returned as a
    double; a product that is [-0.0] is stored as [+0.0], because it is
    added to a zeroed buffer. *)
Definition weight_times (t : real_t) (w v stored : real) : Prop :=
  stored = to_double t (mul t (of_double t w) v) \/
  (mul t (of_double t w) v = neg_zero /\ stored = zero).

(** ** The outer product of a dense vector and a sparse one *)

(** The product stored for column [j] of row [ix]. *)
Definition outer_term (t : real_t) (colvec : list real) (indptr : list Z)
    (values : list real) (ix j : Z) : real :=
  mul t (of_double t (getr values (geti indptr ix))) (getr colvec j).

(** What holds of the state of the first loop of
    [matmul_colvec_by_scolvecascsr_template] before row [ix]. *)
Definition colvec_inv (t : real_t) (colvec : list real) (indptr indices : list Z)
    (values : list real) (dim2 ix : Z) (st : colvec_state) : Prop :=
  cs_ncurr st = row_start (Z.of_nat (length colvec)) indptr ix /\
  Z.of_nat (length (cs_indptr st)) = dim2 + 1 /\
  geti (cs_indptr st) 0 = 0 /\
  (forall i, 0 <= i < ix ->
     geti (cs_indptr st) (i + 1) = row_count (Z.of_nat (length colvec)) indptr i) /\
  (forall i, ix <= i -> geti (cs_indptr st) (i + 1) = 0) /\
  Z.of_nat (length (cs_indices st))
    = Z.of_nat (length indices) * Z.of_nat (length colvec) /\
  Z.of_nat (length (cs_values st))
    = Z.of_nat (length indices) * Z.of_nat (length colvec) /\
  (forall i j, 0 <= i < ix -> geti indptr i < geti indptr (i + 1) ->
     0 <= j < Z.of_nat (length colvec) ->
     geti (cs_indices st) (row_start (Z.of_nat (length colvec)) indptr i + j) = j /\
     getr (cs_values st) (row_start (Z.of_nat (length colvec)) indptr i + j)
     = add t zero (outer_term t colvec indptr values i j)) /\
  (forall q, row_start (Z.of_nat (length colvec)) indptr ix <= q ->
     getr (cs_values st) q = zero).

(** ** The primitives with unit strides *)

(** The product [axpy] adds for an element [b] of [x]: at [float] the
    elementwise-add path of [saxpy] adds [b] itself when [alpha] is one. *)
Definition axpy_term (t : real_t) (alpha b : real) : real :=
  match t with
  | double => mul double alpha b
  | float =>
      if eqb (of_double float alpha) (one float) then b
      else mul float (of_double float alpha) b
  end.

(** What [axpy] does to [y] with unit strides: [y[yo + j] += alpha * x[xo + j]]. *)
Definition axpy_unit (t : real_t) (n : Z) (alpha : real) (x : list real) (xo : Z)
    (y : list real) (yo : Z) : list real :=
  for_loop 0 n (fun j y =>
    set y (yo + j) (add t (getr y (yo + j)) (axpy_term t alpha (getr x (xo + j))))) y.

(** The positions of [C] that a row of [n] elements starting at [base]
    writes. *)
Definition in_slice (n base : Z) (C : list real) (q : Z) : bool :=
  (base <=? q) && (q <? base + n) && (0 <=? q) && (q <? Z.of_nat (length C)).

(** What the stored entries of a row add to column [j] of the output row. *)
Definition sparse_sum (t : real_t) (indptr indices : list Z) (values B : list real)
    (ldb row j : Z) (acc : real) : real :=
  for_loop (geti indptr row) (geti indptr (row + 1)) (fun p acc =>
    add t acc (axpy_term t (getr values p) (getr B (geti indices p * ldb + j)))) acc.

(** The 3x3 identity, row-major, in the format [t]. *)
Definition identity3 (t : real_t) : list real :=
  map (fun z => of_double t (of_int z)) [1; 0; 0; 0; 1; 0; 0; 0; 1].

(** ** The rows of the column-major kernel *)

Section MaterializeReference.
Variable t : real_t.
Variables (n : Z) (indptr indices : list Z) (values DenseMat : list real).
Variables (ldb ldc : Z).

(** A row has stored entries. *)
Definition has_entries (row : Z) : bool := geti indptr row <? geti indptr (row + 1).

(** What a row with entries stores in the output: column [i] of its
    product, computed from a zeroed scratch row. *)
Definition row_copy (row : Z) (OutputMat : list real) : list real :=
  for_loop 0 n (fun i y =>
    set y (row + i * ldc)
      (sparse_sum t indptr indices values DenseMat ldb row i zero)) OutputMat.

Definition pure_row (row : Z) (OutputMat : list real) : list real :=
  if has_entries row then row_copy row OutputMat else OutputMat.

(** The scratch buffer of [ldc] elements holds the [ldb] elements that are
    cleared and the [n] elements that are used. *)
Definition scratch_fits : bool :=
  in_bounds ldb (repeat zero (Z.to_nat ldc)) && in_bounds n (repeat zero (Z.to_nat ldc)).

Definition temp_ok (temp : option (list real)) : Prop :=
  match temp with None => True | Some b => length b = Z.to_nat ldc end.

(** The outcome of running the rows [rows] in their order. *)
Definition run_rows (rows : list Z) (OutputMat : list real) : result (list real) :=
  if scratch_fits || negb (existsb has_entries rows)
  then Ok (fold_left (fun O r => pure_row r O) rows OutputMat)
  else OutOfBounds.

(** Every thread that has a scratch buffer has one of [ldc] elements. *)
Definition temps_ok (st : dcm_omp_state) : Prop :=
  forall th, temp_ok (omp_temp_arr st th).
End MaterializeReference.

(** ** The entries of an outer product of two sparse vectors *)

(** The rows of a compressed matrix that have stored entries, in order. *)
Definition nonempty_rows (indptr : list Z) : list Z :=
  filter (has_entries indptr) (range 0 (Z.of_nat (length indptr) - 1)).

(** ** Invariants of accumulators *)

(** The exponent of a finite number is at least the smallest exponent of
    the format: every result of an operation is so. *)
Definition exp_ok (prec emax : Z) (x : real) : Prop :=
  match x with S754_finite _ _ e => SpecFloat.emin prec emax <= e | _ => True end.

(** An accumulator that can be added to without changing the sign of a
    zero: it is not [-0.0]. *)
Definition acc_ok (prec emax : Z) (x : real) : Prop :=
  x <> neg_zero /\ exp_ok prec emax x.

(** * Verification *)

(** ** Facts about the floating-point operations *)

Module FloatFacts.

Section Rounding.
Variables prec emax : Z.
Hypothesis prec_pos : 0 < prec.

Let emin := SpecFloat.emin prec emax.

Let exp_ok := exp_ok prec emax.
Let acc_ok := acc_ok prec emax.

Lemma shr_fexp_emin m e l : emin <= snd (shr_fexp prec emax m e l).
Proof.
  unfold shr_fexp, shr, fexp, emin.
  destruct (Z.max (Zdigits2 m + e - prec) (SpecFloat.emin prec emax) - e) eqn:E;
    simpl; lia.
Qed.

Lemma binary_round_aux_exp_ok s m e l :
  exp_ok (binary_round_aux prec emax s m e l).
Proof.
  unfold binary_round_aux.
  destruct (shr_fexp prec emax m e l) as [mrs' e'].
  pose proof (shr_fexp_emin
    (round_nearest_even (shr_m mrs') (loc_of_shr_record mrs')) e' loc_Exact) as H.
  destruct (shr_fexp prec emax _ e' loc_Exact) as [mrs'' e''].
  simpl in H.
  destruct (shr_m mrs''); simpl; auto.
  destruct (e'' <=? emax - prec); simpl; auto.
Qed.

Lemma shr_1_m mrs : 0 <= shr_m mrs -> shr_m (shr_1 mrs) = shr_m mrs / 2.
Proof.
  destruct mrs as [m r s]; simpl; intros Hm.
  destruct m as [|p|p]; try lia; try reflexivity.
  destruct p; simpl shr_m.
  - rewrite Pos2Z.inj_xI. apply Z.div_unique with (r := 1); lia.
  - rewrite Pos2Z.inj_xO. apply Z.div_unique with (r := 0); lia.
  - reflexivity.
Qed.

Lemma shr_iter_m p : forall mrs, 0 <= shr_m mrs ->
  shr_m (iter_pos shr_1 p mrs) = shr_m mrs / 2 ^ Zpos p.
Proof.
  induction p as [p IH|p IH|]; intros mrs Hm; simpl iter_pos.
  - assert (H1 : 0 <= shr_m (shr_1 mrs))
      by (rewrite shr_1_m by assumption; apply Z.div_pos; lia).
    assert (H2 : 0 <= shr_m (iter_pos shr_1 p (shr_1 mrs)))
      by (rewrite IH by assumption; apply Z.div_pos; lia).
    rewrite IH, IH, shr_1_m by assumption.
    rewrite !Z.div_div by lia.
    f_equal.
    replace (Z.pos p~1) with (Z.pos p + Z.pos p + 1) by lia.
    rewrite !Z.pow_add_r by lia. ring.
  - assert (H2 : 0 <= shr_m (iter_pos shr_1 p mrs))
      by (rewrite IH by assumption; apply Z.div_pos; lia).
    rewrite IH, IH by assumption.
    rewrite !Z.div_div by lia.
    f_equal.
    replace (Z.pos p~0) with (Z.pos p + Z.pos p) by lia.
    rewrite Z.pow_add_r by lia. ring.
  - rewrite shr_1_m by assumption. reflexivity.
Qed.

Lemma digits2_pos_lb m : 2 ^ (Zpos (digits2_pos m) - 1) <= Zpos m.
Proof.
  induction m as [m IH|m IH|]; simpl digits2_pos.
  - rewrite Pos2Z.inj_succ.
    replace (Z.succ (Zpos (digits2_pos m)) - 1)
      with (Z.succ (Zpos (digits2_pos m) - 1)) by lia.
    rewrite Z.pow_succ_r by lia. lia.
  - rewrite Pos2Z.inj_succ.
    replace (Z.succ (Zpos (digits2_pos m)) - 1)
      with (Z.succ (Zpos (digits2_pos m) - 1)) by lia.
    rewrite Z.pow_succ_r by lia. lia.
  - simpl. lia.
Qed.

Lemma shr_fexp_pos m e l : emin <= e ->
  0 < shr_m (fst (shr_fexp prec emax (Zpos m) e l)).
Proof.
  intros He. unfold shr_fexp, shr, fexp. fold emin.
  simpl Zdigits2.
  assert (Hrec : shr_m (shr_record_of_loc (Zpos m) l) = Zpos m)
    by (destruct l as [|[]]; reflexivity).
  destruct (Z.max (Zpos (digits2_pos m) + e - prec) emin - e) as [|p|p] eqn:E;
    simpl fst; try (rewrite Hrec; lia).
  rewrite shr_iter_m by (rewrite Hrec; lia).
  rewrite Hrec.
  pose proof (digits2_pos_lb m) as Hlb.
  assert (Hp : Zpos p <= Zpos (digits2_pos m) - 1) by lia.
  apply Z.div_str_pos. split; [apply Z.pow_pos_nonneg; lia|].
  eapply Z.le_trans; [|exact Hlb].
  apply Z.pow_le_mono_r; lia.
Qed.

Lemma round_nearest_even_pos m l : 0 < m -> 0 < round_nearest_even m l.
Proof.
  intros Hm. destruct l as [|[]]; simpl; try lia.
  destruct (Z.even m); lia.
Qed.

(** Rounding a nonzero mantissa whose exponent is at least [emin] never
    underflows to zero. *)
Lemma binary_round_aux_nonzero s m e l : emin <= e ->
  match binary_round_aux prec emax s (Zpos m) e l with
  | S754_finite _ _ _ | S754_infinity _ => True
  | _ => False
  end.
Proof.
  intros He. unfold binary_round_aux.
  pose proof (shr_fexp_pos m e l He) as H1.
  pose proof (shr_fexp_emin (Zpos m) e l) as H1e.
  destruct (shr_fexp prec emax (Zpos m) e l) as [mrs' e']. simpl in H1, H1e.
  pose proof (round_nearest_even_pos (shr_m mrs') (loc_of_shr_record mrs') H1) as H2.
  destruct (round_nearest_even (shr_m mrs') (loc_of_shr_record mrs')) as [|m2|m2];
    try lia.
  pose proof (shr_fexp_pos m2 e' loc_Exact H1e) as H3.
  destruct (shr_fexp prec emax (Zpos m2) e' loc_Exact) as [mrs'' e'']. simpl in H3.
  destruct (shr_m mrs''); try lia.
  destruct (e'' <=? emax - prec); exact I.
Qed.

Lemma shl_align_exp m e e' : emin <= e -> emin <= e' ->
  emin <= snd (shl_align m e e').
Proof. unfold shl_align. destruct (e' - e); simpl; lia. Qed.

Lemma binary_round_nonzero s m e : emin <= e ->
  match binary_round prec emax s m e with
  | S754_finite _ _ _ | S754_infinity _ => True
  | _ => False
  end.
Proof.
  intros He. unfold binary_round.
  pose proof (shl_align_exp m e (fexp prec emax (Zpos (digits2_pos m) + e)) He) as H.
  destruct (shl_align m e _) as [mz ez]. simpl in H.
  apply binary_round_aux_nonzero. apply H. unfold fexp. fold emin. lia.
Qed.

Lemma binary_round_exp_ok s m e : exp_ok (binary_round prec emax s m e).
Proof.
  unfold binary_round. destruct (shl_align m e _) as [mz ez].
  apply binary_round_aux_exp_ok.
Qed.

Lemma SFmul_exp_ok x y : exp_ok (SFmul prec emax x y).
Proof.
  destruct x, y; simpl; auto. apply binary_round_aux_exp_ok.
Qed.

(** An accumulator that is not [-0] stays so under addition. *)
Lemma SFadd_acc_ok x y : acc_ok x -> exp_ok y -> acc_ok (SFadd prec emax x y).
Proof.
  intros [Hx Ex] Ey. unfold acc_ok, neg_zero in *.
  destruct x as [sx|sx| |sx mx ex], y as [sy|sy| |sy my ey]; simpl;
    try (split; [discriminate|exact I]);
    try (split; [discriminate|assumption]).
  - destruct sx; [congruence|]. destruct sy; split; try discriminate; exact I.
  - destruct sx, sy; split; try discriminate; exact I.
  - simpl in Ex, Ey. unfold binary_normalize.
    destruct (cond_Zopp sx _ + cond_Zopp sy _) as [|p|p].
    + split; [discriminate|exact I].
    + pose proof (binary_round_nonzero false p (Z.min ex ey) ltac:(lia)) as H.
      pose proof (binary_round_exp_ok false p (Z.min ex ey)) as H'.
      destruct (binary_round prec emax false p (Z.min ex ey)); try contradiction;
        (split; [discriminate|assumption]).
    + pose proof (binary_round_nonzero true p (Z.min ex ey) ltac:(lia)) as H.
      pose proof (binary_round_exp_ok true p (Z.min ex ey)) as H'.
      destruct (binary_round prec emax true p (Z.min ex ey)); try contradiction;
        (split; [discriminate|assumption]).
Qed.

(** Adding a zero to an accumulator that is not [-0] leaves it as it is. *)
Lemma SFadd_zero_r x s : x <> neg_zero -> SFadd prec emax x (S754_zero s) = x.
Proof.
  unfold neg_zero. destruct x as [sx|sx| |sx mx ex]; simpl; try reflexivity.
  destruct sx, s; congruence.
Qed.

Lemma SFmul_zero_l s y : is_finite y = true ->
  exists s', SFmul prec emax (S754_zero s) y = S754_zero s'.
Proof. destruct y; simpl; try discriminate; eauto. Qed.

Lemma valid_exp_ok x : valid_binary prec emax x = true -> exp_ok x.
Proof.
  destruct x as [| | |s m e]; simpl; auto.
  unfold bounded, canonical_mantissa, fexp. fold emin.
  intros H. apply andb_prop in H. destruct H as [H _].
  apply Z.eqb_eq in H. lia.
Qed.
End Rounding.

End FloatFacts.

(** ** Arrays and loops *)

Section ArrayFacts.
Context {A : Type}.
Variable d : A.

Lemma length_set_nat (a : list A) i v : length (set_nat a i v) = length a.
Proof.
  revert i; induction a as [|x a IH]; intros [|i]; simpl; auto.
Qed.

Lemma length_set (a : list A) i v : length (set a i v) = length a.
Proof. unfold set. destruct (i <? 0); auto using length_set_nat. Qed.

Lemma nth_set_nat (a : list A) i j v :
  nth j (set_nat a i v) d =
  if (Nat.eqb i j && Nat.ltb i (length a))%bool then v else nth j a d.
Proof.
  revert i j; induction a as [|x a IH]; intros i j.
  - simpl. now rewrite Bool.andb_false_r.
  - destruct i as [|i], j as [|j]; simpl; auto.
Qed.

Lemma get_set (a : list A) i j v :
  get d (set a i v) j =
  if (i =? j) && (0 <=? i) && (i <? Z.of_nat (length a)) then v else get d a j.
Proof.
  unfold get, set.
  destruct (Z.ltb_spec i 0), (Z.ltb_spec j 0), (Z.eqb_spec i j),
    (Z.leb_spec 0 i), (Z.ltb_spec i (Z.of_nat (length a)));
    simpl; try lia; try reflexivity; rewrite nth_set_nat;
    destruct (Nat.eqb_spec (Z.to_nat i) (Z.to_nat j)),
      (Nat.ltb_spec (Z.to_nat i) (length a)); simpl; try lia; reflexivity.
Qed.

Lemma get_set_same (a : list A) i v :
  0 <= i < Z.of_nat (length a) -> get d (set a i v) i = v.
Proof.
  intros H. rewrite get_set.
  destruct (Z.eqb_spec i i), (Z.leb_spec 0 i), (Z.ltb_spec i (Z.of_nat (length a)));
    simpl; try lia; reflexivity.
Qed.

Lemma get_set_other (a : list A) i j v : i <> j -> get d (set a i v) j = get d a j.
Proof.
  intros H. rewrite get_set. destruct (Z.eqb_spec i j); [contradiction|reflexivity].
Qed.

Lemma get_outside (a : list A) i : ~ 0 <= i < Z.of_nat (length a) -> get d a i = d.
Proof.
  intros H. unfold get. destruct (Z.ltb_spec i 0); auto.
  apply nth_overflow. lia.
Qed.

(** Two arrays of the same length that agree at every position are equal. *)
Lemma get_ext (a b : list A) :
  length a = length b -> (forall i, get d a i = get d b i) -> a = b.
Proof.
  intros Hl H. apply nth_ext with (d := d) (d' := d); auto.
  intros n _. specialize (H (Z.of_nat n)). unfold get in H.
  destruct (Z.ltb_spec (Z.of_nat n) 0); try lia.
  now rewrite Nat2Z.id in H.
Qed.

Lemma set_get_id (a : list A) i : set a i (get d a i) = a.
Proof.
  apply get_ext; [apply length_set|].
  intros j. rewrite get_set.
  destruct (Z.eqb_spec i j); simpl; [subst|reflexivity].
  now destruct (_ && _).
Qed.

Lemma set_comm (a : list A) i j v w :
  i <> j -> set (set a i v) j w = set (set a j w) i v.
Proof.
  intros H. apply get_ext; [now rewrite !length_set|].
  intros k. rewrite !get_set, !length_set.
  destruct (Z.eqb_spec j k), (Z.eqb_spec i k); simpl; try lia; reflexivity.
Qed.

Lemma get_repeat (v : A) n i : 0 <= i < Z.of_nat n -> get d (repeat v n) i = v.
Proof.
  intros H. unfold get. destruct (Z.ltb_spec i 0); try lia.
  apply nth_repeat_lt. lia.
Qed.

Lemma get_In (a : list A) i : 0 <= i < Z.of_nat (length a) -> In (get d a i) a.
Proof.
  intros H. unfold get. destruct (Z.ltb_spec i 0); try lia.
  apply nth_In. lia.
Qed.
End ArrayFacts.

Section LoopFacts.
Context {S : Type}.
Implicit Types (body : Z -> S -> S) (s : S).

Lemma for_loop_empty lo hi body s : hi <= lo -> for_loop lo hi body s = s.
Proof.
  intros H. unfold for_loop. replace (Z.to_nat (hi - lo)) with O by lia. reflexivity.
Qed.

Lemma for_loop_first lo hi body s :
  lo < hi -> for_loop lo hi body s = for_loop (lo + 1) hi body (body lo s).
Proof.
  intros H. unfold for_loop.
  replace (Z.to_nat (hi - lo)) with (Datatypes.S (Z.to_nat (hi - (lo + 1)))) by lia.
  reflexivity.
Qed.

Lemma for_nat_split k1 k2 : forall i body s,
  for_nat (k1 + k2) i body s = for_nat k2 (i + Z.of_nat k1) body (for_nat k1 i body s).
Proof.
  induction k1 as [|k1 IH]; intros i body s.
  - simpl. now rewrite Z.add_0_r.
  - cbn [Nat.add for_nat]. rewrite IH. f_equal. lia.
Qed.

Lemma for_loop_split lo mid hi body s :
  lo <= mid <= hi ->
  for_loop lo hi body s = for_loop mid hi body (for_loop lo mid body s).
Proof.
  intros H. unfold for_loop.
  replace (Z.to_nat (hi - lo)) with (Z.to_nat (mid - lo) + Z.to_nat (hi - mid))%nat by lia.
  rewrite for_nat_split. f_equal. lia.
Qed.

Lemma for_loop_last lo hi body s :
  lo < hi -> for_loop lo hi body s = body (hi - 1) (for_loop lo (hi - 1) body s).
Proof.
  intros H. rewrite (for_loop_split lo (hi - 1) hi) by lia.
  rewrite (for_loop_first (hi - 1) hi) by lia.
  now rewrite for_loop_empty by lia.
Qed.

(** Induction over the iterations of a loop, for an invariant that may
    depend on the loop variable. *)
Lemma for_loop_ind (P : Z -> S -> Prop) lo hi body s :
  lo <= hi -> P lo s ->
  (forall i s, lo <= i < hi -> P i s -> P (i + 1) (body i s)) ->
  P hi (for_loop lo hi body s).
Proof.
  intros Hle H0 Hstep. unfold for_loop.
  remember (Z.to_nat (hi - lo)) as k eqn:Ek.
  revert lo s Hle H0 Hstep Ek.
  induction k as [|k IH]; intros lo s Hle H0 Hstep Ek.
  - simpl. replace hi with lo by lia. exact H0.
  - simpl. apply IH; try lia.
    + apply Hstep; [lia|exact H0].
    + intros i s' Hi. apply Hstep. lia.
Qed.

Lemma for_loop_ext lo hi body body' s :
  (forall i s, lo <= i < hi -> body i s = body' i s) ->
  for_loop lo hi body s = for_loop lo hi body' s.
Proof.
  intros H. destruct (Z.le_gt_cases hi lo) as [Hle|Hlt].
  - now rewrite !for_loop_empty.
  - apply (for_loop_ind (fun i s' => s' = for_loop lo i body' s) lo hi body s);
      [lia|now rewrite for_loop_empty by lia|].
    intros i s' Hi ->. rewrite (for_loop_last lo (i + 1)) by lia.
    replace (i + 1 - 1) with i by lia. now apply H.
Qed.

(** A loop whose body does nothing on the states that satisfy an
    invariant does nothing. *)
Lemma for_loop_id lo hi body s :
  (forall i, lo <= i < hi -> body i s = s) -> for_loop lo hi body s = s.
Proof.
  intros H. destruct (Z.le_gt_cases hi lo) as [Hle|Hlt].
  - now rewrite for_loop_empty.
  - apply (for_loop_ind (fun _ s' => s' = s)); [lia|reflexivity|].
    intros i s' Hi ->. now apply H.
Qed.
End LoopFacts.

(** ** Single-precision facts *)

Module FloatOne.

(** [a == 1.0f] identifies [a]. *)
Lemma eqb_one a : eqb a (one float) = true -> a = one float.
Proof.
  unfold eqb, SFeqb.
  change (one float) with (S754_finite false 8388608 (-23)).
  destruct a as [s|s| |s m e]; cbn [SFcompare]; try discriminate.
  - destruct s; discriminate.
  - destruct s; try discriminate.
    destruct (Z.compare_spec e (-23)); try discriminate.
    destruct (Pos.compare_cont Eq m 8388608) eqn:E; try discriminate.
    intros _. apply Pos.compare_eq in E. now subst.
Qed.

(** Multiplying a single-precision number by [1.0f] returns it, bit for bit. *)
Lemma mul_one_l x : valid float x = true -> mul float (one float) x = x.
Proof.
  destruct x as [s|s| |s m e]; try reflexivity.
  unfold valid, valid_binary, bounded, canonical_mantissa, fexp.
  intros H. apply andb_prop in H. destruct H as [Hc Hb].
  apply Z.eqb_eq in Hc. apply Z.leb_le in Hb.
  change (prec float) with 24 in *. change (emax float) with 128 in *.
  change (SpecFloat.emin 24 128) with (-149) in *.
  unfold mul.
  change (one float) with (S754_finite false 8388608 (-23)).
  change (prec float) with 24 in *. change (emax float) with 128 in *.
  unfold SFmul. cbn [xorb].
  unfold binary_round_aux, shr_fexp, fexp.
  change (SpecFloat.emin 24 128) with (-149) in *.
  cbn [Pos.mul Zdigits2 digits2_pos].
  rewrite !Pos2Z.inj_succ.
  replace (Z.max _ _ - (-23 + e)) with 23 by lia.
  cbv [shr shr_record_of_loc iter_pos shr_1 orb].
  cbv beta iota zeta delta [shr_m loc_of_shr_record round_nearest_even Zdigits2].
  replace (-23 + e + 23) with e by lia.
  replace (Z.max _ _ - e) with 0 by lia.
  cbv beta iota zeta delta [shr_m].
  apply Z.leb_le in Hb. now rewrite Hb.
Qed.

End FloatOne.

(** ** Double-precision facts *)

Module DoubleOne.

(** Multiplying a double by [1.0] returns it, bit for bit. *)
Lemma mul_double_one_l x : valid double x = true -> mul double (one double) x = x.
Proof.
  destruct x as [s|s| |s m e]; try reflexivity.
  unfold valid, valid_binary, bounded, canonical_mantissa, fexp.
  intros H. apply andb_prop in H. destruct H as [Hc Hb].
  apply Z.eqb_eq in Hc. apply Z.leb_le in Hb.
  change (prec double) with 53 in *. change (emax double) with 1024 in *.
  change (SpecFloat.emin 53 1024) with (-1074) in *.
  unfold mul.
  change (one double) with (S754_finite false 4503599627370496 (-52)).
  change (prec double) with 53 in *. change (emax double) with 1024 in *.
  unfold SFmul. cbn [xorb].
  unfold binary_round_aux, shr_fexp, fexp.
  change (SpecFloat.emin 53 1024) with (-1074) in *.
  cbn [Pos.mul Zdigits2 digits2_pos].
  rewrite !Pos2Z.inj_succ.
  replace (Z.max _ _ - (-52 + e)) with 52 by lia.
  cbv [shr shr_record_of_loc iter_pos shr_1 orb].
  cbv beta iota zeta delta [shr_m loc_of_shr_record round_nearest_even Zdigits2].
  replace (-52 + e + 52) with e by lia.
  replace (Z.max _ _ - e) with 0 by lia.
  cbv beta iota zeta delta [shr_m].
  apply Z.leb_le in Hb. now rewrite Hb.
Qed.

Lemma mul_double_comm x y : mul double x y = mul double y x.
Proof.
  unfold mul. destruct x as [sx|sx| |sx mx ex], y as [sy|sy| |sy my ey];
    cbn [SFmul]; try reflexivity; try (now rewrite Bool.xorb_comm).
  now rewrite Bool.xorb_comm, Pos.mul_comm, Z.add_comm.
Qed.

Lemma mul_double_one_r x : valid double x = true -> mul double x (one double) = x.
Proof. intros H. rewrite mul_double_comm. now apply mul_double_one_l. Qed.

End DoubleOne.

Lemma valid_get t (x : list real) i :
  Forall (fun b => valid t b = true) x -> valid t (getr x i) = true.
Proof.
  intros Hx. destruct (Z.lt_ge_cases i 0) as [Hneg|Hnn];
    [unfold getr; rewrite get_outside by lia; now destruct t|].
  destruct (Z.lt_ge_cases i (Z.of_nat (length x))) as [Hin|Hout];
    [|unfold getr; rewrite get_outside by lia; now destruct t].
  rewrite Forall_forall in Hx. apply Hx. apply get_In. lia.
Qed.

(** ** The two paths of [saxpy] *)

(** C8.  With unit strides and [alpha == 1], the elementwise-add path of
    [saxpy] and its general strided path leave the same destination, bit
    for bit, whenever the source holds single-precision numbers; [saxpy]
    itself takes the elementwise-add path there. *)
Theorem saxpy_special_case_agrees (n : Z) (x : list real) (xo : Z)
    (y : list real) (yo : Z) :
  Forall (fun v => valid float v = true) x ->
  saxpy_add_path n x xo y yo = saxpy_general_path n (one float) x xo 1 y yo 1 /\
  saxpy n (one float) x xo 1 y yo 1 = saxpy_add_path n x xo y yo.
Proof.
  intros Hx. split; [|reflexivity].
  unfold saxpy_add_path, saxpy_general_path.
  apply for_loop_ext. intros i s _.
  rewrite !Z.mul_1_r. rewrite FloatOne.mul_one_l; [reflexivity|].
  destruct (Z.lt_ge_cases (xo + i) 0) as [Hneg|Hnn].
  - unfold getr. rewrite get_outside by lia. reflexivity.
  - destruct (Z.lt_ge_cases (xo + i) (Z.of_nat (length x))) as [Hin|Hout].
    + rewrite Forall_forall in Hx. apply Hx. apply get_In. lia.
    + unfold getr. rewrite get_outside by lia. reflexivity.
Qed.

Lemma saxpy_special_case_agrees_witness :
  saxpy_add_path 2 [of_double float (of_int 3); S754_infinity true] 0
                   [one float; S754_nan] 0
  = saxpy_general_path 2 (one float) [of_double float (of_int 3); S754_infinity true]
                       0 1 [one float; S754_nan] 0 1 /\
  saxpy 2 (one float) [of_double float (of_int 3); S754_infinity true] 0 1
          [one float; S754_nan] 0 1
  = saxpy_add_path 2 [of_double float (of_int 3); S754_infinity true] 0
                     [one float; S754_nan] 0.
Proof.
  apply (saxpy_special_case_agrees 2
           [of_double float (of_int 3); S754_infinity true] 0 [one float; S754_nan] 0).
  repeat constructor.
Defined.

(** ** The scratch buffer of materialize mode *)

(** C4.  The scratch buffer is allocated with [ldc] elements (the number of
    rows of the output), while [memset] clears [ldb] of them: for the
    product of a 1x1 sparse matrix with the transpose of a 2x1 dense one,
    the exported [tcrossprod_csr_dense] clears two elements of a buffer of
    one. *)
Theorem scratch_buffer_overrun (uninit : real) (t : real_t) (nthreads : Z) :
  tcrossprod_csr_dense uninit t [0; 1] [0] [of_int 1]
    [of_double t (of_int 1); of_double t (of_int 1)] 2 nthreads = OutOfBounds.
Proof. destruct t; reflexivity. Qed.

(** ** Loops as folds *)

Lemma range_empty lo hi : hi <= lo -> range lo hi = [].
Proof. intros H. unfold range. now replace (Z.to_nat (hi - lo)) with O by lia. Qed.

Lemma range_first lo hi : lo < hi -> range lo hi = lo :: range (lo + 1) hi.
Proof.
  intros H. unfold range.
  replace (Z.to_nat (hi - lo)) with (S (Z.to_nat (hi - (lo + 1)))) by lia.
  cbn [seq map]. f_equal; [lia|].
  rewrite <- seq_shift, map_map. apply map_ext. intros k. lia.
Qed.

Lemma in_range lo hi i : In i (range lo hi) <-> lo <= i < hi.
Proof.
  unfold range. rewrite in_map_iff. split.
  - intros (k & <- & Hk). apply in_seq in Hk. lia.
  - intros H. exists (Z.to_nat (i - lo)). split; [lia|]. apply in_seq. lia.
Qed.

Lemma range_NoDup lo hi : NoDup (range lo hi).
Proof.
  unfold range. apply Finite.Injective_map_NoDup; [|apply seq_NoDup].
  intros a b. lia.
Qed.

Lemma for_loop_fold {S : Type} lo hi (body : Z -> S -> S) s :
  for_loop lo hi body s = fold_left (fun s i => body i s) (range lo hi) s.
Proof.
  unfold for_loop. remember (Z.to_nat (hi - lo)) as k eqn:Ek.
  revert lo s Ek. induction k as [|k IH]; intros lo s Ek.
  - rewrite range_empty by lia. reflexivity.
  - rewrite range_first by lia. simpl. apply IH. lia.
Qed.

(** A loop that stores [f row] at every [row] of [out]. *)
Lemma for_loop_set_get {A : Type} (d : A) (f : Z -> A) n out r :
  0 <= r < n -> n <= Z.of_nat (length out) ->
  get d (for_loop 0 n (fun row out => set out row (f row)) out) r = f r.
Proof.
  intros Hr Hn.
  assert (H : length (for_loop 0 n (fun row out => set out row (f row)) out)
              = length out /\
              forall r, 0 <= r < n ->
                get d (for_loop 0 n (fun row out => set out row (f row)) out) r = f r).
  { apply (for_loop_ind (fun i o => length o = length out /\
             forall r, 0 <= r < i -> get d o r = f r)); [lia| |].
    - split; [reflexivity|]. intros; lia.
    - intros i o Hi [Hl Hg]. split; [now rewrite length_set|].
      intros r' Hr'. destruct (Z.eq_dec i r') as [->|Hne].
      + apply get_set_same. lia.
      + rewrite get_set_other by assumption. apply Hg. lia. }
  now apply H.
Qed.

(** ** Sparse matrix times dense vector *)

Lemma dvec_row_accumulate X_csr_indptr X_csr_indices X_csr_values y_dense row :
  dvec_row X_csr_indptr X_csr_indices X_csr_values y_dense row
  = accumulate (OutputDType y_dense)
      (dvec_terms X_csr_indptr X_csr_indices X_csr_values y_dense row).
Proof.
  unfold dvec_row, accumulate, dvec_terms. rewrite for_loop_fold.
  generalize (range (geti X_csr_indptr row) (geti X_csr_indptr (row + 1))).
  generalize zero. intros v l. revert v.
  induction l as [|ix l IH]; intros v; simpl; auto.
Qed.

Lemma matmul_csr_dvec_row X_csr_indptr X_csr_indices X_csr_values y_dense nthreads row :
  0 <= row < Z.of_nat (length X_csr_indptr) - 1 ->
  getr (matmul_csr_dvec X_csr_indptr X_csr_indices X_csr_values y_dense nthreads) row
  = dvec_row X_csr_indptr X_csr_indices X_csr_values y_dense row.
Proof.
  intros H. unfold matmul_csr_dvec, getr.
  apply (for_loop_set_get zero
           (dvec_row X_csr_indptr X_csr_indices X_csr_values y_dense)); [lia|].
  rewrite repeat_length. lia.
Qed.

(** C5 (as the code has it).  The accumulator of a row has the type of the
    output: every partial sum is formed in double precision and stored back
    in [OutputDType], which is [double] for a numeric, integer or logical
    dense vector and [float] for the float32 variant. *)
Theorem dvec_accumulator_is_output_type X_csr_indptr X_csr_indices X_csr_values
    y_dense nthreads row :
  0 <= row < Z.of_nat (length X_csr_indptr) - 1 ->
  getr (matmul_csr_dvec X_csr_indptr X_csr_indices X_csr_values y_dense nthreads) row
  = accumulate (OutputDType y_dense)
      (dvec_terms X_csr_indptr X_csr_indices X_csr_values y_dense row) /\
  OutputDType y_dense = match y_dense with FloatVector _ => float | _ => double end.
Proof.
  intros H. split; [|reflexivity].
  now rewrite matmul_csr_dvec_row, dvec_row_accumulate.
Qed.

Lemma dvec_accumulator_is_output_type_witness :
  getr (matmul_csr_dvec [0; 3] [0; 1; 2] [of_int 16777216; of_int 1; of_int 1]
          (FloatVector [one float; one float; one float]) 1) 0
  = accumulate float
      (dvec_terms [0; 3] [0; 1; 2] [of_int 16777216; of_int 1; of_int 1]
         (FloatVector [one float; one float; one float]) 0) /\
  OutputDType (FloatVector [one float; one float; one float]) = float.
Proof.
  apply (dvec_accumulator_is_output_type [0; 3] [0; 1; 2]
           [of_int 16777216; of_int 1; of_int 1]
           (FloatVector [one float; one float; one float]) 1 0).
  simpl. lia.
Defined.

(** C5 (as the spec states it) fails: in the float32 variant the row
    [2^24, 1, 1] times the vector [1, 1, 1] yields [2^24], whereas the sum
    accumulated in double precision and then narrowed is [2^24 + 2]. *)
Lemma dvec_float32_not_accumulated_in_double :
  let X_csr_values := [of_int 16777216; of_int 1; of_int 1] in
  let y_dense := FloatVector [one float; one float; one float] in
  getr (matmul_csr_dvec [0; 3] [0; 1; 2] X_csr_values y_dense 1) 0
    = of_double float (of_int 16777216) /\
  of_double float (accumulate double (dvec_terms [0; 3] [0; 1; 2] X_csr_values y_dense 0))
    = of_double float (of_int 16777218) /\
  getr (matmul_csr_dvec [0; 3] [0; 1; 2] X_csr_values y_dense 1) 0
    <> of_double float
         (accumulate double (dvec_terms [0; 3] [0; 1; 2] X_csr_values y_dense 0)).
Proof.
  cbv zeta. split; [vm_compute; reflexivity|]. split; [vm_compute; reflexivity|].
  vm_compute. discriminate.
Qed.

(** *** Missing values *)

Lemma add_nan_l t x : add t S754_nan x = S754_nan.
Proof. reflexivity. Qed.

Lemma add_nan_r t x : add t x S754_nan = S754_nan.
Proof. destruct x; reflexivity. Qed.






(** ** Updates of a slice *)

Section SliceFacts.
Context {A : Type}.
Variable d : A.

Lemma set_set (a : list A) i v w : set (set a i v) i w = set a i w.
Proof.
  apply (get_ext d); [now rewrite !length_set|].
  intros k. rewrite !get_set, !length_set.
  now destruct (_ && _).
Qed.

(** A loop that rewrites the elements [base], [base + 1], ... of an array,
    each from its own old value. *)
Lemma slice_update_get (h : Z -> A -> A) n base (a : list A) q :
  get d (for_loop 0 n (fun j a => set a (base + j) (h j (get d a (base + j)))) a) q =
  if (base <=? q) && (q <? base + n) && (0 <=? q) && (q <? Z.of_nat (length a))
  then h (q - base) (get d a q) else get d a q.
Proof.
  destruct (Z.le_gt_cases n 0) as [Hn|Hn].
  { rewrite for_loop_empty by lia.
    destruct (Z.leb_spec base q), (Z.ltb_spec q (base + n)); simpl; try lia; auto. }
  assert (H : length (for_loop 0 n
                (fun j a => set a (base + j) (h j (get d a (base + j)))) a) = length a /\
              forall q, get d (for_loop 0 n
                (fun j a => set a (base + j) (h j (get d a (base + j)))) a) q =
                if (base <=? q) && (q <? base + n) && (0 <=? q)
                   && (q <? Z.of_nat (length a))
                then h (q - base) (get d a q) else get d a q).
  { apply (for_loop_ind (fun i a' => length a' = length a /\
             forall q, get d a' q =
               if (base <=? q) && (q <? base + i) && (0 <=? q)
                  && (q <? Z.of_nat (length a))
               then h (q - base) (get d a q) else get d a q)); [lia| |].
    - split; [reflexivity|]. intros q'.
      destruct (Z.leb_spec base q'), (Z.ltb_spec q' (base + 0)); simpl; try lia; auto.
    - intros i a' Hi [Hl Hg]. split; [now rewrite length_set|].
      intros q'. rewrite get_set, Hl, (Hg (base + i)), (Hg q').
      destruct (Z.eqb_spec (base + i) q') as [<-|Hne].
      + destruct (Z.leb_spec base (base + i)), (Z.ltb_spec (base + i) (base + i)),
          (Z.ltb_spec (base + i) (base + (i + 1))), (Z.leb_spec 0 (base + i)),
          (Z.ltb_spec (base + i) (Z.of_nat (length a))); simpl; try lia; auto.
        now replace (base + i - base) with i by lia.
      + destruct (Z.leb_spec base q'), (Z.ltb_spec q' (base + i)),
          (Z.ltb_spec q' (base + (i + 1))); simpl; try lia; auto. }
  apply H.
Qed.

Lemma slice_update_length (h : Z -> A -> A) n base (a : list A) :
  length (for_loop 0 n (fun j a => set a (base + j) (h j (get d a (base + j)))) a)
  = length a.
Proof.
  destruct (Z.le_gt_cases n 0) as [Hn|Hn]; [now rewrite for_loop_empty by lia|].
  apply (for_loop_ind (fun _ a' => length a' = length a)); [lia|reflexivity|].
  intros i a' _ Hl. now rewrite length_set.
Qed.

(** A loop that keeps rewriting one element amounts to one store of the
    accumulated value. *)
Lemma inplace_accumulate (g : Z -> A -> A) lo hi q (a : list A) :
  for_loop lo hi (fun c a => set a q (g c (get d a q))) a
  = set a q (for_loop lo hi g (get d a q)).
Proof.
  destruct (Z.le_gt_cases hi lo) as [Hle|Hlt].
  { rewrite !for_loop_empty by lia. now rewrite set_get_id. }
  destruct (Z.lt_ge_cases q 0) as [Hneg|Hnn].
  { unfold set. destruct (Z.ltb_spec q 0); try lia.
    apply for_loop_id. reflexivity. }
  destruct (Z.lt_ge_cases q (Z.of_nat (length a))) as [Hin|Hout].
  - apply (for_loop_ind (fun i a' => a' = set a q (for_loop lo i g (get d a q))));
      [lia|now rewrite for_loop_empty, set_get_id by lia|].
    intros i a' Hi ->. rewrite get_set_same by lia. rewrite set_set.
    rewrite (for_loop_last lo (i + 1)) by lia.
    now replace (i + 1 - 1) with i by lia.
  - assert (Hno : forall v, set a q v = a).
    { intros v. apply (get_ext d); [apply length_set|].
      intros k. rewrite get_set.
      destruct (Z.ltb_spec q (Z.of_nat (length a))); try lia.
      now rewrite Bool.andb_false_r. }
    rewrite Hno. apply for_loop_id. intros i _. apply Hno.
Qed.
End SliceFacts.

(** ** Valid compressed matrices *)

Section CsrFacts.
Variables (nrows ncols : Z) (indptr indices : list Z) (values : list real).
Hypothesis Hvalid : csr_valid nrows ncols indptr indices values = true.

Lemma csr_parts :
  0 <= ncols /\
  Z.of_nat (length indptr) = nrows + 1 /\
  geti indptr 0 = 0 /\
  geti indptr nrows = Z.of_nat (length indices) /\
  length values = length indices /\
  (forall r, 0 <= r < nrows -> geti indptr r <= geti indptr (r + 1)) /\
  (forall p, 0 <= p < Z.of_nat (length indices) -> 0 <= geti indices p < ncols) /\
  (forall r p, 0 <= r < nrows ->
     geti indptr r <= p -> p + 1 < geti indptr (r + 1) ->
     geti indices p < geti indices (p + 1)) /\
  0 <= nrows.
Proof.
  pose proof Hvalid as Hv. unfold csr_valid in Hv.
  rewrite !andb_true_iff in Hv.
  destruct Hv as ((((((((Hrows & Hcols) & Hlen) & Hfirst) & Hlast) & Hvals) & Hmono)
                  & Hbnd) & Hsort).
  apply Z.leb_le in Hrows, Hcols.
  apply Z.eqb_eq in Hlen, Hfirst, Hlast, Hvals.
  rewrite forallb_forall in Hmono, Hbnd, Hsort.
  repeat split; try lia.
  - intros r Hr. apply Z.leb_le. apply Hmono. now apply in_range.
  - assert (Hp : In p (range 0 (Z.of_nat (length indices)))) by now apply in_range.
    apply Hbnd in Hp. apply andb_prop in Hp. destruct Hp as [Hp _]. now apply Z.leb_le.
  - assert (Hp : In p (range 0 (Z.of_nat (length indices)))) by now apply in_range.
    apply Hbnd in Hp. apply andb_prop in Hp. destruct Hp as [_ Hp]. now apply Z.ltb_lt.
  - intros r p Hr Hlo Hhi.
    assert (Hin : In r (range 0 nrows)) by now apply in_range.
    apply Hsort in Hin. rewrite forallb_forall in Hin.
    apply Z.ltb_lt. apply Hin. apply in_range. lia.
Qed.

Lemma csr_monotone r : 0 <= r < nrows -> geti indptr r <= geti indptr (r + 1).
Proof. apply csr_parts. Qed.

Lemma csr_ncols_nonneg : 0 <= ncols.
Proof. apply csr_parts. Qed.

Lemma csr_nrows_nonneg : 0 <= nrows.
Proof. apply csr_parts. Qed.

Lemma csr_monotone_from r r' :
  0 <= r <= r' -> r' <= nrows -> geti indptr r <= geti indptr r'.
Proof.
  intros Hr Hr'. replace r' with (r + Z.of_nat (Z.to_nat (r' - r))) by lia.
  assert (Hk : r + Z.of_nat (Z.to_nat (r' - r)) <= nrows) by lia.
  induction (Z.to_nat (r' - r)) as [|k IH].
  - rewrite Z.add_0_r. lia.
  - etransitivity; [apply IH; lia|].
    replace (r + Z.of_nat (S k)) with (r + Z.of_nat k + 1) by lia.
    apply csr_monotone. lia.
Qed.

Lemma csr_row_range r p :
  0 <= r < nrows -> geti indptr r <= p < geti indptr (r + 1) ->
  0 <= p < Z.of_nat (length indices).
Proof.
  intros Hr Hp.
  pose proof (csr_monotone_from 0 r ltac:(lia) ltac:(lia)) as H0.
  pose proof (csr_monotone_from (r + 1) nrows ltac:(lia) ltac:(lia)) as H1.
  destruct csr_parts as (_ & _ & E0 & En & _). lia.
Qed.

Lemma csr_index_bounds r p :
  0 <= r < nrows -> geti indptr r <= p < geti indptr (r + 1) ->
  0 <= geti indices p < ncols.
Proof.
  intros Hr Hp. destruct csr_parts as (_ & _ & _ & _ & _ & _ & Hb & _).
  apply Hb. now apply (csr_row_range r).
Qed.

(** Within a row the indices ascend strictly. *)
Lemma csr_row_ascending r p p' :
  0 <= r < nrows -> geti indptr r <= p -> p < p' -> p' < geti indptr (r + 1) ->
  geti indices p < geti indices p'.
Proof.
  intros Hr Hlo Hlt Hhi.
  destruct csr_parts as (_ & _ & _ & _ & _ & _ & _ & Hs & _).
  replace p' with (p + 1 + Z.of_nat (Z.to_nat (p' - p - 1))) in * by lia.
  induction (Z.to_nat (p' - p - 1)) as [|k IH].
  - rewrite Z.add_0_r in *. apply (Hs r); lia.
  - etransitivity; [apply IH; lia|].
    replace (p + 1 + Z.of_nat (S k)) with (p + 1 + Z.of_nat k + 1) by lia.
    apply (Hs r); lia.
Qed.

Lemma csr_entry_absent r c :
  (forall p, geti indptr r <= p < geti indptr (r + 1) -> geti indices p <> c) ->
  csr_entry indptr indices values r c = zero.
Proof.
  intros H. unfold csr_entry. apply for_loop_id.
  intros p Hp. destruct (Z.eqb_spec (geti indices p) c); [|reflexivity].
  now apply H in Hp.
Qed.

Lemma csr_entry_found r p :
  0 <= r < nrows -> geti indptr r <= p < geti indptr (r + 1) ->
  csr_entry indptr indices values r (geti indices p) = getr values p.
Proof.
  intros Hr Hp. unfold csr_entry.
  rewrite (for_loop_split _ (p + 1)) by lia.
  rewrite (for_loop_last _ (p + 1)) by lia.
  replace (p + 1 - 1) with p by lia. rewrite Z.eqb_refl.
  apply for_loop_id. intros p' Hp'.
  destruct (Z.eqb_spec (geti indices p') (geti indices p)) as [E|]; [|reflexivity].
  pose proof (csr_row_ascending r p p' Hr ltac:(lia) ltac:(lia) ltac:(lia)). lia.
Qed.
End CsrFacts.

(** ** The accumulate-multiply primitive with unit strides *)

Lemma prec_pos t : 0 < prec t.
Proof. destruct t; simpl; lia. Qed.

Lemma finite_real_get t (x : list real) i :
  Forall (fun b => finite_real t b = true) x ->
  is_finite (getr x i) = true /\ valid t (getr x i) = true.
Proof.
  intros Hx.
  assert (H : finite_real t (getr x i) = true).
  { destruct (Z.lt_ge_cases i 0) as [Hneg|Hnn];
      [unfold getr; rewrite get_outside by lia; now destruct t|].
    destruct (Z.lt_ge_cases i (Z.of_nat (length x))) as [Hin|Hout];
      [|unfold getr; rewrite get_outside by lia; now destruct t].
    rewrite Forall_forall in Hx. apply Hx. apply get_In. lia. }
  now apply andb_prop in H.
Qed.

Lemma axpy_unit_stride t n alpha x xo y yo :
  axpy t n alpha x xo 1 y yo 1 = axpy_unit t n alpha x xo y yo.
Proof.
  unfold axpy, axpy_unit, axpy_term. destruct t.
  - unfold daxpy. apply for_loop_ext. intros i s _. now rewrite !Z.mul_1_r.
  - cbv zeta. unfold saxpy. simpl (_ =? _). cbn [andb].
    destruct (eqb (of_double float alpha) (one float)) eqn:E.
    + reflexivity.
    + unfold saxpy_general_path. apply for_loop_ext. intros i s _.
      now rewrite !Z.mul_1_r.
Qed.

(** On numbers of type [real_t] the product is [alpha * b], with [alpha]
    converted to [real_t]. *)
Lemma axpy_term_mul t alpha b :
  valid t b = true -> axpy_term t alpha b = mul t (of_double t alpha) b.
Proof.
  intros Hb. unfold axpy_term. destruct t; [reflexivity|].
  destruct (eqb (of_double float alpha) (one float)) eqn:E; [|reflexivity].
  apply FloatOne.eqb_one in E. rewrite E. now rewrite FloatOne.mul_one_l.
Qed.

Lemma axpy_unit_get t n alpha x xo y yo q :
  getr (axpy_unit t n alpha x xo y yo) q =
  if (yo <=? q) && (q <? yo + n) && (0 <=? q) && (q <? Z.of_nat (length y))
  then add t (getr y q) (axpy_term t alpha (getr x (xo + (q - yo))))
  else getr y q.
Proof.
  unfold axpy_unit, getr.
  apply (slice_update_get zero
           (fun j v => add t v (axpy_term t alpha (get zero x (xo + j))))).
Qed.

Lemma axpy_unit_length t n alpha x xo y yo :
  length (axpy_unit t n alpha x xo y yo) = length y.
Proof.
  unfold axpy_unit, getr.
  apply (slice_update_length zero
           (fun j v => add t v (axpy_term t alpha (get zero x (xo + j))))).
Qed.

(** ** The rows of accumulate mode *)

Section AccumulateRow.
Variable t : real_t.
Variables (n : Z) (indptr indices : list Z) (values : list real).
Variables (B : list real) (ldb ldc : Z).

Lemma drm_row_unit row C :
  drm_row t n indptr indices values B ldb ldc row C
  = for_loop (geti indptr row) (geti indptr (row + 1)) (fun p C =>
      axpy_unit t n (getr values p) B (geti indices p * ldb) C (row * ldc)) C.
Proof.
  unfold drm_row. apply for_loop_ext. intros p C' _. apply axpy_unit_stride.
Qed.

(** A row rewrites its own slice of the output, each element from its
    own old value, and nothing else. *)
Lemma drm_row_get row C :
  length (drm_row t n indptr indices values B ldb ldc row C) = length C /\
  forall q,
    getr (drm_row t n indptr indices values B ldb ldc row C) q =
    if in_slice n (row * ldc) C q
    then sparse_sum t indptr indices values B ldb row (q - row * ldc) (getr C q)
    else getr C q.
Proof.
  rewrite drm_row_unit. unfold sparse_sum.
  destruct (Z.le_gt_cases (geti indptr (row + 1)) (geti indptr row)) as [Hle|Hlt].
  { rewrite for_loop_empty by lia. split; [reflexivity|].
    intros q. rewrite for_loop_empty by lia. now destruct (in_slice _ _ _ _). }
  apply (for_loop_ind (fun p C' =>
    length C' = length C /\
    forall q, getr C' q =
      if in_slice n (row * ldc) C q
      then for_loop (geti indptr row) p (fun p acc =>
             add t acc (axpy_term t (getr values p)
                          (getr B (geti indices p * ldb + (q - row * ldc)))))
             (getr C q)
      else getr C q)); [lia| |].
  - split; [reflexivity|]. intros q. rewrite for_loop_empty by lia.
    now destruct (in_slice _ _ _ _).
  - intros p C' Hp [Hl Hg]. split; [now rewrite axpy_unit_length|].
    intros q. rewrite axpy_unit_get, Hl, Hg. fold (in_slice n (row * ldc) C q).
    destruct (in_slice n (row * ldc) C q); [|reflexivity].
    rewrite (for_loop_last _ (p + 1)) by lia.
    now replace (p + 1 - 1) with p by lia.
Qed.

(** Two different rows write disjoint slices, so they can run in either
    order. *)
Lemma drm_row_commute i j C :
  n <= ldc -> i <> j ->
  drm_row t n indptr indices values B ldb ldc i
    (drm_row t n indptr indices values B ldb ldc j C)
  = drm_row t n indptr indices values B ldb ldc j
      (drm_row t n indptr indices values B ldb ldc i C).
Proof.
  intros Hn Hij.
  destruct (drm_row_get i C) as [Li Gi].
  destruct (drm_row_get j C) as [Lj Gj].
  destruct (drm_row_get i (drm_row t n indptr indices values B ldb ldc j C))
    as [Lij Gij].
  destruct (drm_row_get j (drm_row t n indptr indices values B ldb ldc i C))
    as [Lji Gji].
  apply (get_ext zero); [congruence|]. intros q.
  fold (getr (drm_row t n indptr indices values B ldb ldc i
                (drm_row t n indptr indices values B ldb ldc j C)) q).
  fold (getr (drm_row t n indptr indices values B ldb ldc j
                (drm_row t n indptr indices values B ldb ldc i C)) q).
  rewrite Gij, Gji, Gi, Gj. unfold in_slice. rewrite Li, Lj.
  destruct (Z.leb_spec (i * ldc) q), (Z.ltb_spec q (i * ldc + n)),
    (Z.leb_spec (j * ldc) q), (Z.ltb_spec q (j * ldc + n));
    simpl; try reflexivity.
  exfalso. nia.
Qed.
End AccumulateRow.

(** ** Accumulate mode against the reference product *)

Section AccumulateMode.
Variable t : real_t.
Variables (m k n : Z) (indptr indices : list Z) (values : list real).
Variables (B : list real) (ldb ldc : Z).
Hypothesis Hvalid : csr_valid m k indptr indices values = true.
Hypothesis HB : Forall (fun b => finite_real t b = true) B.

Let ok := acc_ok (prec t) (emax t).
Let A := csr_entry indptr indices values.

(** The stored entries of a row, added to an accumulator in their order. *)
Let sparse_dot (row j : Z) (acc : real) : real :=
  for_loop (geti indptr row) (geti indptr (row + 1)) (fun p acc =>
    add t acc (mul t (of_double t (getr values p))
                     (getr B (geti indices p * ldb + j)))) acc.

(** All the columns of a row of the dense matrix, added in their order. *)
Let dense_dot (row j : Z) (acc : real) : real :=
  for_loop 0 k (fun c acc =>
    add t acc (mul t (of_double t (A row c)) (getr B (c * ldb + j)))) acc.

Lemma ok_zero : ok zero.
Proof. split; [discriminate|exact I]. Qed.

Lemma ok_add acc x y : ok acc -> ok (add t acc (mul t x y)).
Proof.
  intros H. apply FloatFacts.SFadd_acc_ok; [apply prec_pos|exact H|].
  apply FloatFacts.SFmul_exp_ok.
Qed.

Lemma add_structural_zero acc b :
  ok acc -> is_finite b = true -> add t acc (mul t (of_double t zero) b) = acc.
Proof.
  intros [Hacc _] Hb.
  assert (E : of_double t zero = zero) by (now destruct t). rewrite E.
  destruct (FloatFacts.SFmul_zero_l (prec t) (emax t) false b Hb) as [s Hs].
  unfold mul, zero. rewrite Hs. now apply FloatFacts.SFadd_zero_r.
Qed.

Lemma sparse_dot_ok row j acc : ok acc -> ok (sparse_dot row j acc).
Proof.
  intros H. unfold sparse_dot.
  destruct (Z.le_gt_cases (geti indptr (row + 1)) (geti indptr row)).
  - now rewrite for_loop_empty.
  - apply (for_loop_ind (fun _ a => ok a)); [lia|exact H|].
    intros p a _ Ha. now apply ok_add.
Qed.

(** Walking the columns of a row and its stored entries side by side. *)
Lemma sparse_dense_from row j (Hrow : 0 <= row < m) (steps : nat) :
  forall c0 p0 acc,
    Z.of_nat steps = k - c0 -> 0 <= c0 ->
    geti indptr row <= p0 <= geti indptr (row + 1) ->
    (forall p, geti indptr row <= p < p0 -> geti indices p < c0) ->
    (forall p, p0 <= p < geti indptr (row + 1) -> c0 <= geti indices p) ->
    ok acc ->
    for_loop p0 (geti indptr (row + 1)) (fun p acc =>
      add t acc (mul t (of_double t (getr values p))
                       (getr B (geti indices p * ldb + j)))) acc
    = for_loop c0 k (fun c acc =>
        add t acc (mul t (of_double t (A row c)) (getr B (c * ldb + j)))) acc.
Proof.
  induction steps as [|steps IH]; intros c0 p0 acc Hsteps Hc0 Hp0 Hbefore Hafter Hacc.
  - assert (p0 = geti indptr (row + 1)).
    { destruct (Z.eq_dec p0 (geti indptr (row + 1))) as [|Hne]; [assumption|].
      pose proof (Hafter p0 ltac:(lia)).
      pose proof (csr_index_bounds _ _ _ _ _ Hvalid row p0 Hrow ltac:(lia)). lia. }
    subst p0. now rewrite !for_loop_empty by lia.
  - rewrite (for_loop_first c0 k) by lia.
    destruct (Z.eq_dec p0 (geti indptr (row + 1))) as [Hend|Hmore].
    + (* no entry is left: a structural zero *)
      unfold A. rewrite csr_entry_absent
        by (intros p Hp; specialize (Hbefore p ltac:(lia)); lia).
      rewrite add_structural_zero
        by (assumption || apply (finite_real_get t B _ HB)).
      apply IH; try lia; try assumption.
      intros p Hp. specialize (Hbefore p Hp). lia.
    + destruct (Z.eq_dec (geti indices p0) c0) as [Hhit|Hmiss].
      * (* the next stored entry is in this column *)
        rewrite (for_loop_first p0) by lia.
        unfold A. rewrite <- Hhit at 2.
        rewrite (csr_entry_found _ _ _ _ _ Hvalid row p0 Hrow) by lia.
        rewrite Hhit. apply IH; try lia.
        -- intros p Hp. destruct (Z.eq_dec p p0) as [->|]; [lia|].
           specialize (Hbefore p ltac:(lia)). lia.
        -- intros p Hp.
           pose proof (csr_row_ascending _ _ _ _ _ Hvalid row p0 p Hrow
                         ltac:(lia) ltac:(lia) ltac:(lia)). lia.
        -- now apply ok_add.
      * (* this column has no stored entry *)
        assert (Hgt : forall p, p0 <= p < geti indptr (row + 1) ->
                                c0 < geti indices p).
        { intros p Hp. destruct (Z.eq_dec p p0) as [->|].
          - specialize (Hafter p0 ltac:(lia)). lia.
          - pose proof (csr_row_ascending _ _ _ _ _ Hvalid row p0 p Hrow
                          ltac:(lia) ltac:(lia) ltac:(lia)).
            specialize (Hafter p0 ltac:(lia)). lia. }
        unfold A. rewrite csr_entry_absent.
        2:{ intros p Hp. destruct (Z.lt_ge_cases p p0).
            - specialize (Hbefore p ltac:(lia)). lia.
            - specialize (Hgt p ltac:(lia)). lia. }
        rewrite add_structural_zero
          by (assumption || apply (finite_real_get t B _ HB)).
        apply IH; try lia; try assumption.
        -- intros p Hp. specialize (Hbefore p Hp). lia.
        -- intros p Hp. specialize (Hgt p Hp). lia.
Qed.

Lemma sparse_dense_dot row j acc :
  0 <= row < m -> ok acc -> sparse_dot row j acc = dense_dot row j acc.
Proof.
  intros Hrow Hacc. unfold sparse_dot, dense_dot.
  pose proof (csr_ncols_nonneg _ _ _ _ _ Hvalid) as Hk.
  pose proof (csr_monotone _ _ _ _ _ Hvalid row Hrow).
  apply (sparse_dense_from row j Hrow (Z.to_nat k)); try lia; try assumption.
  intros p Hp.
  pose proof (csr_index_bounds _ _ _ _ _ Hvalid row p Hrow ltac:(lia)). lia.
Qed.
Lemma sparse_sum_dot row j acc :
  sparse_sum t indptr indices values B ldb row j acc
  = sparse_dot row j acc.
Proof.
  unfold sparse_sum, sparse_dot. apply for_loop_ext. intros p a _.
  rewrite axpy_term_mul; [reflexivity|]. apply (finite_real_get t B _ HB).
Qed.

Lemma drm_row_spec row C :
  length (drm_row t n indptr indices values B ldb ldc row C) = length C /\
  forall q,
    getr (drm_row t n indptr indices values B ldb ldc row C) q =
    if in_slice n (row * ldc) C q
    then sparse_dot row (q - row * ldc) (getr C q)
    else getr C q.
Proof.
  destruct (drm_row_get t n indptr indices values B ldb ldc row C) as [Hl Hg].
  split; [assumption|]. intros q. rewrite Hg. now rewrite sparse_sum_dot.
Qed.

(** One row of the reference: the two inner loops. *)
Let reference_row (i : Z) (C : list real) : list real :=
  for_loop 0 n (fun j C =>
    for_loop 0 k (fun c C =>
      set C (i * ldc + j)
        (add t (getr C (i * ldc + j))
               (mul t (of_double t (A i c)) (getr B (c * ldb + j))))) C) C.

Lemma reference_row_spec i C :
  length (reference_row i C) = length C /\
  forall q,
    getr (reference_row i C) q =
    if in_slice n (i * ldc) C q
    then dense_dot i (q - i * ldc) (getr C q)
    else getr C q.
Proof.
  assert (E : reference_row i C =
              for_loop 0 n (fun j C =>
                set C (i * ldc + j)
                  (dense_dot i j
                     (get zero C (i * ldc + j)))) C).
  { unfold reference_row. apply for_loop_ext. intros j C' _.
    apply (inplace_accumulate zero
             (fun c acc => add t acc (mul t (of_double t (A i c))
                                            (getr B (c * ldb + j))))). }
  rewrite E. split.
  - apply (slice_update_length zero
             (fun j v => dense_dot i j v)).
  - intros q. unfold getr, in_slice.
    apply (slice_update_get zero
             (fun j v => dense_dot i j v)).
Qed.

Let all_ok (C : list real) : Prop := forall q, ok (getr C q).

Lemma row_agrees row C :
  0 <= row < m -> all_ok C ->
  drm_row t n indptr indices values B ldb ldc row C = reference_row row C /\
  all_ok (drm_row t n indptr indices values B ldb ldc row C).
Proof.
  intros Hrow HC.
  destruct (drm_row_spec row C) as [Hl Hg].
  destruct (reference_row_spec row C) as [Hl' Hg'].
  split.
  - apply (get_ext zero); [congruence|].
    intros q. fold (getr (drm_row t n indptr indices values B ldb ldc row C) q).
    fold (getr (reference_row row C) q).
    rewrite Hg, Hg'. destruct (in_slice n (row * ldc) C q); [|reflexivity].
    apply sparse_dense_dot;
      [assumption|apply HC].
  - intros q. rewrite Hg. destruct (in_slice n (row * ldc) C q); [|apply HC].
    apply sparse_dot_ok. apply HC.
Qed.

Lemma rows_agree C :
  all_ok C ->
  for_loop 0 m (drm_row t n indptr indices values B ldb ldc) C
  = matmul_reference t m k n A B ldb C ldc.
Proof.
  intros HC. unfold matmul_reference. fold reference_row.
  destruct (Z.le_gt_cases m 0) as [Hm|Hm]; [now rewrite !for_loop_empty by lia|].
  assert (H : for_loop 0 m (drm_row t n indptr indices values B ldb ldc) C
              = for_loop 0 m reference_row C /\
              all_ok (for_loop 0 m (drm_row t n indptr indices values B ldb ldc) C)).
  { apply (for_loop_ind (fun i C' =>
             C' = for_loop 0 i reference_row C /\ all_ok C')); [lia| |].
    - split; [now rewrite for_loop_empty by lia|assumption].
    - intros i C' Hi [-> Hok]. destruct (row_agrees i _ Hi Hok) as [E Hok'].
      split; [|assumption]. rewrite E.
      rewrite (for_loop_last 0 (i + 1)) by lia.
      now replace (i + 1 - 1) with i by lia. }
  apply H.
Qed.

(** The guard at the top of the kernel skips a loop that would do nothing. *)
Lemma guard_skips_nothing C :
  (m <=? 0) || (geti indptr 0 =? geti indptr m) = true ->
  for_loop 0 m (drm_row t n indptr indices values B ldb ldc) C = C.
Proof.
  intros Hg. apply orb_prop in Hg. destruct Hg as [Hm|He].
  - apply Z.leb_le in Hm. now rewrite for_loop_empty by lia.
  - apply Z.eqb_eq in He.
    destruct (Z.le_gt_cases m 0) as [Hm|Hm]; [now rewrite for_loop_empty by lia|].
    apply (for_loop_ind (fun _ C' => C' = C)); [lia|reflexivity|].
    intros i C' Hi ->. unfold drm_row. apply for_loop_empty.
    pose proof (csr_monotone_from _ _ _ _ _ Hvalid 0 i ltac:(lia) ltac:(lia)).
    pose proof (csr_monotone_from _ _ _ _ _ Hvalid (i + 1) m ltac:(lia) ltac:(lia)).
    pose proof (csr_monotone _ _ _ _ _ Hvalid i Hi).
    lia.
Qed.

Lemma gemm_csr_drm_as_drm_reference C nthreads :
  (forall q, acc_ok (prec t) (emax t) (getr C q)) ->
  gemm_csr_drm_as_drm t m n indptr indices values B ldb C ldc nthreads
  = matmul_reference t m k n (csr_entry indptr indices values) B ldb C ldc.
Proof.
  intros HC. rewrite <- rows_agree by assumption.
  unfold gemm_csr_drm_as_drm.
  destruct ((m <=? 0) || (geti indptr 0 =? geti indptr m)) eqn:Hg; [|reflexivity].
  symmetry. now apply guard_skips_nothing.
Qed.
End AccumulateMode.

Lemma zeros_ok t len q : acc_ok (prec t) (emax t) (getr (repeat zero len) q).
Proof.
  destruct (Z.lt_ge_cases q 0) as [Hneg|Hnn];
    [unfold getr; rewrite get_outside by lia; apply ok_zero|].
  destruct (Z.lt_ge_cases q (Z.of_nat len)) as [Hin|Hout].
  - unfold getr. rewrite get_repeat by lia. apply ok_zero.
  - unfold getr. rewrite get_outside by (rewrite repeat_length; lia). apply ok_zero.
Qed.

(** C1 (as the code has it).  For a valid compressed matrix [A] with [k]
    columns and a row-major [B] of finite numbers, [gemm_csr_drm_as_drm]
    run on a zeroed output returns exactly what the triple nested loop over
    the dense [A] returns, in either precision; and the matrix
    [indptr = [0,2,2,3]], [indices = [0,1,2]], [values = [1,2,3]] times the
    3x3 identity is [[1,2,0],[0,0,0],[0,0,3]]. *)
Theorem gemm_csr_drm_as_drm_correct :
  (forall (t : real_t) (m k n : Z) (indptr indices : list Z) (values : list real)
          (B : list real) (ldb ldc : Z) (len : nat) (nthreads : Z),
      csr_valid m k indptr indices values = true ->
      Forall (fun b => finite_real t b = true) B ->
      gemm_csr_drm_as_drm t m n indptr indices values B ldb (repeat zero len) ldc nthreads
      = matmul_reference t m k n (csr_entry indptr indices values) B ldb
          (repeat zero len) ldc) /\
  (forall (t : real_t) (nthreads : Z),
      gemm_csr_drm_as_drm t 3 3 [0; 2; 2; 3] [0; 1; 2] [of_int 1; of_int 2; of_int 3]
        (identity3 t) 3 (repeat zero 9) 3 nthreads
      = map (fun z => of_double t (of_int z)) [1; 2; 0; 0; 0; 0; 0; 0; 3]).
Proof.
  split.
  - intros t m k n indptr indices values B ldb ldc len nthreads Hvalid HB.
    apply gemm_csr_drm_as_drm_reference; [assumption|assumption|].
    intros q. apply zeros_ok.
  - intros t nthreads. destruct t; vm_compute; reflexivity.
Qed.

Lemma gemm_csr_drm_as_drm_correct_witness :
  gemm_csr_drm_as_drm double 3 3 [0; 2; 2; 3] [0; 1; 2] [of_int 1; of_int 2; of_int 3]
    (identity3 double) 3 (repeat zero 9) 3 4
  = matmul_reference double 3 3 3
      (csr_entry [0; 2; 2; 3] [0; 1; 2] [of_int 1; of_int 2; of_int 3])
      (identity3 double) 3 (repeat zero 9) 3.
Proof.
  apply (proj1 gemm_csr_drm_as_drm_correct double 3 3 3 [0; 2; 2; 3] [0; 1; 2]
           [of_int 1; of_int 2; of_int 3] (identity3 double) 3 3 9%nat 4).
  - reflexivity.
  - repeat constructor.
Defined.

(** C1 (as the spec states it) fails for a dense matrix with an infinite
    entry: the kernel skips the columns without a stored entry, the
    reference multiplies them by zero.  Here [A = [[1, 0]]] and
    [B = [[1], [inf]]]. *)
Lemma gemm_csr_drm_as_drm_skips_infinity :
  csr_valid 1 2 [0; 1] [0] [of_int 1] = true /\
  gemm_csr_drm_as_drm double 1 1 [0; 1] [0] [of_int 1] [of_int 1; infinity] 1
    (repeat zero 1) 1 1 = [of_int 1] /\
  matmul_reference double 1 2 1 (csr_entry [0; 1] [0] [of_int 1])
    [of_int 1; infinity] 1 (repeat zero 1) 1 = [S754_nan] /\
  gemm_csr_drm_as_drm double 1 1 [0; 1] [0] [of_int 1] [of_int 1; infinity] 1
    (repeat zero 1) 1 1
  <> matmul_reference double 1 2 1 (csr_entry [0; 1] [0] [of_int 1])
       [of_int 1; infinity] 1 (repeat zero 1) 1.
Proof.
  split; [reflexivity|]. split; [vm_compute; reflexivity|].
  split; [vm_compute; reflexivity|]. vm_compute. discriminate.
Qed.

(** ** Independence of the schedule *)

Section Schedules.
Context {S : Type}.
Variable body : Z -> S -> S.
Hypothesis body_commute : forall i j s, i <> j -> body i (body j s) = body j (body i s).

Lemma fold_rows_permutation (l l' : list Z) :
  Permutation l l' ->
  forall s, fold_left (fun s i => body i s) l s = fold_left (fun s i => body i s) l' s.
Proof.
  induction 1 as [|x l l' _ IH|x y l|l l' l'' _ IH1 _ IH2]; intros s; simpl.
  - reflexivity.
  - apply IH.
  - destruct (Z.eq_dec x y) as [->|Hne]; [reflexivity|].
    now rewrite body_commute.
  - now rewrite IH1.
Qed.

(** A parallel loop under any schedule does what the sequential loop does. *)
Lemma omp_for_sequential nthreads lo hi sched s :
  dynamic_schedule nthreads lo hi sched ->
  omp_for sched body s = for_loop lo hi body s.
Proof.
  intros [Hperm _]. rewrite for_loop_fold.
  rewrite <- (fold_rows_permutation _ _ Hperm).
  unfold omp_for. generalize s. clear Hperm.
  induction sched as [|ti sched IH]; intros s'; simpl; auto.
Qed.
End Schedules.

Lemma svec_body_commute X_csr_indptr X_csr_indices X_csr_values y_indices_base1 y_values :
  let body := fun row out =>
    option_bind out (fun out =>
    option_bind (svec_row X_csr_indptr X_csr_indices X_csr_values
                   y_indices_base1 y_values row (getr out row)) (fun v =>
    Some (set out row v))) in
  forall i j s, i <> j -> body i (body j s) = body j (body i s).
Proof.
  intros body i j [out|] Hij; [|reflexivity]. unfold body. simpl.
  destruct (svec_row _ _ _ _ _ j (getr out j)) as [vj|] eqn:Ej;
    destruct (svec_row _ _ _ _ _ i (getr out i)) as [vi|] eqn:Ei; simpl;
    unfold getr; rewrite ?get_set_other by congruence;
    fold (getr out i); fold (getr out j); rewrite ?Ei, ?Ej; simpl; try reflexivity.
  now rewrite (set_comm zero) by congruence.
Qed.

(** ** Rows without entries in materialize mode *)

Lemma for_loopM_ind {S : Type} (P : Z -> S -> Prop) lo hi
    (body : Z -> S -> result S) s s' :
  lo <= hi -> P lo s ->
  (forall i s s', lo <= i < hi -> P i s -> body i s = Ok s' -> P (i + 1) s') ->
  for_loopM lo hi body s = Ok s' -> P hi s'.
Proof.
  intros Hle H0 Hstep. unfold for_loopM.
  assert (H : forall r, for_loop lo hi (fun i r => bind r (body i)) (Ok s) = Ok r -> P hi r).
  { apply (for_loop_ind (fun i r => forall r', r = Ok r' -> P i r')); [lia| |].
    - intros r' E. injection E as <-. exact H0.
    - intros i [st|] Hi IH r' E; simpl in E; [|discriminate].
      apply (Hstep i st r' Hi); [now apply IH|assumption]. }
  apply H.
Qed.

Lemma stride_distinct a b j j' ld :
  0 <= a < ld -> 0 <= b < ld -> a <> b -> a + j * ld <> b + j' * ld.
Proof.
  intros Ha Hb Hne E. apply Hne.
  rewrite <- (Z.mod_small a ld), <- (Z.mod_small b ld) by assumption.
  rewrite <- (Z_mod_plus_full a j ld), <- (Z_mod_plus_full b j' ld). now rewrite E.
Qed.

(** A strided copy leaves every position that is not one of its targets. *)
Lemma tcopy_other t n x xo incx y yo incy q :
  (forall j, 0 <= j < n -> q <> yo + j * incy) ->
  getr (tcopy t n x xo incx y yo incy) q = getr y q.
Proof.
  intros Hq.
  assert (E : tcopy t n x xo incx y yo incy
              = for_loop 0 n (fun i y => set y (yo + i * incy) (getr x (xo + i * incx))) y)
    by (now destruct t).
  rewrite E. destruct (Z.le_gt_cases n 0) as [Hn|Hn]; [now rewrite for_loop_empty by lia|].
  apply (for_loop_ind (fun _ y' => getr y' q = getr y q)); [lia|reflexivity|].
  intros i y' Hi IH. unfold getr in *. rewrite get_set_other; [assumption|].
  intros E'. now apply (Hq i).
Qed.

Section EmptyRows.
Variable uninit : real.
Variable t : real_t.
Variables (m n : Z) (indptr indices : list Z) (values : list real).
Variables (DenseMat : list real) (ldb ldc : Z).

Lemma dcm_row_empty row st :
  geti indptr (row + 1) <= geti indptr row ->
  dcm_row uninit t n indptr indices values DenseMat ldb ldc row st = Ok st.
Proof.
  intros H. unfold dcm_row.
  destruct (Z.ltb_spec (geti indptr row) (geti indptr (row + 1))); [lia|reflexivity].
Qed.

(** A row either leaves the output alone or copies into its own targets. *)
Lemma dcm_row_output row st st' :
  dcm_row uninit t n indptr indices values DenseMat ldb ldc row st = Ok st' ->
  dcm_OutputMat st' = dcm_OutputMat st \/
  exists buf, dcm_OutputMat st' = tcopy t n buf 0 1 (dcm_OutputMat st) row ldc.
Proof.
  unfold dcm_row.
  destruct (geti indptr row <? geti indptr (row + 1)).
  - destruct (memset_zero _ ldb) as [b1|]; simpl; [|discriminate].
    destruct (for_loopM _ _ _ b1) as [b2|]; simpl; [|discriminate].
    unfold checked. destruct (in_bounds n b2); simpl; [|discriminate].
    intros E. injection E as <-. right. now exists b2.
  - intros E. injection E as <-. now left.
Qed.

Lemma dcm_empty_row_untouched OutputMat nthreads out r j :
  0 <= r < m -> m <= ldc ->
  geti indptr (r + 1) <= geti indptr r ->
  gemm_csr_drm_as_dcm uninit t m n indptr indices values DenseMat ldb OutputMat ldc
    nthreads = Ok out ->
  getr out (r + j * ldc) = getr OutputMat (r + j * ldc).
Proof.
  intros Hr Hm Hempty. unfold gemm_csr_drm_as_dcm.
  destruct ((m <=? 0) || (geti indptr 0 =? geti indptr m));
    [intros E; now injection E as <-|].
  cbv zeta.
  destruct (for_loopM 0 m _ _) as [st|] eqn:E; simpl; [|discriminate].
  intros E'. injection E' as <-.
  apply (for_loopM_ind
           (fun _ st => getr (dcm_OutputMat st) (r + j * ldc)
                        = getr OutputMat (r + j * ldc))) in E;
    [assumption|lia|reflexivity|].
  intros i s s' Hi IH Hstep.
  destruct (Z.eq_dec i r) as [->|Hne].
  - rewrite dcm_row_empty in Hstep by assumption. now injection Hstep as <-.
  - destruct (dcm_row_output i s s' Hstep) as [->|[buf ->]]; [assumption|].
    rewrite tcopy_other; [assumption|]. intros j' Hj'.
    apply stride_distinct; lia.
Qed.
End EmptyRows.

(** C6.  In materialize mode a row without entries leaves the whole state
    as it is (the output is not written, the scratch buffer is neither
    allocated, cleared nor copied), and its positions in the column-major
    output still hold what they held before the call; for a matrix with no
    rows or no stored entries both kernels return the output they were given. *)
Theorem empty_rows_leave_output :
  (forall (uninit : real) (t : real_t) (n : Z) (indptr indices : list Z)
          (values DenseMat : list real) (ldb ldc row : Z) (st : dcm_state),
      geti indptr (row + 1) <= geti indptr row ->
      dcm_row uninit t n indptr indices values DenseMat ldb ldc row st = Ok st) /\
  (forall (uninit : real) (t : real_t) (m n : Z) (indptr indices : list Z)
          (values DenseMat : list real) (ldb ldc : Z) (OutputMat out : list real)
          (nthreads r j : Z),
      0 <= r < m -> m <= ldc ->
      geti indptr (r + 1) <= geti indptr r ->
      gemm_csr_drm_as_dcm uninit t m n indptr indices values DenseMat ldb OutputMat ldc
        nthreads = Ok out ->
      getr out (r + j * ldc) = getr OutputMat (r + j * ldc)) /\
  (forall (uninit : real) (t : real_t) (m k n : Z) (indptr indices : list Z)
          (values DenseMat : list real) (ldb ldc : Z) (OutputMat : list real)
          (nthreads : Z),
      csr_valid m k indptr indices values = true ->
      m = 0 \/ indices = [] ->
      gemm_csr_drm_as_dcm uninit t m n indptr indices values DenseMat ldb OutputMat ldc
        nthreads = Ok OutputMat /\
      gemm_csr_drm_as_drm t m n indptr indices values DenseMat ldb OutputMat ldc
        nthreads = OutputMat).
Proof.
  split; [|split].
  - intros. now apply dcm_row_empty.
  - intros uninit t m n indptr indices values DenseMat ldb ldc OutputMat out
      nthreads r j Hr Hm Hempty Hrun.
    now apply (dcm_empty_row_untouched uninit t m n indptr indices values DenseMat
                 ldb ldc OutputMat nthreads out r j).
  - intros uninit t m k n indptr indices values DenseMat ldb ldc OutputMat nthreads
      Hvalid Hnone.
    assert (Hg : (m <=? 0) || (geti indptr 0 =? geti indptr m) = true).
    { destruct Hnone as [->| ->]; [reflexivity|].
      destruct (csr_parts _ _ _ _ _ Hvalid) as (_ & _ & H0 & Hm & _).
      rewrite H0, Hm. simpl. apply Bool.orb_true_r. }
    unfold gemm_csr_drm_as_dcm, gemm_csr_drm_as_drm. now rewrite Hg.
Qed.

Lemma empty_rows_leave_output_witness :
  exists out,
    gemm_csr_drm_as_dcm S754_nan double 3 3 [0; 2; 2; 3] [0; 1; 2]
      [of_int 1; of_int 2; of_int 3] (identity3 double) 3 (repeat zero 9) 3 1 = Ok out /\
    getr out (1 + 2 * 3) = getr (repeat zero 9) (1 + 2 * 3).
Proof.
  eexists. split; [vm_compute; reflexivity|].
  apply (proj1 (proj2 empty_rows_leave_output) S754_nan double 3 3 [0; 2; 2; 3]
           [0; 1; 2] [of_int 1; of_int 2; of_int 3] (identity3 double) 3 3
           (repeat zero 9) _ 1 1 2);
    [lia|lia|apply Z.leb_le; reflexivity|vm_compute; reflexivity].
Defined.

(** ** Only the first stored value of a row is read *)

Lemma colvec_first_value t colvec indptr indices values values' :
  (forall ix, 0 <= ix < Z.of_nat (length indptr) - 1 ->
              geti indptr ix < geti indptr (ix + 1) ->
              getr values (geti indptr ix) = getr values' (geti indptr ix)) ->
  matmul_colvec_by_scolvecascsr_template t colvec indptr indices values
  = matmul_colvec_by_scolvecascsr_template t colvec indptr indices values'.
Proof.
  intros H. unfold matmul_colvec_by_scolvecascsr_template.
  rewrite (for_loop_ext 0 _ (colvec_row t colvec indptr values)
             (colvec_row t colvec indptr values')); [reflexivity|].
  intros ix st Hix. unfold colvec_row.
  destruct (Z.ltb_spec (geti indptr ix) (geti indptr (ix + 1))); [|reflexivity].
  now rewrite H.
Qed.

Lemma spcolvec_first_value X_csr_indptr X_csr_indices X_csr_values X_csr_values'
    y_indices_base1 y_values y_length :
  (forall row, 0 <= row < Z.of_nat (length X_csr_indptr) - 1 ->
               geti X_csr_indptr row < geti X_csr_indptr (row + 1) ->
               getr X_csr_values (geti X_csr_indptr row)
               = getr X_csr_values' (geti X_csr_indptr row)) ->
  matmul_spcolvec_by_scolvecascsr X_csr_indptr X_csr_indices X_csr_values
    y_indices_base1 y_values y_length
  = matmul_spcolvec_by_scolvecascsr X_csr_indptr X_csr_indices X_csr_values'
      y_indices_base1 y_values y_length.
Proof.
  intros H. unfold matmul_spcolvec_by_scolvecascsr.
  rewrite (for_loop_ext 0 _
             (spcolvec_col X_csr_indptr X_csr_values y_indices_base1 y_values)
             (spcolvec_col X_csr_indptr X_csr_values' y_indices_base1 y_values));
    [reflexivity|].
  intros ix st Hix. unfold spcolvec_col.
  rewrite (for_loop_ext 0 _ _
    (fun row '(out_csc_indices, out_csc_values, ncurr) =>
      if geti X_csr_indptr row <? geti X_csr_indptr (row + 1) then
        (out_csc_indices ++ [row],
         out_csc_values ++
           [spcolvec_value y_values (geti y_indices_base1 ix - 1)
              (getr X_csr_values' (geti X_csr_indptr row))],
         ncurr + 1)
      else (out_csc_indices, out_csc_values, ncurr))); [reflexivity|].
  intros row [[a b] c] Hrow.
  destruct (Z.ltb_spec (geti X_csr_indptr row) (geti X_csr_indptr (row + 1)));
    [|reflexivity].
  now rewrite H.
Qed.

(** C10.  The two broadcast kernels read, of every row with entries, only
    the value stored first: two value arrays that agree there give the same
    result, so the later values of a row never reach the output.  With the
    row [[2, 5]] (two stored values) and the vector [[1, 1]] the outer
    product holds [2, 2]: the weight is 2, not 2 + 5. *)
Theorem broadcast_reads_first_value_only :
  (forall (t : real_t) (colvec : list real) (indptr indices : list Z)
          (values values' : list real),
      (forall ix, 0 <= ix < Z.of_nat (length indptr) - 1 ->
                  geti indptr ix < geti indptr (ix + 1) ->
                  getr values (geti indptr ix) = getr values' (geti indptr ix)) ->
      matmul_colvec_by_scolvecascsr_template t colvec indptr indices values
      = matmul_colvec_by_scolvecascsr_template t colvec indptr indices values') /\
  (forall (X_csr_indptr X_csr_indices : list Z) (X_csr_values X_csr_values' : list real)
          (y_indices_base1 : list Z) (y_values : spcolvec_values) (y_length : Z),
      (forall row, 0 <= row < Z.of_nat (length X_csr_indptr) - 1 ->
                   geti X_csr_indptr row < geti X_csr_indptr (row + 1) ->
                   getr X_csr_values (geti X_csr_indptr row)
                   = getr X_csr_values' (geti X_csr_indptr row)) ->
      matmul_spcolvec_by_scolvecascsr X_csr_indptr X_csr_indices X_csr_values
        y_indices_base1 y_values y_length
      = matmul_spcolvec_by_scolvecascsr X_csr_indptr X_csr_indices X_csr_values'
          y_indices_base1 y_values y_length) /\
  sl_values (matmul_colvec_by_scolvecascsr_template double [of_int 1; of_int 1]
               [0; 2] [0; 0] [of_int 2; of_int 5])
  = [of_int 2; of_int 2; zero; zero] /\
  sl_values (matmul_spcolvec_by_scolvecascsr [0; 2] [0; 0] [of_int 2; of_int 5]
               [1] (PNumeric [of_int 1]) 1)
  = [of_int 2].
Proof.
  split; [|split; [|split]].
  - intros. now apply colvec_first_value.
  - intros. now apply spcolvec_first_value.
  - vm_compute. reflexivity.
  - vm_compute. reflexivity.
Qed.

Lemma broadcast_reads_first_value_only_witness :
  matmul_colvec_by_scolvecascsr_template double [of_int 1; of_int 1]
    [0; 2] [0; 0] [of_int 2; of_int 5]
  = matmul_colvec_by_scolvecascsr_template double [of_int 1; of_int 1]
      [0; 2] [0; 0] [of_int 2; of_int 7].
Proof.
  apply (proj1 broadcast_reads_first_value_only double [of_int 1; of_int 1]
           [0; 2] [0; 0] [of_int 2; of_int 5] [of_int 2; of_int 7]).
  intros ix Hix _. simpl in Hix. assert (ix = 0) by lia. subst ix. reflexivity.
Defined.

(** ** Bisection *)

Section LowerBound.
Variable a : list Z.
Variable val : Z.

(** On a range that does not descend, [lower_bound] returns the position
    that separates the elements below [val] from the others. *)
Lemma lower_bound_loop_spec (fuel : nat) : forall first len,
  0 <= len -> (Z.to_nat len <= fuel)%nat ->
  (forall i j, first <= i -> i <= j -> j < first + len -> geti a i <= geti a j) ->
  let r := lower_bound_loop fuel a first len val in
  first <= r <= first + len /\
  (forall i, first <= i < r -> geti a i < val) /\
  (forall i, r <= i < first + len -> val <= geti a i).
Proof.
  induction fuel as [|fuel IH]; intros first len Hlen Hfuel Hsorted; cbv zeta.
  - simpl. assert (len = 0) by lia. subst len. repeat split; intros; lia.
  - cbn [lower_bound_loop].
    destruct (Z.ltb_spec 0 len) as [Hpos|Hzero].
    2:{ assert (len = 0) by lia. subst len. repeat split; intros; lia. }
    assert (Hhalf : 0 <= len / 2 < len)
      by (split; [apply Z.div_pos; lia|apply Z.div_lt; lia]).
    destruct (Z.ltb_spec (geti a (first + len / 2)) val) as [Hlt|Hge].
    + destruct (IH (first + len / 2 + 1) (len - len / 2 - 1)) as (Hr & Hbelow & Habove);
        [lia|lia|intros i j Hi Hij Hj; apply Hsorted; lia|].
      cbv zeta in Hr, Hbelow, Habove.
      repeat split; try lia.
      * intros i Hi. destruct (Z.le_gt_cases i (first + len / 2)) as [Hle|Hgt].
        -- pose proof (Hsorted i (first + len / 2) ltac:(lia) Hle ltac:(lia)). lia.
        -- apply Hbelow. lia.
      * intros i Hi. apply Habove. lia.
    + destruct (IH first (len / 2)) as (Hr & Hbelow & Habove);
        [lia|lia|intros i j Hi Hij Hj; apply Hsorted; lia|].
      cbv zeta in Hr, Hbelow, Habove.
      repeat split; try lia.
      * assumption.
      * intros i Hi. destruct (Z.lt_ge_cases i (first + len / 2)) as [Hin|Hout].
        -- apply Habove. lia.
        -- pose proof (Hsorted (first + len / 2) i ltac:(lia) Hout ltac:(lia)). lia.
Qed.

Lemma lower_bound_spec first last :
  first <= last ->
  (forall i j, first <= i -> i <= j -> j < last -> geti a i <= geti a j) ->
  first <= lower_bound a first last val <= last /\
  (forall i, first <= i < lower_bound a first last val -> geti a i < val) /\
  (forall i, lower_bound a first last val <= i < last -> val <= geti a i).
Proof.
  intros Hle Hsorted. unfold lower_bound.
  pose proof (lower_bound_loop_spec (Z.to_nat (last - first)) first (last - first)
                ltac:(lia) ltac:(lia)) as H.
  cbv zeta in H. replace (first + (last - first)) with last in H by lia.
  apply H. intros i j Hi Hij Hj. apply Hsorted; lia.
Qed.
End LowerBound.

(** ** The merge of a row with a sparse vector *)

Section Merge.
Variables (X_csr_indices : list Z) (X_csr_values : list real).
Variables (y_indices_base1 : list Z) (y_values : sparse_values).
Variables (lo end1 : Z).

Let end_y := Z.of_nat (length y_indices_base1).

Hypothesis X_ascending : forall p p',
  lo <= p -> p < p' -> p' < end1 -> geti X_csr_indices p < geti X_csr_indices p'.
Hypothesis y_ascending : forall q q',
  0 <= q -> q < q' -> q' < end_y -> geti y_indices_base1 q < geti y_indices_base1 q'.

Local Abbreviation matches_of :=
  (matches_of X_csr_indices X_csr_values y_indices_base1 y_values).
Local Abbreviation matches_from :=
  (matches_from X_csr_indices X_csr_values y_indices_base1 y_values end1).

Lemma matches_of_none p acc :
  (forall q, 0 <= q < end_y -> geti X_csr_indices p <> geti y_indices_base1 q - 1) ->
  matches_of p acc = acc.
Proof.
  intros H. unfold matches_of. apply for_loop_id. intros q Hq.
  destruct (Z.eqb_spec (geti X_csr_indices p) (geti y_indices_base1 q - 1));
    [now apply H in Hq|reflexivity].
Qed.

Lemma matches_of_one p q0 acc :
  0 <= q0 < end_y -> geti X_csr_indices p = geti y_indices_base1 q0 - 1 ->
  matches_of p acc = add double acc (svec_term y_values (getr X_csr_values p) q0).
Proof.
  intros Hq0 Hhit. unfold matches_of.
  assert (Hother : forall q, 0 <= q < end_y -> q <> q0 ->
            geti X_csr_indices p <> geti y_indices_base1 q - 1).
  { intros q Hq Hne. destruct (Z.lt_ge_cases q q0).
    - pose proof (y_ascending q q0 ltac:(lia) ltac:(lia) ltac:(lia)). lia.
    - pose proof (y_ascending q0 q ltac:(lia) ltac:(lia) ltac:(lia)). lia. }
  rewrite (for_loop_split 0 (q0 + 1) end_y) by lia.
  rewrite (for_loop_last 0 (q0 + 1)) by lia.
  replace (q0 + 1 - 1) with q0 by lia.
  rewrite (for_loop_id 0 q0).
  2:{ intros q Hq. destruct (Z.eqb_spec (geti X_csr_indices p)
                               (geti y_indices_base1 q - 1)) as [E|]; [|reflexivity].
      exfalso. apply (Hother q); [lia|lia|assumption]. }
  rewrite Hhit at 1. rewrite Z.eqb_refl.
  apply for_loop_id. intros q Hq.
  destruct (Z.eqb_spec (geti X_csr_indices p) (geti y_indices_base1 q - 1)) as [E|];
    [|reflexivity].
  exfalso. apply (Hother q); [lia|lia|assumption].
Qed.

Lemma matches_from_skip p0 p1 acc :
  p0 <= p1 <= end1 ->
  (forall p, p0 <= p < p1 -> matches_of p acc = acc) ->
  matches_from p0 acc = matches_from p1 acc.
Proof.
  intros Hp H. unfold matches_from.
  rewrite (for_loop_split p0 p1 end1) by lia. f_equal.
  now apply for_loop_id.
Qed.

(** The loop of a row returns the reference sum of the entries that are
    left, provided no entry of the vector before [ptr2] can match them. *)
Lemma svec_loop_spec (fuel : nat) : forall ptr1 ptr2 acc,
  lo <= ptr1 -> 0 <= ptr2 ->
  (Z.to_nat (end1 - ptr1) + Z.to_nat (end_y - ptr2) < fuel)%nat ->
  (forall q p, 0 <= q < ptr2 -> q < end_y -> ptr1 <= p < end1 ->
               geti y_indices_base1 q - 1 < geti X_csr_indices p) ->
  svec_loop fuel X_csr_indices X_csr_values y_indices_base1 y_values
    end1 end_y ptr1 ptr2 acc = Some (matches_from ptr1 acc).
Proof.
  induction fuel as [|fuel IH]; intros ptr1 ptr2 acc Hp1 Hp2 Hfuel Hinv; [lia|].
  cbn [svec_loop].
  destruct (Z.geb_spec ptr1 end1) as [Hend1|Hmore1].
  { simpl. unfold matches_from. now rewrite for_loop_empty by lia. }
  destruct (Z.geb_spec ptr2 end_y) as [Hend2|Hmore2].
  { simpl. f_equal. symmetry. unfold matches_from. apply for_loop_id.
    intros p Hp. apply matches_of_none. intros q Hq E.
    pose proof (Hinv q p ltac:(lia) ltac:(lia) ltac:(lia)). lia. }
  cbn [orb].
  destruct (Z.eqb_spec (geti X_csr_indices ptr1) (geti y_indices_base1 ptr2 - 1))
    as [Hhit|Hmiss].
  - (* matching indices: accumulate, advance both *)
    rewrite IH; try lia.
    + f_equal. unfold matches_from. rewrite (for_loop_first ptr1 end1) by lia.
      now rewrite (matches_of_one ptr1 ptr2) by (assumption || lia).
    + intros q p Hq Hq' Hp. destruct (Z.eq_dec q ptr2) as [->|Hne].
      * rewrite <- Hhit. apply X_ascending; lia.
      * apply Hinv; lia.
  - destruct (Z.gtb_spec (geti y_indices_base1 ptr2 - 1) (geti X_csr_indices ptr1))
      as [Hgt|Hle].
    + (* the row is behind: skip its entries below the index of the vector *)
      destruct (lower_bound_spec X_csr_indices (geti y_indices_base1 ptr2 - 1)
                  ptr1 end1 ltac:(lia)) as (Hr & Hbelow & Habove).
      { intros i j Hi Hij Hj. destruct (Z.eq_dec i j) as [->|]; [lia|].
        pose proof (X_ascending i j ltac:(lia) ltac:(lia) ltac:(lia)). lia. }
      set (r := lower_bound X_csr_indices ptr1 end1 (geti y_indices_base1 ptr2 - 1))
        in *.
      assert (Hadv : ptr1 < r).
      { destruct (Z.lt_ge_cases ptr1 r); [assumption|].
        pose proof (Habove ptr1 ltac:(lia)). lia. }
      rewrite IH; try lia.
      * f_equal. symmetry. apply matches_from_skip; [lia|].
        intros p Hp. apply matches_of_none. intros q Hq E.
        pose proof (Hbelow p ltac:(lia)) as Hb.
        destruct (Z.lt_ge_cases q ptr2) as [Hbefore|Hafter].
        -- pose proof (Hinv q p ltac:(lia) ltac:(lia) ltac:(lia)). lia.
        -- destruct (Z.eq_dec q ptr2) as [->|]; [lia|].
           pose proof (y_ascending ptr2 q ltac:(lia) ltac:(lia) ltac:(lia)). lia.
      * intros q p Hq Hq' Hp. apply Hinv; lia.
    + (* the vector is behind: skip its entries below the index of the row *)
      destruct (lower_bound_spec y_indices_base1 (geti X_csr_indices ptr1 + 1)
                  ptr2 end_y ltac:(lia)) as (Hr & Hbelow & Habove).
      { intros i j Hi Hij Hj. destruct (Z.eq_dec i j) as [->|]; [lia|].
        pose proof (y_ascending i j ltac:(lia) ltac:(lia) ltac:(lia)). lia. }
      set (r := lower_bound y_indices_base1 ptr2 end_y (geti X_csr_indices ptr1 + 1))
        in *.
      assert (Hadv : ptr2 < r).
      { destruct (Z.lt_ge_cases ptr2 r); [assumption|].
        pose proof (Habove ptr2 ltac:(lia)). lia. }
      rewrite IH; try lia; [reflexivity|].
      intros q p Hq Hq' Hp. destruct (Z.lt_ge_cases q ptr2) as [Hbefore|Hafter].
      * apply Hinv; lia.
      * pose proof (Hbelow q ltac:(lia)).
        destruct (Z.eq_dec p ptr1) as [->|]; [lia|].
        pose proof (X_ascending ptr1 p ltac:(lia) ltac:(lia) ltac:(lia)). lia.
Qed.
End Merge.

Lemma adjacent_ascending (a : list Z) lo hi :
  (forall q, lo <= q -> q + 1 < hi -> geti a q < geti a (q + 1)) ->
  forall q q', lo <= q -> q < q' -> q' < hi -> geti a q < geti a q'.
Proof.
  intros H q q' Hlo Hlt Hhi.
  replace q' with (q + 1 + Z.of_nat (Z.to_nat (q' - q - 1))) in * by lia.
  induction (Z.to_nat (q' - q - 1)) as [|k IH].
  - rewrite Z.add_0_r in *. apply H; lia.
  - etransitivity; [apply IH; lia|].
    replace (q + 1 + Z.of_nat (S k)) with (q + 1 + Z.of_nat k + 1) by lia.
    apply H; lia.
Qed.

Lemma ascending_spec (a : list Z) :
  ascending a = true ->
  forall q q', 0 <= q -> q < q' -> q' < Z.of_nat (length a) -> geti a q < geti a q'.
Proof.
  intros H. apply adjacent_ascending. intros q Hq Hq'.
  unfold ascending in H. rewrite forallb_forall in H.
  apply Z.ltb_lt. apply H. apply in_range. lia.
Qed.

Section SparseVector.
Variables (m k : Z) (X_csr_indptr X_csr_indices : list Z) (X_csr_values : list real).
Variables (y_indices_base1 : list Z) (y_values : sparse_values).
Hypothesis X_valid : csr_valid m k X_csr_indptr X_csr_indices X_csr_values = true.
Hypothesis y_valid : ascending y_indices_base1 = true.

Lemma svec_row_reference row (Hrow : 0 <= row < m) :
  svec_row X_csr_indptr X_csr_indices X_csr_values y_indices_base1 y_values row zero
  = Some (svec_dot_reference X_csr_indptr X_csr_indices X_csr_values
            y_indices_base1 y_values row).
Proof.
  unfold svec_row. cbv zeta.
  rewrite (svec_loop_spec X_csr_indices X_csr_values y_indices_base1 y_values
             (geti X_csr_indptr row) (geti X_csr_indptr (row + 1))).
  - reflexivity.
  - intros p p' Hp Hlt Hp'.
    apply (csr_row_ascending _ _ _ _ _ X_valid row); assumption.
  - now apply ascending_spec.
  - lia.
  - lia.
  - unfold svec_fuel. lia.
  - intros q p Hq. lia.
Qed.

Lemma svec_reference_no_entries row :
  y_indices_base1 = [] ->
  svec_dot_reference X_csr_indptr X_csr_indices X_csr_values
    y_indices_base1 y_values row = zero.
Proof.
  intros ->. unfold svec_dot_reference, matches_from. apply for_loop_id. intros p _.
  unfold matches_of. now rewrite for_loop_empty by (simpl; lia).
Qed.

Lemma matmul_csr_svec_rows nthreads :
  exists out,
    matmul_csr_svec X_csr_indptr X_csr_indices X_csr_values
      y_indices_base1 y_values nthreads = Some out /\
    Z.of_nat (length out) = m /\
    forall row, 0 <= row < m ->
      getr out row = svec_dot_reference X_csr_indptr X_csr_indices X_csr_values
                       y_indices_base1 y_values row.
Proof.
  destruct (csr_parts _ _ _ _ _ X_valid) as (_ & Hlen & _).
  unfold matmul_csr_svec. rewrite Hlen.
  replace (m + 1 - 1) with m by lia. rewrite repeat_length.
  pose proof (csr_nrows_nonneg _ _ _ _ _ X_valid) as Hm.
  destruct (Z.eqb_spec (Z.of_nat (length y_indices_base1)) 0) as [Hy|Hy].
  - exists (repeat zero (Z.to_nat m)). split; [reflexivity|].
    split; [rewrite repeat_length; lia|].
    intros row Hrow. unfold getr. rewrite get_repeat by lia.
    symmetry. apply svec_reference_no_entries.
    destruct y_indices_base1; [reflexivity|simpl in Hy; lia].
  - destruct (Z.le_gt_cases m 0) as [Hle|Hpos].
    { rewrite for_loop_empty by lia. eexists. split; [reflexivity|].
      split; [rewrite repeat_length; lia|]. intros; lia. }
    replace (Z.of_nat (Z.to_nat m)) with m by lia.
    match goal with
    | |- exists out, ?L = Some out /\ _ =>
        assert (H : exists out, L = Some out /\ Z.of_nat (length out) = m /\
                  (forall row, 0 <= row < m ->
                     getr out row = svec_dot_reference X_csr_indptr X_csr_indices
                                      X_csr_values y_indices_base1 y_values row) /\
                  (forall row, m <= row -> getr out row = zero))
    end.
    { apply (for_loop_ind (fun i r =>
        exists out, r = Some out /\ Z.of_nat (length out) = m /\
          (forall row, 0 <= row < i ->
             getr out row = svec_dot_reference X_csr_indptr X_csr_indices X_csr_values
                              y_indices_base1 y_values row) /\
          (forall row, i <= row -> getr out row = zero))); [lia| |].
      - exists (repeat zero (Z.to_nat m)). split; [reflexivity|].
        split; [rewrite repeat_length; lia|]. split; [intros; lia|].
        intros row Hrow. unfold getr.
        destruct (Z.lt_ge_cases row m);
          [now rewrite get_repeat by lia|
           now rewrite get_outside by (rewrite repeat_length; lia)].
      - intros i r Hi (out & -> & Hl & Hdone & Hrest). simpl.
        rewrite (Hrest i) by lia. rewrite svec_row_reference by assumption. simpl.
        eexists. split; [reflexivity|]. split; [now rewrite length_set|]. split.
        + intros row Hrow. unfold getr. destruct (Z.eq_dec i row) as [->|Hne].
          * now rewrite get_set_same by lia.
          * rewrite get_set_other by assumption. apply Hdone. lia.
        + intros row Hrow. unfold getr. rewrite get_set_other by lia.
          apply Hrest. lia. }
    destruct H as (out & E & Hl & Hdone & _). exists out. auto.
Qed.
End SparseVector.

(** The term the loop adds for a matched pair is the product of the
    contract. *)
Lemma svec_term_product y_values x q :
  valid double x = true ->
  svec_term y_values x q = pair_product x (svec_value y_values q).
Proof.
  intros Hx. destruct y_values as [y|y|y| |y]; cbn [svec_term svec_value].
  - reflexivity.
  - destruct (geti y q =? NA_INTEGER); reflexivity.
  - destruct (geti y q =? NA_LOGICAL); reflexivity.
  - cbn [pair_product]. symmetry. now apply DoubleOne.mul_double_one_r.
  - reflexivity.
Qed.

Lemma fold_conditional (c : Z -> bool) (f : Z -> real) (l : list Z) : forall acc,
  fold_left (fun acc q => if c q then add double acc (f q) else acc) l acc
  = fold_left (add double) (flat_map (fun q => if c q then [f q] else []) l) acc.
Proof.
  induction l as [|q l IH]; intros acc; [reflexivity|].
  cbn [fold_left flat_map]. rewrite fold_left_app, IH.
  destruct (c q); reflexivity.
Qed.

(** The matches of one stored entry, as the sum of their products. *)
Lemma matches_of_products X_csr_indices X_csr_values y_indices_base1 y_values p acc :
  valid double (getr X_csr_values p) = true ->
  matches_of X_csr_indices X_csr_values y_indices_base1 y_values p acc
  = fold_left (add double)
      (flat_map (fun q =>
         if geti X_csr_indices p =? geti y_indices_base1 q - 1
         then [pair_product (getr X_csr_values p) (svec_value y_values q)]
         else [])
         (range 0 (Z.of_nat (length y_indices_base1)))) acc.
Proof.
  intros Hx. unfold matches_of. rewrite for_loop_fold.
  rewrite (fold_conditional
             (fun q => geti X_csr_indices p =? geti y_indices_base1 q - 1)
             (fun q => svec_term y_values (getr X_csr_values p) q)).
  f_equal. apply flat_map_ext. intros q.
  now rewrite svec_term_product.
Qed.

(** The sum the merge computes is the dot product of the contract. *)
Lemma svec_dot_reference_product X_csr_indptr X_csr_indices X_csr_values
    y_indices_base1 y_values row :
  Forall (fun v => valid double v = true) X_csr_values ->
  svec_dot_reference X_csr_indptr X_csr_indices X_csr_values y_indices_base1 y_values row
  = svec_dot_product X_csr_indptr X_csr_indices X_csr_values y_indices_base1 y_values
      row.
Proof.
  intros HX. unfold svec_dot_reference, svec_dot_product, matches_from, matching_products.
  rewrite for_loop_fold.
  generalize (range (geti X_csr_indptr row) (geti X_csr_indptr (row + 1))).
  generalize zero. intros acc l. revert acc.
  induction l as [|p l IH]; intros acc; [reflexivity|].
  cbn [fold_left flat_map]. rewrite fold_left_app, IH. f_equal.
  apply matches_of_products. now apply valid_get.
Qed.

(** C2.  For a valid compressed matrix of doubles and a sparse vector whose
    one-based indices ascend, [matmul_csr_svec] reaches the end of every row
    and returns, for each row, the sum from zero of the products of exactly
    those pairs of entries whose indices agree once the one-based index is
    decremented (the values of the vector taken as the numbers they stand
    for, one for a vector without values, and a missing entry making its
    product missing); the row with indices [[1,3,5]] and values [[1,1,1]]
    against the vector with one-based indices [[4,6]] and values [[10,20]]
    gives 30, and with values [[2,3,4]] it gives 3*10 + 4*20 = 110. *)
Theorem matmul_csr_svec_correct :
  (forall (m k : Z) (X_csr_indptr X_csr_indices : list Z) (X_csr_values : list real)
          (y_indices_base1 : list Z) (y_values : sparse_values) (nthreads : Z),
      csr_valid m k X_csr_indptr X_csr_indices X_csr_values = true ->
      Forall (fun v => valid double v = true) X_csr_values ->
      ascending y_indices_base1 = true ->
      exists out,
        matmul_csr_svec X_csr_indptr X_csr_indices X_csr_values
          y_indices_base1 y_values nthreads = Some out /\
        Z.of_nat (length out) = m /\
        forall row, 0 <= row < m ->
          getr out row = svec_dot_product X_csr_indptr X_csr_indices X_csr_values
                           y_indices_base1 y_values row) /\
  (forall nthreads,
      matmul_csr_svec [0; 3] [1; 3; 5] [of_int 1; of_int 1; of_int 1]
        [4; 6] (SNumeric [of_int 10; of_int 20]) nthreads = Some [of_int 30]) /\
  (forall nthreads,
      matmul_csr_svec [0; 3] [1; 3; 5] [of_int 2; of_int 3; of_int 4]
        [4; 6] (SNumeric [of_int 10; of_int 20]) nthreads = Some [of_int 110]).
Proof.
  split; [|split].
  - intros m k X_csr_indptr X_csr_indices X_csr_values y_indices_base1 y_values
      nthreads HX Hdoubles Hy.
    destruct (matmul_csr_svec_rows m k X_csr_indptr X_csr_indices X_csr_values
                y_indices_base1 y_values HX Hy nthreads) as (out & E & Hl & Hrows).
    exists out. split; [assumption|]. split; [assumption|].
    intros row Hrow. rewrite Hrows by assumption.
    now apply svec_dot_reference_product.
  - intros nthreads. vm_compute. reflexivity.
  - intros nthreads. vm_compute. reflexivity.
Qed.

Lemma matmul_csr_svec_correct_witness :
  exists out,
    matmul_csr_svec [0; 3] [1; 3; 5] [of_int 2; of_int 3; of_int 4]
      [4; 6] (SNumeric [of_int 10; of_int 20]) 2 = Some out /\
    Z.of_nat (length out) = 1 /\
    forall row, 0 <= row < 1 ->
      getr out row = svec_dot_product [0; 3] [1; 3; 5]
                       [of_int 2; of_int 3; of_int 4] [4; 6]
                       (SNumeric [of_int 10; of_int 20]) row.
Proof.
  apply (proj1 matmul_csr_svec_correct 1 6 [0; 3] [1; 3; 5]
           [of_int 2; of_int 3; of_int 4] [4; 6] (SNumeric [of_int 10; of_int 20]) 2);
    [reflexivity|repeat constructor|reflexivity].
Defined.

(** ** The outer product of a dense vector and a sparse column *)

Lemma getr_repeat_zero n q : getr (repeat zero n) q = zero.
Proof.
  unfold getr. destruct (Z.lt_ge_cases q 0); [now rewrite get_outside by lia|].
  destruct (Z.lt_ge_cases q (Z.of_nat n)); [now rewrite get_repeat by lia|].
  now rewrite get_outside by (rewrite repeat_length; lia).
Qed.

Lemma geti_repeat_zero n q : geti (repeat 0 n) q = 0.
Proof.
  unfold geti. destruct (Z.lt_ge_cases q 0); [now rewrite get_outside by lia|].
  destruct (Z.lt_ge_cases q (Z.of_nat n)); [now rewrite get_repeat by lia|].
  now rewrite get_outside by (rewrite repeat_length; lia).
Qed.

Lemma getr_map_to_double t (l : list real) q :
  getr (map (to_double t) l) q = to_double t (getr l q).
Proof.
  unfold getr, get. destruct (q <? 0); [now destruct t|].
  replace zero with (to_double t zero) at 1 by (now destruct t).
  apply map_nth.
Qed.

(** Adding to [+0.0] returns the other operand, except that [-0.0] becomes
    [+0.0]. *)
Lemma add_zero_l t x :
  add t zero x = x \/ (x = neg_zero /\ add t zero x = zero).
Proof.
  destruct x as [[|]| | |]; simpl; auto.
Qed.

Lemma row_start_first dim indptr : row_start dim indptr 0 = 0.
Proof. reflexivity. Qed.

Lemma row_start_next dim indptr ix :
  0 <= ix -> row_start dim indptr (ix + 1)
             = row_start dim indptr ix + row_count dim indptr ix.
Proof.
  intros H. unfold row_start. rewrite (for_loop_last 0 (ix + 1)) by lia.
  now replace (ix + 1 - 1) with ix by lia.
Qed.

Lemma row_count_bounds dim indptr ix :
  0 <= dim -> 0 <= row_count dim indptr ix <= dim.
Proof. intros H. unfold row_count. destruct (_ <? _); lia. Qed.

Lemma row_start_monotone dim indptr i i' :
  0 <= dim -> 0 <= i <= i' -> row_start dim indptr i <= row_start dim indptr i'.
Proof.
  intros Hd Hi. replace i' with (i + Z.of_nat (Z.to_nat (i' - i))) by lia.
  induction (Z.to_nat (i' - i)) as [|n IH].
  - rewrite Z.add_0_r. lia.
  - replace (i + Z.of_nat (S n)) with (i + Z.of_nat n + 1) by lia.
    rewrite row_start_next by lia.
    pose proof (row_count_bounds dim indptr (i + Z.of_nat n) Hd). lia.
Qed.

(** The loop that turns counts into offsets. *)
Lemma cumulate_spec (c : Z -> Z) (a : list Z) n :
  0 <= n -> Z.of_nat (length a) = n + 1 -> geti a 0 = 0 ->
  (forall i, 0 <= i < n -> geti a (i + 1) = c i) ->
  length (cumulate a n) = length a /\
  forall i, 0 <= i <= n ->
    geti (cumulate a n) i = for_loop 0 i (fun r s => s + c r) 0.
Proof.
  intros Hn Hl H0 Hc. unfold cumulate.
  assert (H : length (for_loop 0 n (fun ix a =>
                set a (ix + 1) (geti a (ix + 1) + geti a ix)) a) = length a /\
              (forall i, 0 <= i <= n ->
                 geti (for_loop 0 n (fun ix a =>
                   set a (ix + 1) (geti a (ix + 1) + geti a ix)) a) i
                 = for_loop 0 i (fun r s => s + c r) 0) /\
              (forall i, n < i ->
                 geti (for_loop 0 n (fun ix a =>
                   set a (ix + 1) (geti a (ix + 1) + geti a ix)) a) i = geti a i)).
  { apply (for_loop_ind (fun ix a' =>
      length a' = length a /\
      (forall i, 0 <= i <= ix -> geti a' i = for_loop 0 i (fun r s => s + c r) 0) /\
      (forall i, ix < i -> geti a' i = geti a i))); [lia| |].
    - split; [reflexivity|]. split; [|reflexivity].
      intros i Hi. assert (i = 0) by lia. subst i. now rewrite for_loop_empty by lia.
    - intros ix a' Hix (Hl' & Hdone & Hrest). split; [now rewrite length_set|]. split.
      + intros i Hi. unfold geti. destruct (Z.eq_dec (ix + 1) i) as [<-|Hne].
        * rewrite get_set_same by lia. fold (geti a' (ix + 1)). fold (geti a' ix).
          rewrite (Hrest (ix + 1)) by lia. rewrite (Hdone ix) by lia.
          rewrite Hc by lia. rewrite (for_loop_last 0 (ix + 1)) by lia.
          replace (ix + 1 - 1) with ix by lia. lia.
        * rewrite get_set_other by assumption. apply Hdone. lia.
      + intros i Hi. unfold geti. rewrite get_set_other by lia. apply Hrest. lia. }
  destruct H as (Hlen & Hdone & _). auto.
Qed.

Section OuterProduct.
Variable t : real_t.
Variables (colvec : list real) (indptr indices : list Z) (values : list real).
Variables (dim2 ncols : Z).
Hypothesis Hvalid : csr_valid dim2 ncols indptr indices values = true.
Hypothesis Hcolvec : Forall (fun v => valid t v = true) colvec.

Local Abbreviation dim := (Z.of_nat (length colvec)).
Local Abbreviation nnz := (Z.of_nat (length indices)).
Local Abbreviation count := (row_count dim indptr).
Local Abbreviation start := (row_start dim indptr).

Local Abbreviation outer_term := (outer_term t colvec indptr values).
Local Abbreviation colvec_inv := (colvec_inv t colvec indptr indices values dim2).

Lemma dim_nonneg : 0 <= dim.
Proof. lia. Qed.

Lemma start_nonneg ix : 0 <= ix -> 0 <= start ix.
Proof.
  intros H. rewrite <- (row_start_first dim indptr).
  apply row_start_monotone; [apply dim_nonneg|lia].
Qed.

(** Every row with entries holds at least one of the stored entries. *)
Lemma start_bound ix : 0 <= ix <= dim2 -> start ix <= dim * geti indptr ix.
Proof.
  intros Hix. replace ix with (Z.of_nat (Z.to_nat ix)) by lia.
  assert (Hk : Z.of_nat (Z.to_nat ix) <= dim2) by lia.
  induction (Z.to_nat ix) as [|n IH].
  - rewrite row_start_first.
    destruct (csr_parts _ _ _ _ _ Hvalid) as (_ & _ & H0 & _).
    simpl. rewrite H0. lia.
  - replace (Z.of_nat (S n)) with (Z.of_nat n + 1) in * by lia.
    rewrite row_start_next by lia.
    specialize (IH ltac:(lia)).
    pose proof (csr_monotone _ _ _ _ _ Hvalid (Z.of_nat n) ltac:(lia)) as Hmono.
    pose proof dim_nonneg as Hd.
    unfold row_count. destruct (Z.ltb_spec (geti indptr (Z.of_nat n))
                                  (geti indptr (Z.of_nat n + 1))); nia.
Qed.

Lemma colvec_inv_init :
  colvec_inv 0 {| cs_indptr := repeat 0 (Z.to_nat (dim2 + 1));
                  cs_indices := repeat 0 (Z.to_nat (nnz * dim));
                  cs_values := repeat zero (Z.to_nat (nnz * dim));
                  cs_ncurr := 0 |}.
Proof.
  pose proof (csr_nrows_nonneg _ _ _ _ _ Hvalid) as Hrows.
  pose proof dim_nonneg as Hd.
  assert (0 <= nnz * dim) by nia.
  unfold colvec_inv. cbn [cs_ncurr cs_indptr cs_indices cs_values].
  rewrite !repeat_length.
  repeat split; try lia.
  - apply geti_repeat_zero.
  - intros i Hi. apply geti_repeat_zero.
  - intros q _. apply getr_repeat_zero.
Qed.

Lemma colvec_inv_step ix st :
  0 <= ix < dim2 -> colvec_inv ix st ->
  colvec_inv (ix + 1) (colvec_row t colvec indptr values ix st).
Proof.
  intros Hix (Hn & Hlp & Hp0 & Hpdone & Hprest & Hli & Hlv & Hrows & Hzero).
  pose proof dim_nonneg as Hd.
  pose proof (start_nonneg ix ltac:(lia)) as Hs0.
  assert (Hnext : start (ix + 1) = start ix + count ix)
    by (apply row_start_next; lia).
  unfold colvec_row.
  assert (Hcount : count ix = if geti indptr ix <? geti indptr (ix + 1) then dim else 0)
    by reflexivity.
  destruct (Z.ltb_spec (geti indptr ix) (geti indptr (ix + 1))) as [Hrow|Hrow].
  - (* a row with entries *)
    assert (Hfit : start ix + dim <= nnz * dim).
    { pose proof (start_bound ix ltac:(lia)).
      pose proof (csr_monotone_from _ _ _ _ _ Hvalid (ix + 1) dim2 ltac:(lia) ltac:(lia)).
      destruct (csr_parts _ _ _ _ _ Hvalid) as (_ & _ & _ & Hlast & _).
      nia. }
    rewrite axpy_unit_stride.
    unfold colvec_inv. cbn [cs_ncurr cs_indptr cs_indices cs_values].
    rewrite Hn. unfold geti. rewrite length_set, axpy_unit_length.
    unfold iota. rewrite (slice_update_length 0 (fun j _ => j)).
    repeat split; try lia.
    + rewrite get_set_other by lia. exact Hp0.
    + intros i Hi. destruct (Z.eq_dec ix i) as [<-|Hne].
      * rewrite get_set_same by lia. lia.
      * rewrite get_set_other by lia. apply Hpdone. lia.
    + intros i Hi. rewrite get_set_other by lia. apply Hprest. lia.
    + fold (geti (for_loop 0 dim (fun j a => set a (start ix + j) j) (cs_indices st))
                 (start i + j)).
      unfold geti.
      rewrite (slice_update_get 0 (fun j _ => j) dim (start ix) (cs_indices st)).
      destruct (Z.eq_dec i ix) as [->|Hne].
      * destruct (Z.leb_spec (start ix) (start ix + j)),
          (Z.ltb_spec (start ix + j) (start ix + dim)),
          (Z.leb_spec 0 (start ix + j)),
          (Z.ltb_spec (start ix + j) (Z.of_nat (length (cs_indices st))));
          simpl; lia.
      * assert (Hbefore : start i + j < start ix).
        { pose proof (row_start_monotone dim indptr (i + 1) ix Hd ltac:(lia)) as Hm.
          assert (E : start (i + 1) = start i + count i) by (apply row_start_next; lia).
          assert (Ec : count i = dim).
          { unfold row_count.
            destruct (Z.ltb_spec (geti indptr i) (geti indptr (i + 1))); unfold geti in *;
              lia. }
          lia. }
        destruct (Z.leb_spec (start ix) (start i + j)); simpl; [lia|].
        apply (Hrows i j); [lia|assumption|assumption].
    + rewrite axpy_unit_get.
      destruct (Z.eq_dec i ix) as [->|Hne].
      * destruct (Z.leb_spec (start ix) (start ix + j)),
          (Z.ltb_spec (start ix + j) (start ix + dim)),
          (Z.leb_spec 0 (start ix + j)),
          (Z.ltb_spec (start ix + j) (Z.of_nat (length (cs_values st))));
          cbn [andb]; try lia.
        rewrite Hzero by lia. replace (0 + (start ix + j - start ix)) with j by lia.
        unfold outer_term. f_equal. apply axpy_term_mul.
        destruct (Z.lt_ge_cases j (Z.of_nat (length colvec))) as [Hin|Hout].
        -- rewrite Forall_forall in Hcolvec. apply Hcolvec. apply get_In. lia.
        -- lia.
      * assert (Hbefore : start i + j < start ix).
        { pose proof (row_start_monotone dim indptr (i + 1) ix Hd ltac:(lia)) as Hm.
          assert (E : start (i + 1) = start i + count i) by (apply row_start_next; lia).
          assert (Ec : count i = dim).
          { unfold row_count.
            destruct (Z.ltb_spec (geti indptr i) (geti indptr (i + 1))); unfold geti in *;
              lia. }
          lia. }
        destruct (Z.leb_spec (start ix) (start i + j)); simpl; [lia|].
        apply (Hrows i j); [lia|assumption|assumption].
    + intros q Hq. rewrite axpy_unit_get.
      destruct (Z.ltb_spec q (start ix + dim)); [lia|].
      rewrite Bool.andb_false_r. simpl. apply Hzero. lia.
  - (* a row without entries *)
    unfold colvec_inv. repeat split; try lia; try assumption.
    + intros i Hi. destruct (Z.eq_dec i ix) as [->|Hne].
      * rewrite Hprest by lia. lia.
      * apply Hpdone. lia.
    + intros i Hi. apply Hprest. lia.
    + destruct (Z.eq_dec i ix) as [->|Hne]; [lia|]. apply (Hrows i j); lia.
    + destruct (Z.eq_dec i ix) as [->|Hne]; [lia|]. apply (Hrows i j); lia.
    + intros q Hq. apply Hzero. lia.
Qed.
End OuterProduct.

Lemma colvec_loop_inv t colvec indptr indices values dim2 ncols :
  csr_valid dim2 ncols indptr indices values = true ->
  Forall (fun v => valid t v = true) colvec ->
  colvec_inv t colvec indptr indices values dim2 dim2
    (for_loop 0 dim2 (colvec_row t colvec indptr values)
       {| cs_indptr := repeat 0 (Z.to_nat (dim2 + 1));
          cs_indices := repeat 0 (Z.to_nat (Z.of_nat (length indices)
                                            * Z.of_nat (length colvec)));
          cs_values := repeat zero (Z.to_nat (Z.of_nat (length indices)
                                              * Z.of_nat (length colvec)));
          cs_ncurr := 0 |}).
Proof.
  intros Hvalid Hcolvec.
  pose proof (csr_nrows_nonneg _ _ _ _ _ Hvalid) as Hrows.
  apply (for_loop_ind (colvec_inv t colvec indptr indices values dim2)); [lia| |].
  - now apply (colvec_inv_init t colvec indptr indices values dim2 ncols).
  - intros ix st Hix Hinv.
    now apply (colvec_inv_step t colvec indptr indices values dim2 ncols).
Qed.

(** C7.  For a dense vector of [k] numbers of [real_t] and a valid
    compressed structure of [dim2] rows, the result of
    [matmul_colvec_by_scolvecascsr_template] has an [indptr] that starts at
    zero and grows by [k] over every row with entries and by nothing over
    every row without; a row with entries holds the indices [0 .. k-1] in
    order and, as values, the products of its weight (its first stored
    value) with the elements of the vector. *)
Theorem outer_product_structure (t : real_t) (colvec : list real)
    (indptr indices : list Z) (values : list real) (dim2 ncols : Z) :
  csr_valid dim2 ncols indptr indices values = true ->
  Forall (fun v => valid t v = true) colvec ->
  Z.of_nat (length (sl_indptr
     (matmul_colvec_by_scolvecascsr_template t colvec indptr indices values)))
    = dim2 + 1 /\
  geti (sl_indptr
     (matmul_colvec_by_scolvecascsr_template t colvec indptr indices values)) 0 = 0 /\
  forall ix, 0 <= ix < dim2 ->
    geti (sl_indptr
       (matmul_colvec_by_scolvecascsr_template t colvec indptr indices values)) (ix + 1)
    = geti (sl_indptr
         (matmul_colvec_by_scolvecascsr_template t colvec indptr indices values)) ix
      + row_count (Z.of_nat (length colvec)) indptr ix /\
    (geti indptr ix < geti indptr (ix + 1) ->
     forall j, 0 <= j < Z.of_nat (length colvec) ->
       geti (sl_indices
          (matmul_colvec_by_scolvecascsr_template t colvec indptr indices values))
         (geti (sl_indptr
            (matmul_colvec_by_scolvecascsr_template t colvec indptr indices values)) ix
          + j) = j /\
       weight_times t (getr values (geti indptr ix)) (getr colvec j)
         (getr (sl_values
            (matmul_colvec_by_scolvecascsr_template t colvec indptr indices values))
            (geti (sl_indptr
               (matmul_colvec_by_scolvecascsr_template t colvec indptr indices values))
               ix + j))).
Proof.
  intros Hvalid Hcolvec.
  pose proof (csr_nrows_nonneg _ _ _ _ _ Hvalid) as Hrows.
  destruct (csr_parts _ _ _ _ _ Hvalid) as (_ & Hlen & _).
  pose proof (colvec_loop_inv t colvec indptr indices values dim2 ncols Hvalid Hcolvec)
    as (Hn & Hlp & Hp0 & Hpdone & _ & Hli & Hlv & Hrowsinv & _).
  unfold matmul_colvec_by_scolvecascsr_template. cbv zeta.
  cbn [sl_indptr sl_indices sl_values].
  rewrite Hlen. replace (dim2 + 1 - 1) with dim2 by lia.
  set (st := for_loop 0 dim2 (colvec_row t colvec indptr values) _) in *.
  destruct (cumulate_spec (row_count (Z.of_nat (length colvec)) indptr)
              (cs_indptr st) dim2 Hrows Hlp Hp0 Hpdone) as [Hcl Hcs].
  assert (Hstart : forall i, 0 <= i <= dim2 ->
            geti (cumulate (cs_indptr st) dim2) i
            = row_start (Z.of_nat (length colvec)) indptr i) by exact Hcs.
  clear Hcs. rename Hstart into Hcs.
  split; [rewrite Hcl; exact Hlp|].
  split; [rewrite (Hcs 0) by lia; apply row_start_first|].
  intros ix Hix. rewrite (Hcs ix), (Hcs (ix + 1)) by lia.
  split; [apply row_start_next; lia|].
  intros Hrow j Hj.
  destruct (Hrowsinv ix j Hix Hrow Hj) as [Hidx Hval].
  split; [exact Hidx|].
  rewrite getr_map_to_double, Hval. unfold outer_term, weight_times.
  destruct (add_zero_l t (mul t (of_double t (getr values (geti indptr ix)))
                                (getr colvec j))) as [E|[E1 E2]].
  - left. now rewrite E.
  - right. split; [exact E1|]. rewrite E2. now destruct t.
Qed.

Lemma outer_product_structure_witness :
  Z.of_nat (length (sl_indptr
     (matmul_colvec_by_scolvecascsr_template double [of_int 1; of_int 2]
        [0; 1; 1; 2] [0; 0] [of_int 3; of_int 4]))) = 3 + 1 /\
  geti (sl_indptr
     (matmul_colvec_by_scolvecascsr_template double [of_int 1; of_int 2]
        [0; 1; 1; 2] [0; 0] [of_int 3; of_int 4])) 0 = 0 /\
  forall ix, 0 <= ix < 3 ->
    geti (sl_indptr
       (matmul_colvec_by_scolvecascsr_template double [of_int 1; of_int 2]
          [0; 1; 1; 2] [0; 0] [of_int 3; of_int 4])) (ix + 1)
    = geti (sl_indptr
         (matmul_colvec_by_scolvecascsr_template double [of_int 1; of_int 2]
            [0; 1; 1; 2] [0; 0] [of_int 3; of_int 4])) ix
      + row_count (Z.of_nat (length [of_int 1; of_int 2])) [0; 1; 1; 2] ix /\
    (geti [0; 1; 1; 2] ix < geti [0; 1; 1; 2] (ix + 1) ->
     forall j, 0 <= j < Z.of_nat (length [of_int 1; of_int 2]) ->
       geti (sl_indices
          (matmul_colvec_by_scolvecascsr_template double [of_int 1; of_int 2]
             [0; 1; 1; 2] [0; 0] [of_int 3; of_int 4]))
         (geti (sl_indptr
            (matmul_colvec_by_scolvecascsr_template double [of_int 1; of_int 2]
               [0; 1; 1; 2] [0; 0] [of_int 3; of_int 4])) ix + j) = j /\
       weight_times double (getr [of_int 3; of_int 4] (geti [0; 1; 1; 2] ix))
         (getr [of_int 1; of_int 2] j)
         (getr (sl_values
            (matmul_colvec_by_scolvecascsr_template double [of_int 1; of_int 2]
               [0; 1; 1; 2] [0; 0] [of_int 3; of_int 4]))
            (geti (sl_indptr
               (matmul_colvec_by_scolvecascsr_template double [of_int 1; of_int 2]
                  [0; 1; 1; 2] [0; 0] [of_int 3; of_int 4])) ix + j))).
Proof.
  apply (outer_product_structure double [of_int 1; of_int 2] [0; 1; 1; 2] [0; 0]
           [of_int 3; of_int 4] 3 1).
  - reflexivity.
  - repeat constructor.
Defined.

(** ** The parallel row loop of materialize mode *)

Lemma in_bounds_length count (b b' : list real) :
  length b = length b' -> in_bounds count b = in_bounds count b'.
Proof. intros H. unfold in_bounds. now rewrite H. Qed.

Lemma zero_fill_spec (buf : list real) count :
  length (for_loop 0 count (fun i b => set b i zero) buf) = length buf /\
  forall q, getr (for_loop 0 count (fun i b => set b i zero) buf) q =
            if (0 <=? q) && (q <? count) && (q <? Z.of_nat (length buf))
            then zero else getr buf q.
Proof.
  assert (E : for_loop 0 count (fun i b => set b i zero) buf
              = for_loop 0 count (fun j b =>
                  set b (0 + j) ((fun _ _ => zero) j (get zero b (0 + j)))) buf)
    by (apply for_loop_ext; intros i b _; reflexivity).
  rewrite E. split.
  - apply (slice_update_length zero (fun _ _ => zero)).
  - intros q. unfold getr.
    rewrite (slice_update_get zero (fun _ _ => zero) count 0 buf q).
    destruct (Z.leb_spec 0 q), (Z.ltb_spec q (0 + count)), (Z.ltb_spec q count),
      (Z.ltb_spec q (Z.of_nat (length buf))); simpl; try lia; reflexivity.
Qed.

(** A loop whose every iteration checks the same bound fails at once or
    never. *)
Lemma for_loopM_checked (f : Z -> list real -> list real) count lo hi b0 :
  lo < hi -> (forall i b, length (f i b) = length b) ->
  for_loopM lo hi (fun i b => checked count b (f i b)) b0
  = if in_bounds count b0 then Ok (for_loop lo hi f b0) else OutOfBounds.
Proof.
  intros Hlt Hlen. unfold for_loopM.
  assert (H : (fun i r =>
    (i = lo /\ r = Ok b0) \/
    (lo < i /\ r = if in_bounds count b0 then Ok (for_loop lo i f b0) else OutOfBounds))
    hi (for_loop lo hi (fun i r => bind r (fun b => checked count b (f i b))) (Ok b0))).
  { apply for_loop_ind; [lia|now left|].
    intros i r Hi [[-> ->]|[Hgt ->]]; right; (split; [lia|]).
    - simpl. unfold checked. destruct (in_bounds count b0); [|reflexivity].
      rewrite (for_loop_last lo (lo + 1)) by lia.
      replace (lo + 1 - 1) with lo by lia. now rewrite for_loop_empty by lia.
    - destruct (in_bounds count b0) eqn:E; [|reflexivity]. simpl. unfold checked.
      assert (Hl : length (for_loop lo i f b0) = length b0).
      { apply (for_loop_ind (fun _ b => length b = length b0)); [lia|reflexivity|].
        intros j b _ Hb. now rewrite Hlen. }
      rewrite (in_bounds_length count _ b0 Hl), E.
      rewrite (for_loop_last lo (i + 1)) by lia.
      now replace (i + 1 - 1) with i by lia. }
  cbv beta in H. destruct H as [[-> _]|[_ ->]]; [lia|reflexivity].
Qed.

(** A strided copy reads only the [n] elements it copies. *)
Lemma tcopy_ext t n x x' xo incx y yo incy :
  (forall i, 0 <= i < n -> getr x (xo + i * incx) = getr x' (xo + i * incx)) ->
  tcopy t n x xo incx y yo incy = tcopy t n x' xo incx y yo incy.
Proof.
  intros H. destruct t; unfold tcopy, dcopy, scopy; apply for_loop_ext;
    intros i b Hi; now rewrite H.
Qed.

(** Two loops that store given values at positions of their own commute. *)
Lemma stores_commute (p1 p2 : Z -> Z) (v1 v2 : Z -> real) n1 n2 (y : list real) :
  (forall a b, 0 <= a < n1 -> 0 <= b < n2 -> p1 a <> p2 b) ->
  for_loop 0 n1 (fun a y => set y (p1 a) (v1 a))
    (for_loop 0 n2 (fun b y => set y (p2 b) (v2 b)) y)
  = for_loop 0 n2 (fun b y => set y (p2 b) (v2 b))
      (for_loop 0 n1 (fun a y => set y (p1 a) (v1 a)) y).
Proof.
  intros Hne.
  assert (Hone : forall p v y, (forall b, 0 <= b < n2 -> p <> p2 b) ->
            set (for_loop 0 n2 (fun b y => set y (p2 b) (v2 b)) y) p v
            = for_loop 0 n2 (fun b y => set y (p2 b) (v2 b)) (set y p v)).
  { intros p v y' Hp. destruct (Z.le_gt_cases n2 0);
      [now rewrite !(for_loop_empty 0 n2) by lia|].
    apply (for_loop_ind (fun i z =>
             set z p v = for_loop 0 i (fun b y => set y (p2 b) (v2 b)) (set y' p v)));
      [lia|now rewrite for_loop_empty by lia|].
    intros i z Hi IH. rewrite (for_loop_last 0 (i + 1)) by lia.
    replace (i + 1 - 1) with i by lia. rewrite <- IH.
    apply (set_comm zero). specialize (Hp i Hi). congruence. }
  destruct (Z.le_gt_cases n1 0); [now rewrite !(for_loop_empty 0 n1) by lia|].
  apply (for_loop_ind (fun i z =>
           z = for_loop 0 n2 (fun b y => set y (p2 b) (v2 b))
                 (for_loop 0 i (fun a y => set y (p1 a) (v1 a)) y)));
    [lia|now rewrite (for_loop_empty 0 0) by lia|].
  intros i z Hi ->. rewrite Hone by (intros b Hb; now apply Hne).
  rewrite (for_loop_last 0 (i + 1)) by lia.
  now replace (i + 1 - 1) with i by lia.
Qed.

Section SchedulesOn.
Context {S : Type}.
Variable body : Z -> S -> S.
Variable P : Z -> Prop.
Hypothesis body_commute :
  forall i j s, P i -> P j -> i <> j -> body i (body j s) = body j (body i s).

Lemma fold_rows_permutation_on (l l' : list Z) :
  Permutation l l' -> Forall P l ->
  forall s, fold_left (fun s i => body i s) l s = fold_left (fun s i => body i s) l' s.
Proof.
  induction 1 as [|x l l' _ IH|x y l|l l' l'' Hp IH1 _ IH2]; intros HP s; simpl.
  - reflexivity.
  - apply IH. now inversion HP.
  - destruct (Z.eq_dec x y) as [->|Hne]; [reflexivity|].
    inversion HP as [|? ? Py HP']. inversion HP' as [|? ? Px _]. subst.
    now rewrite body_commute.
  - rewrite IH1 by assumption. apply IH2.
    now apply (Permutation_Forall Hp).
Qed.
End SchedulesOn.

Section MaterializeRows.
Variable uninit : real.
Variable t : real_t.
Variables (n : Z) (indptr indices : list Z) (values DenseMat : list real).
Variables (ldb ldc : Z).
Hypothesis Hldb : n <= ldb.

Local Abbreviation has_entries := (has_entries indptr).
Local Abbreviation row_copy := (row_copy t n indptr indices values DenseMat ldb ldc).
Local Abbreviation pure_row := (pure_row t n indptr indices values DenseMat ldb ldc).
Local Abbreviation scratch_fits := (scratch_fits n ldb ldc).
Local Abbreviation temp_ok := (temp_ok ldc).
Local Abbreviation run_rows := (run_rows t n indptr indices values DenseMat ldb ldc).
Local Abbreviation temps_ok := (temps_ok ldc).

Lemma scratch_accumulate_length ix (b : list real) :
  length (axpy t n (getr values ix) DenseMat (geti indices ix * ldb) 1 b 0 1) = length b.
Proof. rewrite axpy_unit_stride. apply axpy_unit_length. Qed.

Lemma dcm_row_char row st :
  temp_ok (dcm_temp_arr st) -> has_entries row = true ->
  exists b, length b = Z.to_nat ldc /\
    dcm_row uninit t n indptr indices values DenseMat ldb ldc row st
    = if scratch_fits
      then Ok {| dcm_OutputMat := row_copy row (dcm_OutputMat st);
                 dcm_temp_arr := Some b |}
      else OutOfBounds.
Proof.
  intros Htemp Hrow. unfold dcm_row. unfold has_entries in Hrow. rewrite Hrow.
  set (w := match dcm_temp_arr st with
            | Some buf => buf
            | None => repeat uninit (Z.to_nat ldc)
            end).
  assert (Hw : length w = length (repeat zero (Z.to_nat ldc))).
  { rewrite repeat_length. subst w. destruct (dcm_temp_arr st); simpl in *;
      [assumption|apply repeat_length]. }
  unfold scratch_fits.
  rewrite <- (in_bounds_length ldb w _ Hw), <- (in_bounds_length n w _ Hw).
  unfold memset_zero. unfold checked at 1.
  destruct (in_bounds ldb w) eqn:E1;
    [|exists (repeat zero (Z.to_nat ldc)); split; [apply repeat_length|reflexivity]].
  cbn [bind andb].
  destruct (zero_fill_spec w ldb) as [Hzl Hzg].
  set (zw := for_loop 0 ldb (fun i b => set b i zero) w) in *.
  apply Z.ltb_lt in Hrow.
  rewrite (for_loopM_checked
             (fun ix b => axpy t n (getr values ix) DenseMat (geti indices ix * ldb) 1
                               b 0 1) n _ _ zw Hrow scratch_accumulate_length).
  rewrite (in_bounds_length n zw w Hzl).
  destruct (in_bounds n w) eqn:E2;
    [|exists (repeat zero (Z.to_nat ldc)); split; [apply repeat_length|reflexivity]].
  cbn [bind].
  set (acc := for_loop _ _ _ zw).
  assert (Hacc : acc = drm_row t n indptr indices values DenseMat ldb 0 row zw).
  { subst acc. unfold drm_row. cbv zeta. apply for_loop_ext. intros ix b _.
    now rewrite Z.mul_0_r. }
  destruct (drm_row_get t n indptr indices values DenseMat ldb 0 row zw) as [Hal Hag].
  rewrite <- Hacc in Hal, Hag.
  unfold checked. rewrite (in_bounds_length n acc w) by congruence.
  rewrite E2. cbn [bind].
  exists acc. split.
  { rewrite Hal, Hzl, Hw. apply repeat_length. }
  f_equal. f_equal.
  assert (Et : tcopy t n acc 0 1 (dcm_OutputMat st) row ldc
               = for_loop 0 n (fun i y => set y (row + i * ldc) (getr acc (0 + i * 1)))
                   (dcm_OutputMat st)) by (now destruct t).
  rewrite Et. unfold row_copy. apply for_loop_ext. intros i y Hi. f_equal.
  rewrite Hag. unfold in_slice. rewrite Hzl.
  assert (Hlen : n <= Z.of_nat (length w)).
  { unfold in_bounds in E2. apply orb_prop in E2.
    destruct E2 as [E2|E2]; apply Z.leb_le in E2; lia. }
  replace (0 + i * 1) with i by lia. rewrite Z.mul_0_r, Z.sub_0_r.
  destruct (Z.leb_spec 0 i), (Z.ltb_spec i (0 + n)),
    (Z.ltb_spec i (Z.of_nat (length w))); cbn [andb]; try lia.
  rewrite Hzg.
  destruct (Z.leb_spec 0 i), (Z.ltb_spec i ldb),
    (Z.ltb_spec i (Z.of_nat (length w))); cbn [andb]; try lia.
  reflexivity.
Qed.

Lemma dcm_row_skip row st :
  has_entries row = false ->
  dcm_row uninit t n indptr indices values DenseMat ldb ldc row st = Ok st.
Proof. intros H. unfold dcm_row. unfold has_entries in H. now rewrite H. Qed.

Lemma run_rows_cons row rows O :
  run_rows (row :: rows) O =
  if has_entries row
  then if scratch_fits then run_rows rows (row_copy row O) else OutOfBounds
  else run_rows rows O.
Proof.
  unfold run_rows, pure_row. cbn [existsb fold_left].
  destruct (has_entries row), scratch_fits; reflexivity.
Qed.

Lemma fold_bind_fail {S A : Type} (f : A -> S -> result S) (l : list A) :
  fold_left (fun r a => bind r (f a)) l OutOfBounds = OutOfBounds.
Proof. induction l as [|a l IH]; simpl; auto. Qed.

(** The sequential loop, over any list of rows. *)
Lemma dcm_rows_sequential (rows : list Z) : forall st,
  temp_ok (dcm_temp_arr st) ->
  bind (fold_left (fun r row =>
          bind r (dcm_row uninit t n indptr indices values DenseMat ldb ldc row))
          rows (Ok st))
       (fun st => Ok (dcm_OutputMat st))
  = run_rows rows (dcm_OutputMat st).
Proof.
  induction rows as [|row rows IH]; intros st Htemp.
  - unfold run_rows. simpl. now rewrite Bool.orb_true_r.
  - rewrite run_rows_cons. cbn [fold_left bind].
    destruct (has_entries row) eqn:Hrow.
    + destruct (dcm_row_char row st Htemp Hrow) as (b & Hb & ->).
      destruct scratch_fits.
      * now rewrite IH.
      * now rewrite fold_bind_fail.
    + rewrite dcm_row_skip by assumption. now apply IH.
Qed.

(** The parallel loop, over any schedule. *)
Lemma dcm_rows_parallel (sched : schedule) : forall st,
  temps_ok st ->
  bind (fold_left (fun r ti =>
          bind r (dcm_row_omp uninit t n indptr indices values DenseMat ldb ldc
                    (fst ti) (snd ti)))
          sched (Ok st))
       (fun st => Ok (omp_OutputMat st))
  = run_rows (map snd sched) (omp_OutputMat st).
Proof.
  induction sched as [|[th row] sched IH]; intros st Htemp.
  - unfold run_rows. simpl. now rewrite Bool.orb_true_r.
  - cbn [map snd fst]. rewrite run_rows_cons. cbn [fold_left bind fst snd].
    unfold dcm_row_omp at 2.
    destruct (has_entries row) eqn:Hrow.
    + destruct (dcm_row_char row
                  {| dcm_OutputMat := omp_OutputMat st;
                     dcm_temp_arr := omp_temp_arr st th |} (Htemp th) Hrow)
        as (b & Hb & ->).
      destruct scratch_fits; cbn [bind].
      * rewrite IH; [reflexivity|].
        intros th'. cbn [omp_temp_arr dcm_temp_arr].
        destruct (th' =? th); [exact Hb|apply Htemp].
      * now rewrite fold_bind_fail.
    + rewrite dcm_row_skip by assumption. cbn [bind].
      rewrite IH; [reflexivity|].
      intros th'. cbn [omp_temp_arr dcm_temp_arr].
      destruct (th' =? th) eqn:E; [|apply Htemp].
      apply Z.eqb_eq in E. subst th'. apply Htemp.
Qed.

Lemma row_copy_commute i j O :
  0 <= i < ldc -> 0 <= j < ldc -> i <> j ->
  row_copy i (row_copy j O) = row_copy j (row_copy i O).
Proof.
  intros Hi Hj Hij. unfold row_copy.
  apply (stores_commute (fun a => i + a * ldc) (fun b => j + b * ldc)
           (fun a => sparse_sum t indptr indices values DenseMat ldb i a zero)
           (fun b => sparse_sum t indptr indices values DenseMat ldb j b zero)).
  intros a b _ _. now apply stride_distinct.
Qed.

Lemma pure_row_commute i j O :
  0 <= i < ldc -> 0 <= j < ldc -> i <> j ->
  pure_row i (pure_row j O) = pure_row j (pure_row i O).
Proof.
  intros Hi Hj Hij. unfold pure_row.
  destruct (has_entries i), (has_entries j); try reflexivity.
  now apply row_copy_commute.
Qed.

Lemma existsb_permutation {A : Type} (f : A -> bool) (l l' : list A) :
  Permutation l l' -> existsb f l = existsb f l'.
Proof.
  induction 1 as [|x l l' _ IH|x y l|l l' l'' _ IH1 _ IH2]; simpl.
  - reflexivity.
  - now rewrite IH.
  - destruct (f x), (f y); reflexivity.
  - congruence.
Qed.

Lemma run_rows_permutation rows rows' O :
  Permutation rows rows' -> Forall (fun r => 0 <= r < ldc) rows ->
  run_rows rows O = run_rows rows' O.
Proof.
  intros Hp Hrows. unfold run_rows.
  rewrite (existsb_permutation has_entries rows rows' Hp).
  now rewrite (fold_rows_permutation_on pure_row (fun r => 0 <= r < ldc)
                 (fun i j s Hi Hj Hij => pure_row_commute i j s Hi Hj Hij)
                 rows rows' Hp Hrows).
Qed.
End MaterializeRows.

Lemma gemm_csr_drm_as_dcm_run uninit t m n indptr indices values DenseMat ldb
    OutputMat ldc nthreads :
  n <= ldb ->
  gemm_csr_drm_as_dcm uninit t m n indptr indices values DenseMat ldb OutputMat ldc
    nthreads
  = if (m <=? 0) || (geti indptr 0 =? geti indptr m) then Ok OutputMat
    else run_rows t n indptr indices values DenseMat ldb ldc (range 0 m) OutputMat.
Proof.
  intros Hn. unfold gemm_csr_drm_as_dcm.
  destruct ((m <=? 0) || (geti indptr 0 =? geti indptr m)); [reflexivity|].
  cbv zeta. unfold for_loopM. rewrite for_loop_fold.
  now rewrite (dcm_rows_sequential uninit t n indptr indices values DenseMat ldb ldc Hn).
Qed.

Lemma gemm_csr_drm_as_dcm_omp_run uninit sched t m n indptr indices values DenseMat ldb
    OutputMat ldc nthreads :
  n <= ldb ->
  gemm_csr_drm_as_dcm_omp uninit sched t m n indptr indices values DenseMat ldb
    OutputMat ldc nthreads
  = if (m <=? 0) || (geti indptr 0 =? geti indptr m) then Ok OutputMat
    else run_rows t n indptr indices values DenseMat ldb ldc (map snd sched) OutputMat.
Proof.
  intros Hn. unfold gemm_csr_drm_as_dcm_omp.
  destruct ((m <=? 0) || (geti indptr 0 =? geti indptr m)); [reflexivity|].
  cbv zeta. unfold omp_forM.
  rewrite (dcm_rows_parallel uninit t n indptr indices values DenseMat ldb ldc Hn);
    [reflexivity|].
  intros th. exact I.
Qed.

Lemma gemm_csr_drm_as_dcm_schedule uninit sched t m n indptr indices values DenseMat ldb
    OutputMat ldc nthreads nthreads' :
  n <= ldb -> m <= ldc ->
  dynamic_schedule nthreads' 0 m sched ->
  gemm_csr_drm_as_dcm_omp uninit sched t m n indptr indices values DenseMat ldb
    OutputMat ldc nthreads'
  = gemm_csr_drm_as_dcm uninit t m n indptr indices values DenseMat ldb OutputMat ldc
      nthreads.
Proof.
  intros Hn Hm [Hperm _].
  rewrite gemm_csr_drm_as_dcm_run, gemm_csr_drm_as_dcm_omp_run by assumption.
  destruct ((m <=? 0) || (geti indptr 0 =? geti indptr m)); [reflexivity|].
  apply run_rows_permutation; [assumption|].
  apply (Permutation_Forall (Permutation_sym Hperm)).
  apply Forall_forall. intros r Hr. apply in_range in Hr. lia.
Qed.

(** ** The result does not depend on the number of threads *)

(** C9.  Under any schedule of the row loop for any number of threads,
    each kernel that takes a thread count ([gemm_csr_drm_as_drm],
    [matmul_csr_dvec], [matmul_csr_svec] and [gemm_csr_drm_as_dcm], the last
    with a scratch buffer for each thread) returns what its sequential loop
    returns; hence the result is the same for any two thread counts.  The
    parallel loop is taken at the granularity of its iterations: a schedule
    is an order of the rows, each with the thread that runs it. *)
Theorem thread_count_invariance :
  (forall (t : real_t) (m n : Z) (indptr indices : list Z) (values B C : list real)
          (ldb ldc : Z) (sched sched' : schedule) (nthreads nthreads' : Z),
      n <= ldc ->
      dynamic_schedule nthreads 0 m sched ->
      dynamic_schedule nthreads' 0 m sched' ->
      gemm_csr_drm_as_drm_omp sched t m n indptr indices values B ldb C ldc nthreads
      = gemm_csr_drm_as_drm t m n indptr indices values B ldb C ldc nthreads /\
      gemm_csr_drm_as_drm_omp sched t m n indptr indices values B ldb C ldc nthreads
      = gemm_csr_drm_as_drm_omp sched' t m n indptr indices values B ldb C ldc nthreads') /\
  (forall (X_csr_indptr X_csr_indices : list Z) (X_csr_values : list real)
          (y_dense : dense_vector) (sched sched' : schedule) (nthreads nthreads' : Z),
      let nrows := Z.of_nat (length X_csr_indptr) - 1 in
      dynamic_schedule nthreads 0 nrows sched ->
      dynamic_schedule nthreads' 0 nrows sched' ->
      matmul_csr_dvec_omp sched X_csr_indptr X_csr_indices X_csr_values y_dense nthreads
      = matmul_csr_dvec X_csr_indptr X_csr_indices X_csr_values y_dense nthreads /\
      matmul_csr_dvec_omp sched X_csr_indptr X_csr_indices X_csr_values y_dense nthreads
      = matmul_csr_dvec_omp sched' X_csr_indptr X_csr_indices X_csr_values y_dense
          nthreads') /\
  (forall (X_csr_indptr X_csr_indices : list Z) (X_csr_values : list real)
          (y_indices_base1 : list Z) (y_values : sparse_values)
          (sched sched' : schedule) (nthreads nthreads' : Z),
      let nrows := Z.of_nat (Z.to_nat (Z.of_nat (length X_csr_indptr) - 1)) in
      dynamic_schedule nthreads 0 nrows sched ->
      dynamic_schedule nthreads' 0 nrows sched' ->
      matmul_csr_svec_omp sched X_csr_indptr X_csr_indices X_csr_values
        y_indices_base1 y_values nthreads
      = matmul_csr_svec X_csr_indptr X_csr_indices X_csr_values
          y_indices_base1 y_values nthreads /\
      matmul_csr_svec_omp sched X_csr_indptr X_csr_indices X_csr_values
        y_indices_base1 y_values nthreads
      = matmul_csr_svec_omp sched' X_csr_indptr X_csr_indices X_csr_values
          y_indices_base1 y_values nthreads') /\
  (forall (uninit : real) (t : real_t) (m n : Z) (indptr indices : list Z)
          (values DenseMat OutputMat : list real) (ldb ldc : Z)
          (sched sched' : schedule) (nthreads nthreads' : Z),
      n <= ldb -> m <= ldc ->
      dynamic_schedule nthreads 0 m sched ->
      dynamic_schedule nthreads' 0 m sched' ->
      gemm_csr_drm_as_dcm_omp uninit sched t m n indptr indices values DenseMat ldb
        OutputMat ldc nthreads
      = gemm_csr_drm_as_dcm uninit t m n indptr indices values DenseMat ldb
          OutputMat ldc nthreads /\
      gemm_csr_drm_as_dcm_omp uninit sched t m n indptr indices values DenseMat ldb
        OutputMat ldc nthreads
      = gemm_csr_drm_as_dcm_omp uninit sched' t m n indptr indices values DenseMat ldb
          OutputMat ldc nthreads').
Proof.
  split; [|split; [|split]].
  - intros t m n indptr indices values B C ldb ldc sched sched' nthreads nthreads'
      Hn Hs Hs'.
    assert (E : forall sc nt, dynamic_schedule nt 0 m sc ->
      gemm_csr_drm_as_drm_omp sc t m n indptr indices values B ldb C ldc nt
      = gemm_csr_drm_as_drm t m n indptr indices values B ldb C ldc nthreads).
    { intros sc nt Hsc. unfold gemm_csr_drm_as_drm_omp, gemm_csr_drm_as_drm.
      destruct ((m <=? 0) || (geti indptr 0 =? geti indptr m)); [reflexivity|].
      apply (omp_for_sequential _ (fun i j s => drm_row_commute t n indptr indices
               values B ldb ldc i j s Hn) nt); assumption. }
    split; [now apply E|]. now rewrite (E sched nthreads), (E sched' nthreads').
  - intros X_csr_indptr X_csr_indices X_csr_values y_dense sched sched'
      nthreads nthreads' nrows Hs Hs'.
    assert (E : forall sc nt, dynamic_schedule nt 0 nrows sc ->
      matmul_csr_dvec_omp sc X_csr_indptr X_csr_indices X_csr_values y_dense nt
      = matmul_csr_dvec X_csr_indptr X_csr_indices X_csr_values y_dense nthreads).
    { intros sc nt Hsc. unfold matmul_csr_dvec_omp, matmul_csr_dvec.
      apply (omp_for_sequential
               (fun row out => set out row
                  (dvec_row X_csr_indptr X_csr_indices X_csr_values y_dense row)))
        with (nthreads := nt); [|assumption].
      intros i j s Hij. apply (set_comm zero). congruence. }
    split; [now apply E|]. now rewrite (E sched nthreads), (E sched' nthreads').
  - intros X_csr_indptr X_csr_indices X_csr_values y_indices_base1 y_values
      sched sched' nthreads nthreads' nrows Hs Hs'.
    assert (E : forall sc nt, dynamic_schedule nt 0 nrows sc ->
      matmul_csr_svec_omp sc X_csr_indptr X_csr_indices X_csr_values
        y_indices_base1 y_values nt
      = matmul_csr_svec X_csr_indptr X_csr_indices X_csr_values
          y_indices_base1 y_values nthreads).
    { intros sc nt Hsc. unfold matmul_csr_svec_omp, matmul_csr_svec.
      destruct (Z.of_nat (length y_indices_base1) =? 0); [reflexivity|].
      rewrite repeat_length. fold nrows.
      apply (omp_for_sequential _
               (svec_body_commute X_csr_indptr X_csr_indices X_csr_values
                  y_indices_base1 y_values) nt); assumption. }
    split; [now apply E|]. now rewrite (E sched nthreads), (E sched' nthreads').
  - intros uninit t m n indptr indices values DenseMat OutputMat ldb ldc sched sched'
      nthreads nthreads' Hldb Hldc Hs Hs'.
    assert (E : forall sc nt, dynamic_schedule nt 0 m sc ->
      gemm_csr_drm_as_dcm_omp uninit sc t m n indptr indices values DenseMat ldb
        OutputMat ldc nt
      = gemm_csr_drm_as_dcm uninit t m n indptr indices values DenseMat ldb
          OutputMat ldc nthreads).
    { intros sc nt Hsc. now apply gemm_csr_drm_as_dcm_schedule. }
    split; [now apply E|]. now rewrite (E sched nthreads), (E sched' nthreads').
Qed.

Lemma thread_count_invariance_witness :
  (gemm_csr_drm_as_drm_omp [(1, 2); (0, 0); (1, 1)] double 3 3
     [0; 2; 2; 3] [0; 1; 2] [of_int 1; of_int 2; of_int 3]
     (identity3 double) 3 (repeat zero 9) 3 2
   = gemm_csr_drm_as_drm double 3 3
       [0; 2; 2; 3] [0; 1; 2] [of_int 1; of_int 2; of_int 3]
       (identity3 double) 3 (repeat zero 9) 3 2 /\
   gemm_csr_drm_as_drm_omp [(1, 2); (0, 0); (1, 1)] double 3 3
     [0; 2; 2; 3] [0; 1; 2] [of_int 1; of_int 2; of_int 3]
     (identity3 double) 3 (repeat zero 9) 3 2
   = gemm_csr_drm_as_drm_omp [(0, 0); (0, 1); (0, 2)] double 3 3
       [0; 2; 2; 3] [0; 1; 2] [of_int 1; of_int 2; of_int 3]
       (identity3 double) 3 (repeat zero 9) 3 1) /\
  (gemm_csr_drm_as_dcm_omp zero [(1, 2); (0, 0); (1, 1)] double 3 3
     [0; 2; 2; 3] [0; 1; 2] [of_int 1; of_int 2; of_int 3]
     (identity3 double) 3 (repeat zero 9) 3 2
   = gemm_csr_drm_as_dcm zero double 3 3
       [0; 2; 2; 3] [0; 1; 2] [of_int 1; of_int 2; of_int 3]
       (identity3 double) 3 (repeat zero 9) 3 2 /\
   gemm_csr_drm_as_dcm_omp zero [(1, 2); (0, 0); (1, 1)] double 3 3
     [0; 2; 2; 3] [0; 1; 2] [of_int 1; of_int 2; of_int 3]
     (identity3 double) 3 (repeat zero 9) 3 2
   = gemm_csr_drm_as_dcm_omp zero [(0, 0); (0, 1); (0, 2)] double 3 3
       [0; 2; 2; 3] [0; 1; 2] [of_int 1; of_int 2; of_int 3]
       (identity3 double) 3 (repeat zero 9) 3 1).
Proof.
  assert (Hs : dynamic_schedule 2 0 3 [(1, 2); (0, 0); (1, 1)]).
  { split.
    - apply perm_trans with [0; 2; 1]; [apply perm_swap|apply perm_skip, perm_swap].
    - repeat constructor; simpl; lia. }
  assert (Hs' : dynamic_schedule 1 0 3 [(0, 0); (0, 1); (0, 2)]).
  { split.
    - apply Permutation_refl.
    - repeat constructor; simpl; lia. }
  split.
  - apply (proj1 thread_count_invariance double 3 3 [0; 2; 2; 3] [0; 1; 2]
             [of_int 1; of_int 2; of_int 3] (identity3 double) (repeat zero 9) 3 3
             [(1, 2); (0, 0); (1, 1)] [(0, 0); (0, 1); (0, 2)] 2 1);
      [lia|exact Hs|exact Hs'].
  - apply (proj2 (proj2 (proj2 thread_count_invariance)) zero double 3 3
             [0; 2; 2; 3] [0; 1; 2] [of_int 1; of_int 2; of_int 3] (identity3 double)
             (repeat zero 9) 3 3 [(1, 2); (0, 0); (1, 1)] [(0, 0); (0, 1); (0, 2)] 2 1);
      [lia|lia|exact Hs|exact Hs'].
Defined.

(** * Further properties of the kernels *)

(** ** Accumulate mode adds to the output it is given *)

Lemma in_slice_length n base (C C' : list real) q :
  length C' = length C -> in_slice n base C' q = in_slice n base C q.
Proof. intros H. unfold in_slice. now rewrite H. Qed.

Lemma in_slice_disjoint n ldc (C : list real) i i' q :
  n <= ldc -> i <> i' ->
  in_slice n (i * ldc) C q = true -> in_slice n (i' * ldc) C q = false.
Proof.
  intros Hn Hne. unfold in_slice.
  destruct (Z.leb_spec (i * ldc) q), (Z.ltb_spec q (i * ldc + n)),
    (Z.leb_spec (i' * ldc) q), (Z.ltb_spec q (i' * ldc + n));
    cbn [andb]; try reflexivity; try discriminate.
  exfalso. nia.
Qed.

(** The row loop of accumulate mode: every row rewrites its own slice,
    each element from its own old value, and nothing else is written. *)
Lemma drm_rows_get t n indptr indices values B ldb ldc C m :
  0 <= m -> n <= ldc ->
  length (for_loop 0 m (drm_row t n indptr indices values B ldb ldc) C) = length C /\
  (forall i q, 0 <= i < m -> in_slice n (i * ldc) C q = true ->
     getr (for_loop 0 m (drm_row t n indptr indices values B ldb ldc) C) q
     = sparse_sum t indptr indices values B ldb i (q - i * ldc) (getr C q)) /\
  (forall q, (forall i, 0 <= i < m -> in_slice n (i * ldc) C q = false) ->
     getr (for_loop 0 m (drm_row t n indptr indices values B ldb ldc) C) q = getr C q).
Proof.
  intros Hm Hn.
  apply (for_loop_ind (fun i0 C' =>
    length C' = length C /\
    (forall i q, 0 <= i < i0 -> in_slice n (i * ldc) C q = true ->
       getr C' q = sparse_sum t indptr indices values B ldb i (q - i * ldc) (getr C q)) /\
    (forall q, (forall i, 0 <= i < i0 -> in_slice n (i * ldc) C q = false) ->
       getr C' q = getr C q))); [lia| |].
  - split; [reflexivity|]. split; [intros; lia|reflexivity].
  - intros i0 C' Hi0 (Hl & Hdone & Hrest).
    destruct (drm_row_get t n indptr indices values B ldb ldc i0 C') as [Hl' Hg].
    split; [congruence|]. split.
    + intros i q Hi Hin. rewrite Hg, (in_slice_length n _ C C') by assumption.
      destruct (Z.eq_dec i i0) as [->|Hne].
      * rewrite Hin. f_equal. apply Hrest. intros i' Hi'.
        apply (in_slice_disjoint n ldc C i0 i'); [assumption|lia|assumption].
      * rewrite (in_slice_disjoint n ldc C i i0) by assumption.
        apply Hdone; [lia|assumption].
    + intros q Hq. rewrite Hg, (in_slice_length n _ C C') by assumption.
      rewrite (Hq i0) by lia. apply Hrest. intros i Hi. apply Hq. lia.
Qed.

(** The guard at the top of the kernel does not change what it returns on
    a valid matrix. *)
Lemma gemm_csr_drm_as_drm_loop t m k n indptr indices values B ldb C ldc nthreads :
  csr_valid m k indptr indices values = true ->
  gemm_csr_drm_as_drm t m n indptr indices values B ldb C ldc nthreads
  = for_loop 0 m (drm_row t n indptr indices values B ldb ldc) C.
Proof.
  intros Hvalid. unfold gemm_csr_drm_as_drm.
  destruct ((m <=? 0) || (geti indptr 0 =? geti indptr m)) eqn:Hg; [|reflexivity].
  symmetry. now apply (guard_skips_nothing t m k n).
Qed.

Lemma in_slice_element n ldc (C : list real) i j :
  0 <= j < n -> 0 <= i * ldc + j < Z.of_nat (length C) ->
  in_slice n (i * ldc) C (i * ldc + j) = true.
Proof.
  intros Hj Hb. unfold in_slice.
  destruct (Z.leb_spec (i * ldc) (i * ldc + j)),
    (Z.ltb_spec (i * ldc + j) (i * ldc + n)),
    (Z.leb_spec 0 (i * ldc + j)),
    (Z.ltb_spec (i * ldc + j) (Z.of_nat (length C))); cbn [andb]; lia.
Qed.

(** One element of the result of the row loop. *)
Lemma drm_rows_element t n indptr indices values B ldb ldc C m i j :
  n <= ldc -> 0 <= i < m -> 0 <= j < n -> 0 <= i * ldc + j < Z.of_nat (length C) ->
  getr (for_loop 0 m (drm_row t n indptr indices values B ldb ldc) C) (i * ldc + j)
  = sparse_sum t indptr indices values B ldb i j (getr C (i * ldc + j)).
Proof.
  intros Hn Hi Hj Hb.
  destruct (drm_rows_get t n indptr indices values B ldb ldc C m ltac:(lia) Hn)
    as (_ & Hdone & _).
  rewrite (Hdone i) by (try assumption; now apply in_slice_element).
  now replace (i * ldc + j - i * ldc) with j by lia.
Qed.

(** X1.  [X <- A*B + X]: on any output, [gemm_csr_drm_as_drm] adds to the element
    [(i, j)] the products of the stored entries of row [i] with column [j] of
    the dense matrix, in the order in which they are stored; it keeps the
    length of the output and leaves every element outside the [m] slices of
    [n] elements (the padding up to [ldc] and what follows the rows) as it
    was.  At [double] the products are those of the linked [daxpy], which
    returns at once for a factor of zero: the statement is for [float], or
    for stored values other than zero. *)
Theorem gemm_csr_drm_as_drm_accumulates (t : real_t) (m k n : Z)
    (indptr indices : list Z) (values B : list real) (ldb : Z) (C : list real)
    (ldc nthreads : Z) :
  csr_valid m k indptr indices values = true -> n <= ldc ->
  t = float \/ Forall (fun v => nonzero v = true) values ->
  length (gemm_csr_drm_as_drm t m n indptr indices values B ldb C ldc nthreads)
  = length C /\
  (forall i j, 0 <= i < m -> 0 <= j < n -> 0 <= i * ldc + j < Z.of_nat (length C) ->
     getr (gemm_csr_drm_as_drm t m n indptr indices values B ldb C ldc nthreads)
          (i * ldc + j)
     = sparse_sum t indptr indices values B ldb i j (getr C (i * ldc + j))) /\
  (forall q, (forall i j, 0 <= i < m -> 0 <= j < n -> q <> i * ldc + j) ->
     getr (gemm_csr_drm_as_drm t m n indptr indices values B ldb C ldc nthreads) q
     = getr C q).
Proof.
  intros Hvalid Hn _.
  pose proof (csr_nrows_nonneg _ _ _ _ _ Hvalid) as Hm.
  rewrite (gemm_csr_drm_as_drm_loop t m k) by assumption.
  destruct (drm_rows_get t n indptr indices values B ldb ldc C m Hm Hn)
    as (Hl & _ & Hrest).
  split; [assumption|]. split.
  - intros i j Hi Hj Hq. now apply drm_rows_element.
  - intros q Hq. apply Hrest. intros i Hi. unfold in_slice.
    destruct (Z.leb_spec (i * ldc) q), (Z.ltb_spec q (i * ldc + n));
      cbn [andb]; try reflexivity.
    exfalso. apply (Hq i (q - i * ldc)); lia.
Qed.

Lemma gemm_csr_drm_as_drm_accumulates_witness :
  getr (gemm_csr_drm_as_drm double 3 3 [0; 2; 2; 3] [0; 1; 2]
          [of_int 1; of_int 2; of_int 3] (identity3 double) 3
          (repeat (of_int 5) 12) 4 1) (0 * 4 + 1)
  = sparse_sum double [0; 2; 2; 3] [0; 1; 2] [of_int 1; of_int 2; of_int 3]
      (identity3 double) 3 0 1 (getr (repeat (of_int 5) 12) (0 * 4 + 1)) /\
  getr (gemm_csr_drm_as_drm float 3 3 [0; 2; 2; 3] [0; 1; 2]
          [of_int 1; zero; of_int 3] (identity3 float) 3
          (repeat zero 12) 4 1) (0 * 4 + 1)
  = sparse_sum float [0; 2; 2; 3] [0; 1; 2] [of_int 1; zero; of_int 3]
      (identity3 float) 3 0 1 (getr (repeat zero 12) (0 * 4 + 1)).
Proof.
  split.
  - apply (gemm_csr_drm_as_drm_accumulates double 3 3 3 [0; 2; 2; 3] [0; 1; 2]
             [of_int 1; of_int 2; of_int 3] (identity3 double) 3
             (repeat (of_int 5) 12) 4 1);
      [reflexivity|lia|right; repeat constructor|lia|lia|simpl; lia].
  - destruct (gemm_csr_drm_as_drm_accumulates float 3 3 3 [0; 2; 2; 3] [0; 1; 2]
                [of_int 1; zero; of_int 3] (identity3 float) 3
                (repeat zero 12) 4 1) as (_ & H & _);
      [reflexivity|lia|left; reflexivity|].
    apply H; [lia|lia|simpl; lia].
Defined.

(** ** Dense matrix times sparse matrix *)

(** X2.  [matmul_dense_csc] and [tcrossprod_dense_csr] hand the column-major
    [x] to the kernel as the row-major transpose: for a valid compressed
    operand with [ncols] compressed columns (or rows) and a finite [x] with
    [X_nrow] rows, both return the triple nested loop in which the element
    of column [i] and row [j] of the result collects, over [c], the entry
    [c] of compressed slice [i] times the element [(j, c)] of [x]; the
    result has [X_nrow * ncols] elements, and [ncols_Y] is never used. *)
Theorem dense_times_sparse_reference :
  (forall (t : real_t) (X_colmajor : list real) (X_nrow : Z)
          (Y_csc_indptr Y_csc_indices : list Z) (Y_csc_values : list real)
          (nthreads ncols k : Z),
      csr_valid ncols k Y_csc_indptr Y_csc_indices Y_csc_values = true ->
      Forall (fun b => finite_real t b = true) X_colmajor ->
      matmul_dense_csc t X_colmajor X_nrow Y_csc_indptr Y_csc_indices Y_csc_values
        nthreads
      = matmul_reference t ncols k X_nrow
          (csr_entry Y_csc_indptr Y_csc_indices Y_csc_values) X_colmajor X_nrow
          (repeat zero (Z.to_nat (X_nrow * ncols))) X_nrow /\
      length (matmul_dense_csc t X_colmajor X_nrow Y_csc_indptr Y_csc_indices
                Y_csc_values nthreads) = Z.to_nat (X_nrow * ncols)) /\
  (forall (t : real_t) (X_colmajor : list real) (X_nrow : Z)
          (Y_csr_indptr Y_csr_indices : list Z) (Y_csr_values : list real)
          (nthreads ncols_Y nrows k : Z),
      csr_valid nrows k Y_csr_indptr Y_csr_indices Y_csr_values = true ->
      Forall (fun b => finite_real t b = true) X_colmajor ->
      tcrossprod_dense_csr t X_colmajor X_nrow Y_csr_indptr Y_csr_indices Y_csr_values
        nthreads ncols_Y
      = matmul_reference t nrows k X_nrow
          (csr_entry Y_csr_indptr Y_csr_indices Y_csr_values) X_colmajor X_nrow
          (repeat zero (Z.to_nat (X_nrow * nrows))) X_nrow /\
      length (tcrossprod_dense_csr t X_colmajor X_nrow Y_csr_indptr Y_csr_indices
                Y_csr_values nthreads ncols_Y) = Z.to_nat (X_nrow * nrows)).
Proof.
  assert (H : forall t X X_nrow indptr indices values nthreads m k,
    csr_valid m k indptr indices values = true ->
    Forall (fun b => finite_real t b = true) X ->
    gemm_csr_drm_as_drm t (Z.of_nat (length indptr) - 1) X_nrow indptr indices values
      X X_nrow (repeat zero (Z.to_nat (X_nrow * (Z.of_nat (length indptr) - 1))))
      X_nrow nthreads
    = matmul_reference t m k X_nrow (csr_entry indptr indices values) X X_nrow
        (repeat zero (Z.to_nat (X_nrow * m))) X_nrow /\
    length (gemm_csr_drm_as_drm t (Z.of_nat (length indptr) - 1) X_nrow indptr indices
              values X X_nrow
              (repeat zero (Z.to_nat (X_nrow * (Z.of_nat (length indptr) - 1))))
              X_nrow nthreads) = Z.to_nat (X_nrow * m)).
  { intros t X X_nrow indptr indices values nthreads m k Hvalid HX.
    destruct (csr_parts _ _ _ _ _ Hvalid) as (_ & Hlen & _).
    replace (Z.of_nat (length indptr) - 1) with m by lia. split.
    - apply (gemm_csr_drm_as_drm_reference t m k X_nrow); try assumption.
      intros q. apply zeros_ok.
    - destruct (drm_rows_get t X_nrow indptr indices values X X_nrow X_nrow
                  (repeat zero (Z.to_nat (X_nrow * m))) m
                  (csr_nrows_nonneg _ _ _ _ _ Hvalid) ltac:(lia)) as (Hl & _).
      unfold gemm_csr_drm_as_drm.
      destruct ((m <=? 0) || (geti indptr 0 =? geti indptr m));
        [apply repeat_length|].
      rewrite Hl. apply repeat_length. }
  split.
  - intros t X X_nrow indptr indices values nthreads ncols k Hvalid HX.
    unfold matmul_dense_csc. cbv zeta. now apply H.
  - intros t X X_nrow indptr indices values nthreads ncols_Y nrows k Hvalid HX.
    unfold tcrossprod_dense_csr. cbv zeta. now apply H.
Qed.

Lemma dense_times_sparse_reference_witness :
  (matmul_dense_csc double (identity3 double) 3 [0; 2; 2; 3] [0; 1; 2]
     [of_int 1; of_int 2; of_int 3] 2
   = matmul_reference double 3 3 3
       (csr_entry [0; 2; 2; 3] [0; 1; 2] [of_int 1; of_int 2; of_int 3])
       (identity3 double) 3 (repeat zero (Z.to_nat (3 * 3))) 3 /\
   length (matmul_dense_csc double (identity3 double) 3 [0; 2; 2; 3] [0; 1; 2]
             [of_int 1; of_int 2; of_int 3] 2) = Z.to_nat (3 * 3)) /\
  (tcrossprod_dense_csr float (identity3 float) 3 [0; 2; 2; 3] [0; 1; 2]
     [of_int 1; of_int 2; of_int 3] 2 7
   = matmul_reference float 3 3 3
       (csr_entry [0; 2; 2; 3] [0; 1; 2] [of_int 1; of_int 2; of_int 3])
       (identity3 float) 3 (repeat zero (Z.to_nat (3 * 3))) 3 /\
   length (tcrossprod_dense_csr float (identity3 float) 3 [0; 2; 2; 3] [0; 1; 2]
             [of_int 1; of_int 2; of_int 3] 2 7) = Z.to_nat (3 * 3)).
Proof.
  split.
  - apply (proj1 dense_times_sparse_reference double (identity3 double) 3
             [0; 2; 2; 3] [0; 1; 2] [of_int 1; of_int 2; of_int 3] 2 3 3);
      [reflexivity|repeat constructor].
  - apply (proj2 dense_times_sparse_reference float (identity3 float) 3
             [0; 2; 2; 3] [0; 1; 2] [of_int 1; of_int 2; of_int 3] 2 7 3 3);
      [reflexivity|repeat constructor].
Defined.

(** ** The strided primitives *)

(** A loop that rewrites the elements at the positions [p 0], [p 1], ...,
    all different, each from its own old value. *)
Lemma updates_get (p : Z -> Z) (h : Z -> real -> real) n (y : list real) :
  (forall a b, 0 <= a < n -> 0 <= b < n -> p a = p b -> a = b) ->
  length (for_loop 0 n (fun a y => set y (p a) (h a (getr y (p a)))) y) = length y /\
  (forall i, 0 <= i < n -> 0 <= p i < Z.of_nat (length y) ->
     getr (for_loop 0 n (fun a y => set y (p a) (h a (getr y (p a)))) y) (p i)
     = h i (getr y (p i))) /\
  (forall q, (forall a, 0 <= a < n -> q <> p a) ->
     getr (for_loop 0 n (fun a y => set y (p a) (h a (getr y (p a)))) y) q = getr y q).
Proof.
  intros Hinj.
  destruct (Z.le_gt_cases n 0) as [Hn|Hn].
  { rewrite for_loop_empty by lia. split; [reflexivity|]. split; [intros; lia|reflexivity]. }
  apply (for_loop_ind (fun i0 y' =>
    length y' = length y /\
    (forall i, 0 <= i < i0 -> 0 <= p i < Z.of_nat (length y) ->
       getr y' (p i) = h i (getr y (p i))) /\
    (forall q, (forall a, 0 <= a < i0 -> q <> p a) -> getr y' q = getr y q)));
    [lia| |].
  - split; [reflexivity|]. split; [intros; lia|reflexivity].
  - intros i0 y' Hi0 (Hl & Hdone & Hrest).
    assert (Hold : getr y' (p i0) = getr y (p i0)).
    { apply Hrest. intros a Ha E. assert (i0 = a) by (apply Hinj; lia). lia. }
    split; [now rewrite length_set|]. split.
    + intros i Hi Hb. unfold getr. destruct (Z.eq_dec i i0) as [->|Hne].
      * rewrite get_set_same by lia. fold (getr y' (p i0)). now rewrite Hold.
      * rewrite get_set_other.
        -- apply Hdone; [lia|assumption].
        -- intros E. apply Hne. symmetry. apply Hinj; lia.
    + intros q Hq. unfold getr. rewrite get_set_other.
      * apply Hrest. intros a Ha. apply Hq. lia.
      * intros E. apply (Hq i0); [lia|now symmetry].
Qed.

Lemma stride_injective yo incy a b : incy <> 0 -> yo + a * incy = yo + b * incy -> a = b.
Proof. intros H E. nia. Qed.

(** X3.  [tcopy] with a stride [incy] other than zero: the [n] targets
    [y[yo + i*incy]] receive [x[xo + i*incx]], every other element of [y] is
    kept, and so is its length.  At [float] this is the [scopy] of the file,
    for strides of either sign; at [double] it is the linked [dcopy], which
    walks a vector with a negative stride from its far end, and the
    statement is for positive strides. *)
Theorem tcopy_strided (t : real_t) (n : Z) (x : list real) (xo incx : Z)
    (y : list real) (yo incy : Z) :
  incy <> 0 ->
  t = float \/ (0 < incx /\ 0 < incy) ->
  length (tcopy t n x xo incx y yo incy) = length y /\
  (forall i, 0 <= i < n -> 0 <= yo + i * incy < Z.of_nat (length y) ->
     getr (tcopy t n x xo incx y yo incy) (yo + i * incy) = getr x (xo + i * incx)) /\
  (forall q, (forall i, 0 <= i < n -> q <> yo + i * incy) ->
     getr (tcopy t n x xo incx y yo incy) q = getr y q).
Proof.
  intros Hinc _.
  assert (E : tcopy t n x xo incx y yo incy
              = for_loop 0 n (fun i y =>
                  set y (yo + i * incy)
                    ((fun i _ => getr x (xo + i * incx)) i (getr y (yo + i * incy)))) y)
    by (now destruct t).
  rewrite E.
  apply (updates_get (fun i => yo + i * incy) (fun i _ => getr x (xo + i * incx))).
  intros a b _ _. now apply stride_injective.
Qed.

Lemma tcopy_strided_witness :
  getr (tcopy float 2 [one float; zero; one float] 2 (-2) (repeat zero 6) 4 (-3))
       (4 + 1 * (-3))
  = getr [one float; zero; one float] (2 + 1 * (-2)) /\
  getr (tcopy double 2 [one double; one double] 0 1 (repeat zero 6) 1 3) (1 + 1 * 3)
  = getr [one double; one double] (0 + 1 * 1).
Proof.
  split.
  - destruct (tcopy_strided float 2 [one float; zero; one float] 2 (-2)
                (repeat zero 6) 4 (-3)) as (_ & H & _);
      [lia|left; reflexivity|].
    apply H; [lia|simpl; lia].
  - destruct (tcopy_strided double 2 [one double; one double] 0 1 (repeat zero 6)
                1 3) as (_ & H & _);
      [lia|right; lia|].
    apply H; [lia|simpl; lia].
Defined.

(** X4.  [axpy] with a stride [incy] other than zero, on a vector [x] of numbers
    of [real_t]: the [n] targets become [y[yo + i*incy] + alpha * x[xo +
    i*incx]] with [alpha] narrowed to [real_t] once, whichever path [saxpy]
    takes; every other element of [y] is kept, and so is its length.  At
    [float] this is the [saxpy] of the file, for every factor and strides of
    either sign; at [double] it is the linked [daxpy], which returns at once
    for a factor of zero and walks a vector with a negative stride from its
    far end, and the statement is for a factor other than zero and positive
    strides. *)
Theorem axpy_strided (t : real_t) (n : Z) (alpha : real) (x : list real) (xo incx : Z)
    (y : list real) (yo incy : Z) :
  incy <> 0 -> Forall (fun b => valid t b = true) x ->
  t = float \/ (0 < incx /\ 0 < incy /\ nonzero alpha = true) ->
  length (axpy t n alpha x xo incx y yo incy) = length y /\
  (forall i, 0 <= i < n -> 0 <= yo + i * incy < Z.of_nat (length y) ->
     getr (axpy t n alpha x xo incx y yo incy) (yo + i * incy)
     = add t (getr y (yo + i * incy))
             (mul t (of_double t alpha) (getr x (xo + i * incx)))) /\
  (forall q, (forall i, 0 <= i < n -> q <> yo + i * incy) ->
     getr (axpy t n alpha x xo incx y yo incy) q = getr y q).
Proof.
  intros Hinc Hx _.
  assert (Hv : forall q, valid t (getr x q) = true).
  { intros q. destruct (Z.lt_ge_cases q 0) as [Hneg|Hnn];
      [unfold getr; rewrite get_outside by lia; now destruct t|].
    destruct (Z.lt_ge_cases q (Z.of_nat (length x))) as [Hin|Hout];
      [|unfold getr; rewrite get_outside by lia; now destruct t].
    rewrite Forall_forall in Hx. apply Hx. apply get_In. lia. }
  assert (E : axpy t n alpha x xo incx y yo incy
              = for_loop 0 n (fun i y =>
                  set y (yo + i * incy)
                    ((fun i v => add t v (mul t (of_double t alpha)
                                            (getr x (xo + i * incx))))
                       i (getr y (yo + i * incy)))) y).
  { unfold axpy. destruct t; [reflexivity|]. cbv zeta. unfold saxpy.
    destruct ((incx =? 1) && (incy =? 1) && eqb (of_double float alpha) (one float))
      eqn:Hpath; [|reflexivity].
    apply andb_prop in Hpath. destruct Hpath as [Hs Ha].
    apply andb_prop in Hs. destruct Hs as [Hi1 Hi2].
    apply Z.eqb_eq in Hi1, Hi2. subst incx incy.
    apply FloatOne.eqb_one in Ha. unfold saxpy_add_path.
    apply for_loop_ext. intros i s _. rewrite !Z.mul_1_r, Ha.
    now rewrite FloatOne.mul_one_l by apply Hv. }
  rewrite E.
  apply (updates_get (fun i => yo + i * incy)
           (fun i v => add t v (mul t (of_double t alpha) (getr x (xo + i * incx))))).
  intros a b _ _. now apply stride_injective.
Qed.

Lemma axpy_strided_witness :
  getr (axpy float 2 zero [one float; zero; one float] 2 (-2) (repeat zero 6) 4 (-3))
       (4 + 1 * (-3))
  = add float (getr (repeat zero 6) (4 + 1 * (-3)))
      (mul float (of_double float zero)
         (getr [one float; zero; one float] (2 + 1 * (-2)))) /\
  getr (axpy double 2 (of_int 2) [one double; one double] 0 1 (repeat zero 6) 1 3)
       (1 + 1 * 3)
  = add double (getr (repeat zero 6) (1 + 1 * 3))
      (mul double (of_double double (of_int 2))
         (getr [one double; one double] (0 + 1 * 1))).
Proof.
  split.
  - destruct (axpy_strided float 2 zero [one float; zero; one float] 2 (-2)
                (repeat zero 6) 4 (-3)) as (_ & H & _);
      [lia|repeat constructor|left; reflexivity|].
    apply H; [lia|simpl; lia].
  - destruct (axpy_strided double 2 (of_int 2) [one double; one double] 0 1
                (repeat zero 6) 1 3) as (_ & H & _);
      [lia|repeat constructor|right; repeat split; lia|].
    apply H; [lia|simpl; lia].
Defined.

(** ** Materialize mode overwrites the rows with entries *)

(** With a guard that holds, a valid matrix has no row with entries. *)
Lemma guard_no_entries m k indptr indices values row :
  csr_valid m k indptr indices values = true ->
  (m <=? 0) || (geti indptr 0 =? geti indptr m) = true ->
  0 <= row < m -> has_entries indptr row = false.
Proof.
  intros Hvalid Hg Hrow. apply orb_prop in Hg. destruct Hg as [Hm|He].
  - apply Z.leb_le in Hm. lia.
  - apply Z.eqb_eq in He. unfold has_entries. apply Z.ltb_ge.
    pose proof (csr_monotone_from _ _ _ _ _ Hvalid 0 row ltac:(lia) ltac:(lia)).
    pose proof (csr_monotone_from _ _ _ _ _ Hvalid (row + 1) m ltac:(lia) ltac:(lia)).
    lia.
Qed.

(** The rows of materialize mode, run in order: a row with entries stores
    its sums, computed from zero, at its strided positions; the other rows
    store nothing. *)
Lemma pure_rows_get t n indptr indices values DenseMat ldb ldc m (O : list real) :
  0 <= m <= ldc ->
  length (for_loop 0 m (pure_row t n indptr indices values DenseMat ldb ldc) O)
  = length O /\
  forall row i, 0 <= row < m -> 0 <= i < n ->
    0 <= row + i * ldc < Z.of_nat (length O) ->
    getr (for_loop 0 m (pure_row t n indptr indices values DenseMat ldb ldc) O)
         (row + i * ldc)
    = if has_entries indptr row
      then sparse_sum t indptr indices values DenseMat ldb row i zero
      else getr O (row + i * ldc).
Proof.
  intros Hm.
  assert (H : length (for_loop 0 m (pure_row t n indptr indices values DenseMat ldb ldc) O)
              = length O /\
              forall row i, 0 <= row < m -> 0 <= i < n ->
                0 <= row + i * ldc < Z.of_nat (length O) ->
                getr (for_loop 0 m (pure_row t n indptr indices values DenseMat ldb ldc) O)
                     (row + i * ldc)
                = if (row <? m) && has_entries indptr row
                  then sparse_sum t indptr indices values DenseMat ldb row i zero
                  else getr O (row + i * ldc)).
  { apply (for_loop_ind (fun i0 O' =>
      length O' = length O /\
      forall row i, 0 <= row < m -> 0 <= i < n ->
        0 <= row + i * ldc < Z.of_nat (length O) ->
        getr O' (row + i * ldc)
        = if (row <? i0) && has_entries indptr row
          then sparse_sum t indptr indices values DenseMat ldb row i zero
          else getr O (row + i * ldc))); [lia| |].
    - split; [reflexivity|]. intros row i Hrow _ _.
      destruct (Z.ltb_spec row 0); [lia|reflexivity].
    - intros i0 O' Hi0 [Hl Hg]. unfold pure_row at 1 2.
      destruct (has_entries indptr i0) eqn:Hrow0.
      + unfold row_copy.
        destruct (updates_get (fun a => i0 + a * ldc)
                    (fun a _ => sparse_sum t indptr indices values DenseMat ldb i0 a zero)
                    n O') as (Hl' & Hdone & Hrest).
        { intros a b _ _ E. nia. }
        cbv beta in Hl', Hdone, Hrest. split; [congruence|].
        intros row i Hr Hi Hb. destruct (Z.eq_dec row i0) as [->|Hne].
        * rewrite Hdone by (try assumption; lia). rewrite Hrow0.
          now destruct (Z.ltb_spec i0 (i0 + 1)); [|lia].
        * rewrite Hrest by (intros a Ha; apply stride_distinct; lia).
          rewrite Hg by assumption.
          destruct (Z.ltb_spec row i0), (Z.ltb_spec row (i0 + 1)); try lia; reflexivity.
      + split; [assumption|]. intros row i Hr Hi Hb. rewrite Hg by assumption.
        destruct (Z.eq_dec row i0) as [->|Hne].
        * rewrite Hrow0, !Bool.andb_false_r. reflexivity.
        * destruct (Z.ltb_spec row i0), (Z.ltb_spec row (i0 + 1)); try lia; reflexivity. }
  destruct H as [Hl Hg]. split; [assumption|].
  intros row i Hr Hi Hb. rewrite Hg by assumption.
  now destruct (Z.ltb_spec row m); [|lia].
Qed.

(** With a scratch buffer that is long enough, the kernel is the loop of its
    rows, with or without the guard at its top. *)
Lemma gemm_csr_drm_as_dcm_loop uninit t m k n indptr indices values DenseMat ldb
    OutputMat ldc nthreads :
  csr_valid m k indptr indices values = true ->
  n <= ldb -> ldb <= ldc -> m <= ldc ->
  gemm_csr_drm_as_dcm uninit t m n indptr indices values DenseMat ldb OutputMat ldc
    nthreads
  = Ok (for_loop 0 m (pure_row t n indptr indices values DenseMat ldb ldc) OutputMat).
Proof.
  intros Hvalid Hn Hldb Hm.
  pose proof (csr_nrows_nonneg _ _ _ _ _ Hvalid) as Hm0.
  rewrite gemm_csr_drm_as_dcm_run by assumption.
  destruct ((m <=? 0) || (geti indptr 0 =? geti indptr m)) eqn:Hg.
  - f_equal. symmetry.
    destruct (Z.eq_dec m 0) as [->|Hne]; [now rewrite for_loop_empty by lia|].
    apply (for_loop_ind (fun _ O => O = OutputMat)); [lia|reflexivity|].
    intros i O Hi ->. unfold pure_row.
    now rewrite (guard_no_entries m k indptr indices values i Hvalid Hg Hi).
  - unfold run_rows.
    assert (Hfits : scratch_fits n ldb ldc = true).
    { unfold scratch_fits, in_bounds. rewrite repeat_length.
      apply andb_true_intro. split; apply Bool.orb_true_iff; right; apply Z.leb_le; lia. }
    rewrite Hfits. cbn [orb]. now rewrite <- for_loop_fold.
Qed.



(** ** [tcrossprod_csr_dense]: the product, and when the scratch buffer is overrun *)

Lemma no_entries_no_growth indptr (k : nat) :
  (forall r, 0 <= r < Z.of_nat k -> has_entries indptr r = false) ->
  geti indptr (Z.of_nat k) <= geti indptr 0.
Proof.
  induction k as [|k IH]; intros H; [simpl; lia|].
  assert (Hk : has_entries indptr (Z.of_nat k) = false) by (apply H; lia).
  unfold has_entries in Hk. apply Z.ltb_ge in Hk.
  replace (Z.of_nat (S k)) with (Z.of_nat k + 1) by lia.
  etransitivity; [exact Hk|]. apply IH. intros r Hr. apply H. lia.
Qed.

(** A matrix whose row pointers grow somewhere has a row with entries. *)
Lemma some_row_has_entries indptr m :
  0 <= m -> geti indptr 0 < geti indptr m ->
  existsb (has_entries indptr) (range 0 m) = true.
Proof.
  intros Hm Hlt. destruct (existsb (has_entries indptr) (range 0 m)) eqn:E;
    [reflexivity|exfalso].
  pose proof (no_entries_no_growth indptr (Z.to_nat m)) as H.
  rewrite Z2Nat.id in H by assumption.
  assert (geti indptr m <= geti indptr 0); [|lia].
  apply H. intros r Hr. destruct (has_entries indptr r) eqn:Er; [|reflexivity].
  assert (Hex : existsb (has_entries indptr) (range 0 m) = true).
  { apply existsb_exists. exists r. split; [now apply in_range|assumption]. }
  congruence.
Qed.

(** X6.  [tcrossprod_csr_dense] writes outside its scratch buffer exactly when
    the dense operand has more rows than the sparse one and the sparse one
    has a stored entry. *)
Theorem tcrossprod_csr_dense_overrun_iff (uninit : real) (t : real_t) (m k : Z)
    (X_csr_indptr X_csr_indices : list Z) (X_csr_values Y_colmajor : list real)
    (Y_nrow nthreads : Z) :
  csr_valid m k X_csr_indptr X_csr_indices X_csr_values = true ->
  (tcrossprod_csr_dense uninit t X_csr_indptr X_csr_indices X_csr_values
     Y_colmajor Y_nrow nthreads = OutOfBounds
   <-> m < Y_nrow /\ X_csr_indices <> []).
Proof.
  intros Hvalid.
  destruct (csr_parts _ _ _ _ _ Hvalid) as (_ & Hlen & H0 & Hlast & _ & Hmono & _ & _ & Hm).
  assert (Hnil : X_csr_indices = [] <-> Z.of_nat (length X_csr_indices) = 0).
  { destruct X_csr_indices; simpl; split; intros; try reflexivity; try discriminate; lia. }
  unfold tcrossprod_csr_dense. cbv zeta.
  replace (Z.of_nat (length X_csr_indptr) - 1) with m by lia.
  rewrite gemm_csr_drm_as_dcm_run by lia.
  destruct ((m <=? 0) || (geti X_csr_indptr 0 =? geti X_csr_indptr m)) eqn:Hg.
  - split; [discriminate|]. intros [_ Hne]. exfalso. apply Hne. apply Hnil.
    apply orb_prop in Hg. destruct Hg as [Hg|Hg];
      [apply Z.leb_le in Hg; assert (m = 0) by lia; subst m; lia
      |apply Z.eqb_eq in Hg; lia].
  - apply Bool.orb_false_iff in Hg. destruct Hg as [Hpos Hgrow].
    apply Z.leb_gt in Hpos. apply Z.eqb_neq in Hgrow.
    pose proof (csr_monotone_from _ _ _ _ _ Hvalid 0 m ltac:(lia) ltac:(lia)) as Hle.
    unfold run_rows. rewrite some_row_has_entries by lia. cbn [negb].
    rewrite Bool.orb_false_r.
    unfold scratch_fits, in_bounds. rewrite repeat_length, Bool.andb_diag.
    rewrite Z2Nat.id by assumption.
    destruct (Z.leb_spec Y_nrow 0), (Z.leb_spec Y_nrow m); cbn [orb]; split;
      try discriminate; try reflexivity; try lia.
    intros _. split; [lia|]. intros E. apply Hnil in E. lia.
Qed.

Lemma tcrossprod_csr_dense_overrun_iff_witness :
  tcrossprod_csr_dense S754_nan double [0; 1] [0] [of_int 1]
    [of_int 1; of_int 1; of_int 1] 3 1 = OutOfBounds
  <-> 1 < 3 /\ [0] <> [].
Proof.
  apply (tcrossprod_csr_dense_overrun_iff S754_nan double 1 1 [0; 1] [0] [of_int 1]
           [of_int 1; of_int 1; of_int 1] 3 1).
  reflexivity.
Defined.



(** ** The two modes compute the same numbers *)

(** X8.  On zeroed outputs, materialize mode returns the transpose of what
    accumulate mode returns, bit for bit: the element [(row, i)] of the
    column-major result of [gemm_csr_drm_as_dcm] is the element [(row, i)]
    of the row-major result of [gemm_csr_drm_as_drm]. *)
Theorem materialize_is_transposed_accumulate (uninit : real) (t : real_t) (m k n : Z)
    (indptr indices : list Z) (values DenseMat : list real) (ldb : Z)
    (ldc_rowmajor ldc_colmajor : Z) (len_rowmajor len_colmajor : nat) (nthreads : Z) :
  csr_valid m k indptr indices values = true ->
  n <= ldb -> ldb <= ldc_colmajor -> m <= ldc_colmajor -> n <= ldc_rowmajor ->
  exists out,
    gemm_csr_drm_as_dcm uninit t m n indptr indices values DenseMat ldb
      (repeat zero len_colmajor) ldc_colmajor nthreads = Ok out /\
    forall row i, 0 <= row < m -> 0 <= i < n ->
      row * ldc_rowmajor + i < Z.of_nat len_rowmajor ->
      row + i * ldc_colmajor < Z.of_nat len_colmajor ->
      getr out (row + i * ldc_colmajor)
      = getr (gemm_csr_drm_as_drm t m n indptr indices values DenseMat ldb
                (repeat zero len_rowmajor) ldc_rowmajor nthreads)
             (row * ldc_rowmajor + i).
Proof.
  intros Hvalid Hn Hldb Hm Hnr.
  pose proof (csr_nrows_nonneg _ _ _ _ _ Hvalid) as Hm0.
  rewrite (gemm_csr_drm_as_dcm_loop uninit t m k) by assumption.
  rewrite (gemm_csr_drm_as_drm_loop t m k) by assumption.
  destruct (pure_rows_get t n indptr indices values DenseMat ldb ldc_colmajor m
              (repeat zero len_colmajor) ltac:(lia)) as [_ Hget].
  eexists. split; [reflexivity|].
  intros row i Hrow Hi Hbr Hbc.
  rewrite Hget by (try assumption; rewrite repeat_length; nia).
  rewrite drm_rows_element by (try assumption; rewrite repeat_length; nia).
  rewrite !getr_repeat_zero. unfold has_entries.
  destruct (Z.ltb_spec (geti indptr row) (geti indptr (row + 1))); [reflexivity|].
  unfold sparse_sum. now rewrite for_loop_empty.
Qed.

Lemma materialize_is_transposed_accumulate_witness :
  exists out,
    gemm_csr_drm_as_dcm S754_nan double 3 3 [0; 2; 2; 3] [0; 1; 2]
      [of_int 1; of_int 2; of_int 3] (identity3 double) 3 (repeat zero 9) 3 1 = Ok out /\
    forall row i, 0 <= row < 3 -> 0 <= i < 3 ->
      row * 3 + i < Z.of_nat 9 -> row + i * 3 < Z.of_nat 9 ->
      getr out (row + i * 3)
      = getr (gemm_csr_drm_as_drm double 3 3 [0; 2; 2; 3] [0; 1; 2]
                [of_int 1; of_int 2; of_int 3] (identity3 double) 3 (repeat zero 9) 3 1)
             (row * 3 + i).
Proof.
  apply (materialize_is_transposed_accumulate S754_nan double 3 3 3 [0; 2; 2; 3]
           [0; 1; 2] [of_int 1; of_int 2; of_int 3] (identity3 double) 3 3 3 9%nat
           9%nat 1); [reflexivity|lia|lia|lia|lia].
Defined.

(** ** Row vector times sparse matrix *)

(** A loop over the columns in which every column accumulates into its own
    element, which is zero until the column is reached, stores at every
    column what a local accumulator started at zero would hold. *)
Lemma inplace_columns (g : Z -> Z -> real -> real) (lo hi : Z -> Z) n (out : list real) :
  (forall c, getr out c = zero) ->
  for_loop 0 n (fun col out =>
    for_loop (lo col) (hi col) (fun ix out =>
      set out col (g col ix (getr out col))) out) out
  = for_loop 0 n (fun col out =>
      set out col (for_loop (lo col) (hi col) (g col) zero)) out.
Proof.
  intros Hzero.
  destruct (Z.le_gt_cases n 0) as [Hn|Hn]; [now rewrite !for_loop_empty by lia|].
  assert (H : for_loop 0 n (fun col out =>
                for_loop (lo col) (hi col) (fun ix out =>
                  set out col (g col ix (getr out col))) out) out
              = for_loop 0 n (fun col out =>
                  set out col (for_loop (lo col) (hi col) (g col) zero)) out /\
              forall c, n <= c ->
                getr (for_loop 0 n (fun col out =>
                  for_loop (lo col) (hi col) (fun ix out =>
                    set out col (g col ix (getr out col))) out) out) c = zero).
  { apply (for_loop_ind (fun i s =>
      s = for_loop 0 i (fun col out =>
            set out col (for_loop (lo col) (hi col) (g col) zero)) out /\
      forall c, i <= c -> getr s c = zero)); [lia| |].
    - split; [now rewrite for_loop_empty by lia|]. intros c _. apply Hzero.
    - intros i s Hi [Hs Hrest].
      assert (E : for_loop (lo i) (hi i) (fun ix out =>
                    set out i (g i ix (getr out i))) s
                  = set s i (for_loop (lo i) (hi i) (g i) zero)).
      { unfold getr. rewrite (inplace_accumulate zero (g i)).
        fold (getr s i). now rewrite Hrest by lia. }
      rewrite E. split.
      + rewrite (for_loop_last 0 (i + 1)) by lia.
        replace (i + 1 - 1) with i by lia. now rewrite <- Hs.
      + intros c Hc. unfold getr. rewrite get_set_other by lia. apply Hrest. lia. }
  apply H.
Qed.

(** X9.  [matmul_rowvec_by_csc] returns, bit for bit, what the float32 variant of
    [matmul_csr_dvec] returns on the same arrays: accumulating into
    [out[col]] is accumulating into a local [float] that starts at zero. *)
Theorem matmul_rowvec_by_csc_as_dvec (rowvec : list real) (indptr indices : list Z)
    (values : list real) (nthreads : Z) :
  matmul_rowvec_by_csc rowvec indptr indices values
  = matmul_csr_dvec indptr indices values (FloatVector rowvec) nthreads.
Proof.
  unfold matmul_rowvec_by_csc, matmul_csr_dvec. cbv zeta.
  rewrite (inplace_columns
             (fun _ ix acc =>
                add_assign float acc
                  (mul double (getr values ix)
                     (to_double float (getr rowvec (geti indices ix)))))
             (fun col => geti indptr col) (fun col => geti indptr (col + 1)))
    by (intros c; apply getr_repeat_zero).
  reflexivity.
Qed.

Lemma matmul_rowvec_by_cscbin_column (rowvec : list real) (indptr indices : list Z) col :
  0 <= col < Z.of_nat (length indptr) - 1 ->
  getr (matmul_rowvec_by_cscbin rowvec indptr indices) col
  = for_loop (geti indptr col) (geti indptr (col + 1)) (fun ix acc =>
      add float acc (getr rowvec (geti indices ix))) zero.
Proof.
  intros Hcol. unfold matmul_rowvec_by_cscbin. cbv zeta.
  rewrite (inplace_columns
             (fun _ ix acc => add float acc (getr rowvec (geti indices ix)))
             (fun col => geti indptr col) (fun col => geti indptr (col + 1)))
    by (intros c; apply getr_repeat_zero).
  unfold getr.
  apply (for_loop_set_get zero
           (fun col => for_loop (geti indptr col) (geti indptr (col + 1))
                         (fun ix acc => add float acc (get zero rowvec (geti indices ix)))
                         zero)); [lia|].
  rewrite repeat_length. lia.
Qed.

Lemma matmul_rowvec_by_cscbin_length (rowvec : list real) (indptr indices : list Z) :
  length (matmul_rowvec_by_cscbin rowvec indptr indices)
  = Z.to_nat (Z.of_nat (length indptr) - 1).
Proof.
  unfold matmul_rowvec_by_cscbin. cbv zeta.
  rewrite (inplace_columns
             (fun _ ix acc => add float acc (getr rowvec (geti indices ix)))
             (fun col => geti indptr col) (fun col => geti indptr (col + 1)))
    by (intros c; apply getr_repeat_zero).
  destruct (Z.le_gt_cases (Z.of_nat (length indptr) - 1) 0) as [Hn|Hn];
    [rewrite for_loop_empty by lia; apply repeat_length|].
  apply (for_loop_ind (fun _ (s : list real) =>
           length s = Z.to_nat (Z.of_nat (length indptr) - 1))); [lia| |].
  - apply repeat_length.
  - intros i s _ Hs. now rewrite length_set.
Qed.

(** X10.  [matmul_rowvec_by_cscbin] returns one element for every column; a
    column without entries gives [0.0], and a column with a single entry
    selects the element of the vector at its index, unchanged except that
    [-0.0] is returned as [+0.0]: with a selection or permutation matrix
    the result is the selected elements of the vector. *)
Theorem matmul_rowvec_by_cscbin_selects (rowvec : list real) (indptr indices : list Z)
    (col : Z) :
  0 <= col < Z.of_nat (length indptr) - 1 ->
  length (matmul_rowvec_by_cscbin rowvec indptr indices)
  = Z.to_nat (Z.of_nat (length indptr) - 1) /\
  (geti indptr (col + 1) <= geti indptr col ->
   getr (matmul_rowvec_by_cscbin rowvec indptr indices) col = zero) /\
  (geti indptr (col + 1) = geti indptr col + 1 ->
   getr (matmul_rowvec_by_cscbin rowvec indptr indices) col
   = getr rowvec (geti indices (geti indptr col)) \/
   (getr rowvec (geti indices (geti indptr col)) = neg_zero /\
    getr (matmul_rowvec_by_cscbin rowvec indptr indices) col = zero)).
Proof.
  intros Hcol. split; [apply matmul_rowvec_by_cscbin_length|].
  rewrite matmul_rowvec_by_cscbin_column by assumption. split.
  - intros Hempty. now rewrite for_loop_empty.
  - intros Hone. rewrite Hone.
    rewrite (for_loop_last _ (geti indptr col + 1)) by lia.
    replace (geti indptr col + 1 - 1) with (geti indptr col) by lia.
    rewrite for_loop_empty by lia. apply add_zero_l.
Qed.

Lemma matmul_rowvec_by_cscbin_selects_witness :
  getr (matmul_rowvec_by_cscbin [one float; zero] [0; 1; 1; 2] [1; 0]) 2
  = getr [one float; zero] (geti [1; 0] (geti [0; 1; 1; 2] 2)) \/
  (getr [one float; zero] (geti [1; 0] (geti [0; 1; 1; 2] 2)) = neg_zero /\
   getr (matmul_rowvec_by_cscbin [one float; zero] [0; 1; 1; 2] [1; 0]) 2 = zero).
Proof.
  apply (matmul_rowvec_by_cscbin_selects [one float; zero] [0; 1; 1; 2] [1; 0] 2);
    [simpl; lia|reflexivity].
Defined.

(** ** The merge loop always ends *)

(** Whatever the array holds, the bisection returns a position of the range
    it is given. *)
Lemma lower_bound_loop_range (a : list Z) (val : Z) (fuel : nat) : forall first len,
  0 <= len ->
  first <= lower_bound_loop fuel a first len val <= first + len.
Proof.
  induction fuel as [|fuel IH]; intros first len Hlen; [simpl; lia|].
  cbn [lower_bound_loop].
  destruct (Z.ltb_spec 0 len) as [Hpos|Hzero]; [|lia].
  assert (Hhalf : 0 <= len / 2 < len)
    by (split; [apply Z.div_pos; lia|apply Z.div_lt; lia]).
  destruct (geti a (first + len / 2) <? val).
  - pose proof (IH (first + len / 2 + 1) (len - len / 2 - 1) ltac:(lia)). lia.
  - pose proof (IH first (len / 2) ltac:(lia)). lia.
Qed.






(** ** Integer and logical vectors without missing values *)

Lemma getr_map_int (g : Z -> real) (y : list Z) i :
  g 0 = zero -> getr (map g y) i = g (geti y i).
Proof.
  intros Hg. unfold getr, geti, get. destruct (i <? 0); [now rewrite Hg|].
  rewrite <- Hg at 1. apply map_nth.
Qed.

Lemma geti_not_missing (y : list Z) i :
  Forall (fun v => v <> NA_INTEGER) y -> geti y i <> NA_INTEGER.
Proof.
  intros Hy.
  destruct (Z.lt_ge_cases i 0) as [Hneg|Hnn];
    [unfold geti; rewrite get_outside by lia; discriminate|].
  destruct (Z.lt_ge_cases i (Z.of_nat (length y))) as [Hin|Hout];
    [|unfold geti; rewrite get_outside by lia; discriminate].
  rewrite Forall_forall in Hy. apply Hy. apply get_In. lia.
Qed.

Lemma int_value_zero logical : int_value logical 0 = zero.
Proof. now destruct logical. Qed.

(** The loop of a row sees the values of the sparse vector only through
    the terms of the matched pairs. *)
Lemma svec_loop_ext X_csr_indices X_csr_values y_indices_base1 y_values y_values'
    end1 end_y (fuel : nat) :
  (forall x pos, svec_term y_values x pos = svec_term y_values' x pos) ->
  forall ptr1 ptr2 acc,
    svec_loop fuel X_csr_indices X_csr_values y_indices_base1 y_values
      end1 end_y ptr1 ptr2 acc
    = svec_loop fuel X_csr_indices X_csr_values y_indices_base1 y_values'
        end1 end_y ptr1 ptr2 acc.
Proof.
  intros Hterm. induction fuel as [|fuel IH]; intros ptr1 ptr2 acc; [reflexivity|].
  cbn [svec_loop]. rewrite Hterm, !IH. reflexivity.
Qed.

Lemma matmul_csr_svec_ext X_csr_indptr X_csr_indices X_csr_values y_indices_base1
    y_values y_values' nthreads :
  (forall x pos, svec_term y_values x pos = svec_term y_values' x pos) ->
  matmul_csr_svec X_csr_indptr X_csr_indices X_csr_values y_indices_base1 y_values
    nthreads
  = matmul_csr_svec X_csr_indptr X_csr_indices X_csr_values y_indices_base1 y_values'
      nthreads.
Proof.
  intros Hterm. unfold matmul_csr_svec. cbv zeta.
  destruct (Z.of_nat (length y_indices_base1) =? 0); [reflexivity|].
  apply for_loop_ext. intros row [out|] _; [|reflexivity]. cbn [option_bind].
  unfold svec_row. cbv zeta. now rewrite (svec_loop_ext _ _ _ y_values y_values').
Qed.

(** X12.  An integer or logical vector without a missing value gives, bit for
    bit, what the numeric variant gives on the vector converted to doubles
    (a logical element other than zero counting as one): in
    [matmul_csr_dvec] and in [matmul_csr_svec]. *)
Theorem integer_variants_as_numeric :
  (forall (X_csr_indptr X_csr_indices : list Z) (X_csr_values : list real)
          (logical : bool) (y : list Z) (nthreads : Z),
      Forall (fun v => v <> NA_INTEGER) y ->
      matmul_csr_dvec X_csr_indptr X_csr_indices X_csr_values (int_vector logical y)
        nthreads
      = matmul_csr_dvec X_csr_indptr X_csr_indices X_csr_values
          (NumericVector (map (int_value logical) y)) nthreads) /\
  (forall (X_csr_indptr X_csr_indices : list Z) (X_csr_values : list real)
          (y_indices_base1 y : list Z) (nthreads : Z),
      Forall (fun v => v <> NA_INTEGER) y ->
      matmul_csr_svec X_csr_indptr X_csr_indices X_csr_values y_indices_base1
        (SInteger y) nthreads
      = matmul_csr_svec X_csr_indptr X_csr_indices X_csr_values y_indices_base1
          (SNumeric (map (int_value false) y)) nthreads /\
      matmul_csr_svec X_csr_indptr X_csr_indices X_csr_values y_indices_base1
        (SLogical y) nthreads
      = matmul_csr_svec X_csr_indptr X_csr_indices X_csr_values y_indices_base1
          (SNumeric (map (int_value true) y)) nthreads).
Proof.
  split.
  - intros X_csr_indptr X_csr_indices X_csr_values logical y nthreads Hy.
    unfold matmul_csr_dvec. cbv zeta. apply for_loop_ext. intros row out _. f_equal.
    unfold dvec_row.
    assert (HT : OutputDType (int_vector logical y) = double) by (now destruct logical).
    rewrite HT. cbn [OutputDType]. apply for_loop_ext. intros ix val _. f_equal.
    pose proof (geti_not_missing y (geti X_csr_indices ix) Hy) as Hne.
    unfold dvec_term. rewrite (getr_map_int _ _ _ (int_value_zero logical)).
    destruct logical; cbn [int_vector int_value]; unfold NA_LOGICAL; fold NA_INTEGER;
      destruct (Z.eqb_spec (geti y (geti X_csr_indices ix)) NA_INTEGER);
      try contradiction; reflexivity.
  - intros X_csr_indptr X_csr_indices X_csr_values y_indices_base1 y nthreads Hy.
    split; apply matmul_csr_svec_ext; intros x pos;
      pose proof (geti_not_missing y pos Hy) as Hne;
      unfold svec_term;
      [rewrite (getr_map_int _ _ _ (int_value_zero false))
      |rewrite (getr_map_int _ _ _ (int_value_zero true))];
      cbn [int_value]; unfold NA_LOGICAL; fold NA_INTEGER;
      destruct (Z.eqb_spec (geti y pos) NA_INTEGER); try contradiction; reflexivity.
Qed.

Lemma integer_variants_as_numeric_witness :
  matmul_csr_dvec [0; 2; 3] [0; 1; 0] [of_int 1; of_int 2; of_int 3]
    (int_vector true [5; 0]) 1
  = matmul_csr_dvec [0; 2; 3] [0; 1; 0] [of_int 1; of_int 2; of_int 3]
      (NumericVector (map (int_value true) [5; 0])) 1 /\
  matmul_csr_svec [0; 3] [1; 3; 5] [of_int 1; of_int 2; of_int 3] [4; 6]
    (SInteger [10; 20]) 1
  = matmul_csr_svec [0; 3] [1; 3; 5] [of_int 1; of_int 2; of_int 3] [4; 6]
      (SNumeric (map (int_value false) [10; 20])) 1.
Proof.
  split.
  - apply (proj1 integer_variants_as_numeric [0; 2; 3] [0; 1; 0]
             [of_int 1; of_int 2; of_int 3] true [5; 0] 1).
    repeat constructor; discriminate.
  - apply (proj2 integer_variants_as_numeric [0; 3] [1; 3; 5]
             [of_int 1; of_int 2; of_int 3] [4; 6] [10; 20] 1).
    repeat constructor; discriminate.
Defined.

(** ** The entries of the outer product of two sparse vectors *)

Lemma range_last lo hi : lo < hi -> range lo hi = range lo (hi - 1) ++ [hi - 1].
Proof.
  intros H. unfold range.
  replace (Z.to_nat (hi - lo)) with (Z.to_nat (hi - 1 - lo) + 1)%nat by lia.
  rewrite seq_app, map_app. cbn [seq map Nat.add]. f_equal. f_equal. lia.
Qed.

(** A loop over the positions of a list, reading the element at each, is a
    fold over the list. *)
Lemma for_loop_elements {S : Type} (f : Z -> S -> S) (l : list Z) (s : S) :
  for_loop 0 (Z.of_nat (length l)) (fun ix s => f (geti l ix) s) s
  = fold_left (fun s v => f v s) l s.
Proof.
  revert s. induction l as [|v l IH] using rev_ind; intros s; [reflexivity|].
  rewrite fold_left_app, length_app. cbn [length fold_left].
  rewrite (for_loop_last 0) by lia.
  replace (Z.of_nat (length l + 1) - 1) with (Z.of_nat (length l)) by lia.
  assert (Hv : geti (l ++ [v]) (Z.of_nat (length l)) = v).
  { unfold geti, get. destruct (Z.ltb_spec (Z.of_nat (length l)) 0); [lia|].
    rewrite Nat2Z.id, app_nth2, Nat.sub_diag by lia. reflexivity. }
  rewrite Hv. f_equal. rewrite <- IH. apply for_loop_ext. intros ix s' Hix. f_equal.
  unfold geti, get. destruct (Z.ltb_spec ix 0); [lia|].
  apply app_nth1. lia.
Qed.

(** The loop over the rows for one entry of the sparse vector appends the
    rows with entries and, for each, the value of the pair. *)
Lemma spcolvec_col_spec X_csr_indptr X_csr_values y_indices_base1 y_values ix st :
  spcolvec_col X_csr_indptr X_csr_values y_indices_base1 y_values ix st
  = {| ps_indptr := set (ps_indptr st) (geti y_indices_base1 ix - 1 + 1)
                      (Z.of_nat (length (nonempty_rows X_csr_indptr)));
       ps_indices := ps_indices st ++ nonempty_rows X_csr_indptr;
       ps_values := ps_values st ++
         map (fun row => spcolvec_value y_values (geti y_indices_base1 ix - 1)
                           (getr X_csr_values (geti X_csr_indptr row)))
             (nonempty_rows X_csr_indptr) |}.
Proof.
  unfold spcolvec_col, nonempty_rows. cbv zeta.
  set (dim2 := Z.of_nat (length X_csr_indptr) - 1).
  set (col := geti y_indices_base1 ix - 1).
  set (val := fun row => spcolvec_value y_values col
                           (getr X_csr_values (geti X_csr_indptr row))).
  set (body := fun (row : Z) '(out_csc_indices, out_csc_values, ncurr) =>
          if geti X_csr_indptr row <? geti X_csr_indptr (row + 1)
          then (out_csc_indices ++ [row], out_csc_values ++ [val row], ncurr + 1)
          else (out_csc_indices, out_csc_values, ncurr)).
  assert (H : forall n, 0 <= n ->
            for_loop 0 n body (ps_indices st, ps_values st, 0)
            = (ps_indices st ++ filter (has_entries X_csr_indptr) (range 0 n),
               ps_values st ++ map val (filter (has_entries X_csr_indptr) (range 0 n)),
               Z.of_nat (length (filter (has_entries X_csr_indptr) (range 0 n))))).
  { intros n Hn. destruct (Z.eq_dec n 0) as [->|Hne].
    { rewrite for_loop_empty by lia. rewrite range_empty by lia. cbn [filter map length].
      now rewrite !app_nil_r. }
    apply (for_loop_ind (fun i s =>
      s = (ps_indices st ++ filter (has_entries X_csr_indptr) (range 0 i),
           ps_values st ++ map val (filter (has_entries X_csr_indptr) (range 0 i)),
           Z.of_nat (length (filter (has_entries X_csr_indptr) (range 0 i)))))); [lia| |].
    - rewrite range_empty by lia. cbn [filter map length]. now rewrite !app_nil_r.
    - intros i s Hi ->. rewrite (range_last 0 (i + 1)) by lia.
      replace (i + 1 - 1) with i by lia.
      rewrite filter_app. cbn [filter]. unfold body, has_entries.
      destruct (geti X_csr_indptr i <? geti X_csr_indptr (i + 1)).
      + rewrite map_app, length_app, !app_assoc. cbn [map length]. f_equal. lia.
      + now rewrite !app_nil_r. }
  destruct (Z.le_gt_cases 0 dim2) as [Hd|Hd].
  - fold body. rewrite H by assumption. reflexivity.
  - fold body. rewrite for_loop_empty by lia. rewrite range_empty by lia.
    cbn [filter map length]. now rewrite !app_nil_r.
Qed.

(** X13.  The entries [matmul_spcolvec_by_scolvecascsr] returns: for every entry
    of the sparse vector, in the order of its entries, the rows of the
    matrix that have stored entries, in ascending order, each with the value
    of the pair; the value of the vector is read at the entry's index
    ([y_values[y_indices_base1[ix] - 1]]), and the value of the row is the
    one stored first. *)
Theorem matmul_spcolvec_by_scolvecascsr_entries (X_csr_indptr X_csr_indices : list Z)
    (X_csr_values : list real) (y_indices_base1 : list Z) (y_values : spcolvec_values)
    (y_length : Z) :
  sl_indices (matmul_spcolvec_by_scolvecascsr X_csr_indptr X_csr_indices X_csr_values
                y_indices_base1 y_values y_length)
  = flat_map (fun _ => nonempty_rows X_csr_indptr) y_indices_base1 /\
  sl_values (matmul_spcolvec_by_scolvecascsr X_csr_indptr X_csr_indices X_csr_values
               y_indices_base1 y_values y_length)
  = flat_map (fun index =>
                map (fun row => spcolvec_value y_values (index - 1)
                                  (getr X_csr_values (geti X_csr_indptr row)))
                    (nonempty_rows X_csr_indptr)) y_indices_base1.
Proof.
  unfold matmul_spcolvec_by_scolvecascsr. cbv zeta. cbn [sl_indices sl_values].
  set (step := fun index st =>
    {| ps_indptr := set (ps_indptr st) (index - 1 + 1)
                      (Z.of_nat (length (nonempty_rows X_csr_indptr)));
       ps_indices := ps_indices st ++ nonempty_rows X_csr_indptr;
       ps_values := ps_values st ++
         map (fun row => spcolvec_value y_values (index - 1)
                           (getr X_csr_values (geti X_csr_indptr row)))
             (nonempty_rows X_csr_indptr) |}).
  rewrite (for_loop_ext 0 _ _ (fun ix st => step (geti y_indices_base1 ix) st))
    by (intros ix st _; apply spcolvec_col_spec).
  rewrite (for_loop_elements step).
  generalize (repeat 0 (Z.to_nat (y_length + 1))). intros p0.
  assert (H : forall l st,
            ps_indices (fold_left (fun s v => step v s) l st)
            = ps_indices st ++ flat_map (fun _ => nonempty_rows X_csr_indptr) l /\
            ps_values (fold_left (fun s v => step v s) l st)
            = ps_values st ++
              flat_map (fun index =>
                map (fun row => spcolvec_value y_values (index - 1)
                                  (getr X_csr_values (geti X_csr_indptr row)))
                    (nonempty_rows X_csr_indptr)) l).
  { induction l as [|v l IH]; intros st; cbn [fold_left flat_map].
    - now rewrite !app_nil_r.
    - destruct (IH (step v st)) as [-> ->]. unfold step. cbn [ps_indices ps_values].
      now rewrite !app_assoc. }
  destruct (H y_indices_base1 {| ps_indptr := p0; ps_indices := []; ps_values := [] |})
    as [-> ->].
  split; reflexivity.
Qed.

(** Storing one count at each of the slots of a list of slots. *)
Lemma fold_set_get (R : Z) (l : list Z) : forall (p : list Z) q,
  Forall (fun v => 0 <= v < Z.of_nat (length p)) l ->
  length (fold_left (fun p v => set p v R) l p) = length p /\
  geti (fold_left (fun p v => set p v R) l p) q
  = if existsb (Z.eqb q) l then R else geti p q.
Proof.
  induction l as [|v l IH]; intros p q Hl; cbn [fold_left existsb]; [auto|].
  inversion Hl as [|? ? Hv Hl']. subst.
  destruct (IH (set p v R) q) as [IHl IHg]; [now rewrite length_set|].
  rewrite IHl, IHg, length_set. split; [reflexivity|].
  destruct (existsb (Z.eqb q) l); [now rewrite Bool.orb_true_r|].
  rewrite Bool.orb_false_r. unfold geti.
  destruct (Z.eqb_spec q v) as [->|Hne].
  - now rewrite get_set_same.
  - now rewrite get_set_other by congruence.
Qed.

Lemma spcolvec_indptr_fold X_csr_indptr X_csr_values y_indices_base1 y_values st :
  ps_indptr (for_loop 0 (Z.of_nat (length y_indices_base1))
               (spcolvec_col X_csr_indptr X_csr_values y_indices_base1 y_values) st)
  = fold_left (fun p v => set p v (Z.of_nat (length (nonempty_rows X_csr_indptr))))
      y_indices_base1 (ps_indptr st).
Proof.
  set (step := fun index st =>
    {| ps_indptr := set (ps_indptr st) (index - 1 + 1)
                      (Z.of_nat (length (nonempty_rows X_csr_indptr)));
       ps_indices := ps_indices st ++ nonempty_rows X_csr_indptr;
       ps_values := ps_values st ++
         map (fun row => spcolvec_value y_values (index - 1)
                           (getr X_csr_values (geti X_csr_indptr row)))
             (nonempty_rows X_csr_indptr) |}).
  rewrite (for_loop_ext 0 _ _ (fun ix st => step (geti y_indices_base1 ix) st))
    by (intros ix st' _; apply spcolvec_col_spec).
  rewrite (for_loop_elements step).
  revert st. induction y_indices_base1 as [|v l IH]; intros st; [reflexivity|].
  cbn [fold_left]. rewrite IH. unfold step. cbn [ps_indptr].
  now replace (v - 1 + 1) with v by lia.
Qed.

(** X14.  The column pointers [matmul_spcolvec_by_scolvecascsr] returns, for a
    sparse vector of length [y_length] whose one-based indices lie in
    [[1, y_length]]: one more than there are columns, starting at zero, and
    growing over column [c] by the number of rows with entries if the
    vector has an entry at [c + 1] and by nothing otherwise. *)
Theorem matmul_spcolvec_by_scolvecascsr_indptr (X_csr_indptr X_csr_indices : list Z)
    (X_csr_values : list real) (y_indices_base1 : list Z) (y_values : spcolvec_values)
    (y_length : Z) :
  0 <= y_length ->
  Forall (fun index => 1 <= index <= y_length) y_indices_base1 ->
  Z.of_nat (length (sl_indptr
     (matmul_spcolvec_by_scolvecascsr X_csr_indptr X_csr_indices X_csr_values
        y_indices_base1 y_values y_length))) = y_length + 1 /\
  geti (sl_indptr
     (matmul_spcolvec_by_scolvecascsr X_csr_indptr X_csr_indices X_csr_values
        y_indices_base1 y_values y_length)) 0 = 0 /\
  forall c, 0 <= c < y_length ->
    geti (sl_indptr
       (matmul_spcolvec_by_scolvecascsr X_csr_indptr X_csr_indices X_csr_values
          y_indices_base1 y_values y_length)) (c + 1)
    = geti (sl_indptr
         (matmul_spcolvec_by_scolvecascsr X_csr_indptr X_csr_indices X_csr_values
            y_indices_base1 y_values y_length)) c
      + (if existsb (Z.eqb (c + 1)) y_indices_base1
         then Z.of_nat (length (nonempty_rows X_csr_indptr)) else 0).
Proof.
  intros Hlen Hy.
  unfold matmul_spcolvec_by_scolvecascsr. cbv zeta. cbn [sl_indptr].
  rewrite spcolvec_indptr_fold. cbn [ps_indptr].
  set (R := Z.of_nat (length (nonempty_rows X_csr_indptr))).
  set (p0 := repeat 0 (Z.to_nat (y_length + 1))).
  assert (Hp0 : Z.of_nat (length p0) = y_length + 1)
    by (subst p0; rewrite repeat_length; lia).
  assert (Hin : Forall (fun v => 0 <= v < Z.of_nat (length p0)) y_indices_base1).
  { rewrite Forall_forall in *. intros v Hv. specialize (Hy v Hv). lia. }
  set (p := fold_left (fun p v => set p v R) y_indices_base1 p0).
  assert (Hp : length p = length p0 /\
               forall q, geti p q = if existsb (Z.eqb q) y_indices_base1
                                    then R else geti p0 q).
  { split; [apply (fold_set_get R y_indices_base1 p0 0 Hin)|].
    intros q. apply (fold_set_get R y_indices_base1 p0 q Hin). }
  destruct Hp as [Hpl Hpg].
  assert (Hnot0 : existsb (Z.eqb 0) y_indices_base1 = false).
  { destruct (existsb (Z.eqb 0) y_indices_base1) eqn:E; [|reflexivity].
    apply existsb_exists in E. destruct E as (v & Hv & E). apply Z.eqb_eq in E. subst v.
    rewrite Forall_forall in Hy. specialize (Hy 0 Hv). lia. }
  destruct (cumulate_spec
              (fun c => if existsb (Z.eqb (c + 1)) y_indices_base1 then R else 0)
              p y_length Hlen) as [Hcl Hcg].
  - lia.
  - rewrite Hpg, Hnot0. subst p0. apply geti_repeat_zero.
  - intros i Hi. cbv beta. rewrite Hpg.
    destruct (existsb (Z.eqb (i + 1)) y_indices_base1); [reflexivity|].
    subst p0. apply geti_repeat_zero.
  - split; [lia|]. split.
    + rewrite (Hcg 0) by lia. now rewrite for_loop_empty by lia.
    + intros c Hc. rewrite (Hcg c), (Hcg (c + 1)) by lia.
      rewrite (for_loop_last 0 (c + 1)) by lia.
      now replace (c + 1 - 1) with c by lia.
Qed.

Lemma matmul_spcolvec_by_scolvecascsr_indptr_witness :
  geti (sl_indptr
     (matmul_spcolvec_by_scolvecascsr [0; 1; 1; 2] [0; 0] [of_int 2; of_int 5]
        [2] (PNumeric [of_int 1; of_int 3; of_int 4]) 3)) 0 = 0.
Proof.
  apply (matmul_spcolvec_by_scolvecascsr_indptr [0; 1; 1; 2] [0; 0] [of_int 2; of_int 5]
           [2] (PNumeric [of_int 1; of_int 3; of_int 4]) 3); [lia|].
  repeat constructor; lia.
Defined.

(** ** The outer product of a dense vector and a sparse column is well formed *)

(** The row that holds a given stored entry. *)
Lemma row_of_entry (indptr : list Z) e (k : nat) :
  geti indptr 0 <= e < geti indptr (Z.of_nat k) ->
  exists i, 0 <= i < Z.of_nat k /\ geti indptr i <= e < geti indptr (i + 1).
Proof.
  induction k as [|k IH]; intros He; [simpl in He; lia|].
  replace (Z.of_nat (S k)) with (Z.of_nat k + 1) in * by lia.
  destruct (Z.lt_ge_cases e (geti indptr (Z.of_nat k))) as [Hlt|Hge].
  - destruct IH as (i & Hi & Hie); [lia|]. exists i. split; [lia|assumption].
  - exists (Z.of_nat k). split; lia.
Qed.

(** With at most one stored entry in every row, the rows with entries
    before row [i] are as many as the stored entries before it. *)
Lemma row_start_single dim dim2 ncols indptr indices values :
  csr_valid dim2 ncols indptr indices values = true ->
  (forall ix, 0 <= ix < dim2 -> geti indptr (ix + 1) <= geti indptr ix + 1) ->
  forall i, 0 <= i <= dim2 -> row_start dim indptr i = dim * geti indptr i.
Proof.
  intros Hvalid Hone i Hi.
  destruct (csr_parts _ _ _ _ _ Hvalid) as (_ & _ & H0 & _).
  replace i with (Z.of_nat (Z.to_nat i)) by lia.
  assert (Hk : Z.of_nat (Z.to_nat i) <= dim2) by lia.
  induction (Z.to_nat i) as [|k IH];
    [cbn [Z.of_nat]; rewrite row_start_first, H0; lia|].
  replace (Z.of_nat (S k)) with (Z.of_nat k + 1) in * by lia.
  rewrite row_start_next by lia. rewrite IH by lia. unfold row_count.
  pose proof (csr_monotone _ _ _ _ _ Hvalid (Z.of_nat k) ltac:(lia)).
  pose proof (Hone (Z.of_nat k) ltac:(lia)).
  destruct (Z.ltb_spec (geti indptr (Z.of_nat k)) (geti indptr (Z.of_nat k + 1))).
  - replace (geti indptr (Z.of_nat k + 1)) with (geti indptr (Z.of_nat k) + 1) by lia.
    lia.
  - replace (geti indptr (Z.of_nat k + 1)) with (geti indptr (Z.of_nat k)) by lia.
    lia.
Qed.

(** X15.  For a sparse column stored as a compressed matrix with at most one
    stored entry in every row, [matmul_colvec_by_scolvecascsr_template]
    returns a valid compressed matrix with as many rows and with as many
    columns as the dense vector has elements: the pointers start at zero,
    do not decrease and end at the number of entries returned, and the
    indices of every row ascend strictly within the columns. *)
Theorem outer_product_is_valid_csr (t : real_t) (colvec : list real)
    (indptr indices : list Z) (values : list real) (dim2 ncols : Z) :
  csr_valid dim2 ncols indptr indices values = true ->
  Forall (fun v => valid t v = true) colvec ->
  (forall ix, 0 <= ix < dim2 -> geti indptr (ix + 1) <= geti indptr ix + 1) ->
  csr_valid dim2 (Z.of_nat (length colvec))
    (sl_indptr (matmul_colvec_by_scolvecascsr_template t colvec indptr indices values))
    (sl_indices (matmul_colvec_by_scolvecascsr_template t colvec indptr indices values))
    (sl_values (matmul_colvec_by_scolvecascsr_template t colvec indptr indices values))
  = true.
Proof.
  intros Hvalid Hcolvec Hone.
  pose proof (csr_nrows_nonneg _ _ _ _ _ Hvalid) as Hrows.
  destruct (csr_parts _ _ _ _ _ Hvalid) as (_ & Hlen & Hi0 & Hilast & _).
  pose proof (colvec_loop_inv t colvec indptr indices values dim2 ncols Hvalid Hcolvec)
    as (Hn & Hlp & Hp0 & Hpdone & _ & Hli & Hlv & Hrowsinv & _).
  pose proof (row_start_single (Z.of_nat (length colvec)) dim2 ncols indptr indices
                values Hvalid Hone) as Hstart.
  unfold matmul_colvec_by_scolvecascsr_template. cbv zeta.
  cbn [sl_indptr sl_indices sl_values].
  rewrite Hlen. replace (dim2 + 1 - 1) with dim2 by lia.
  set (st := for_loop 0 dim2 (colvec_row t colvec indptr values) _) in *.
  destruct (cumulate_spec (row_count (Z.of_nat (length colvec)) indptr)
              (cs_indptr st) dim2 Hrows Hlp Hp0 Hpdone) as [Hcl Hcs0].
  assert (Hcs : forall i, 0 <= i <= dim2 ->
            geti (cumulate (cs_indptr st) dim2) i
            = Z.of_nat (length colvec) * geti indptr i).
  { intros i Hi. rewrite <- Hstart by assumption. now apply Hcs0. }
  clear Hcs0.
  set (dim := Z.of_nat (length colvec)) in *.
  assert (Hdim : 0 <= dim) by (subst dim; lia).
  (* every position of the indices belongs to a row with entries *)
  assert (Hpos : forall p, 0 <= p < Z.of_nat (length (cs_indices st)) ->
            exists i j, 0 <= i < dim2 /\ geti indptr i < geti indptr (i + 1) /\
                        0 <= j < dim /\ p = dim * geti indptr i + j).
  { intros p Hp. rewrite Hli in Hp.
    assert (Hd : 0 < dim) by nia.
    destruct (row_of_entry indptr (p / dim) (Z.to_nat dim2)) as (i & Hi & Hie).
    { rewrite Z2Nat.id by assumption. rewrite Hi0, Hilast. split.
      - apply Z.div_pos; lia.
      - apply Z.div_lt_upper_bound; [assumption|nia]. }
    rewrite Z2Nat.id in Hi by assumption.
    pose proof (Hone i Hi). exists i, (p mod dim).
    split; [assumption|]. split; [lia|]. split; [apply Z.mod_pos_bound; lia|].
    replace (geti indptr i) with (p / dim) by lia. apply Z.div_mod. lia. }
  unfold csr_valid. rewrite !andb_true_iff, !forallb_forall.
  repeat split.
  - now apply Z.leb_le.
  - now apply Z.leb_le.
  - apply Z.eqb_eq. rewrite Hcl. exact Hlp.
  - apply Z.eqb_eq. rewrite (Hcs 0) by lia. lia.
  - apply Z.eqb_eq. rewrite (Hcs dim2) by lia. rewrite Hli, Hilast. lia.
  - apply Z.eqb_eq. rewrite length_map. lia.
  - intros r Hr. apply in_range in Hr. apply Z.leb_le.
    rewrite (Hcs r), (Hcs (r + 1)) by lia.
    pose proof (csr_monotone _ _ _ _ _ Hvalid r Hr). nia.
  - intros p Hp. apply in_range in Hp.
    destruct (Hpos p Hp) as (i & j & Hi & Hrow & Hj & ->).
    destruct (Hrowsinv i j Hi Hrow Hj) as [Hidx _].
    rewrite Hstart in Hidx by lia. fold dim in Hidx. rewrite Hidx.
    apply andb_true_intro. split; [apply Z.leb_le|apply Z.ltb_lt]; lia.
  - intros r Hr. apply in_range in Hr. apply forallb_forall. intros p Hp.
    apply in_range in Hp. rewrite (Hcs r), (Hcs (r + 1)) in Hp by lia.
    pose proof (Hone r Hr) as Hr1. apply Z.ltb_lt.
    assert (Hrow : geti indptr r < geti indptr (r + 1)) by nia.
    destruct (Hrowsinv r (p - dim * geti indptr r) Hr Hrow ltac:(nia)) as [Hidx _].
    destruct (Hrowsinv r (p + 1 - dim * geti indptr r) Hr Hrow ltac:(nia)) as [Hidx' _].
    rewrite Hstart in Hidx, Hidx' by lia. fold dim in Hidx, Hidx'.
    replace (dim * geti indptr r + (p - dim * geti indptr r)) with p in Hidx by lia.
    replace (dim * geti indptr r + (p + 1 - dim * geti indptr r)) with (p + 1)
      in Hidx' by lia.
    rewrite Hidx, Hidx'. lia.
Qed.

Lemma outer_product_is_valid_csr_witness :
  csr_valid 3 (Z.of_nat (length [of_int 1; of_int 2]))
    (sl_indptr (matmul_colvec_by_scolvecascsr_template double [of_int 1; of_int 2]
                  [0; 1; 1; 2] [0; 0] [of_int 3; of_int 4]))
    (sl_indices (matmul_colvec_by_scolvecascsr_template double [of_int 1; of_int 2]
                   [0; 1; 1; 2] [0; 0] [of_int 3; of_int 4]))
    (sl_values (matmul_colvec_by_scolvecascsr_template double [of_int 1; of_int 2]
                  [0; 1; 1; 2] [0; 0] [of_int 3; of_int 4]))
  = true.
Proof.
  apply (outer_product_is_valid_csr double [of_int 1; of_int 2] [0; 1; 1; 2] [0; 0]
           [of_int 3; of_int 4] 3 1).
  - reflexivity.
  - repeat constructor.
  - intros ix Hix.
    assert (E : ix = 0 \/ ix = 1 \/ ix = 2) by lia.
    destruct E as [E | [E | E]]; rewrite E; apply Z.leb_le; reflexivity.
Defined.

(** ** Vectors without values *)



(** The loop of a row reads the values of the sparse vector only at the
    positions of its entries, for the stored values of the matrix. *)
Lemma svec_loop_ext_in X_csr_indices X_csr_values y_indices_base1 y_values y_values'
    end1 end_y (fuel : nat) :
  (forall p pos, 0 <= pos < end_y ->
     svec_term y_values (getr X_csr_values p) pos
     = svec_term y_values' (getr X_csr_values p) pos) ->
  forall ptr1 ptr2 acc, 0 <= ptr2 ->
    svec_loop fuel X_csr_indices X_csr_values y_indices_base1 y_values
      end1 end_y ptr1 ptr2 acc
    = svec_loop fuel X_csr_indices X_csr_values y_indices_base1 y_values'
        end1 end_y ptr1 ptr2 acc.
Proof.
  intros Hterm. induction fuel as [|fuel IH]; intros ptr1 ptr2 acc Hp2; [reflexivity|].
  cbn [svec_loop].
  destruct (Z.geb_spec ptr1 end1) as [Hend1|Hmore1]; [reflexivity|].
  destruct (Z.geb_spec ptr2 end_y) as [Hend2|Hmore2]; [reflexivity|].
  cbn [orb]. rewrite Hterm by lia. rewrite !IH; try lia; [reflexivity|].
  unfold lower_bound.
  pose proof (lower_bound_loop_range y_indices_base1 (geti X_csr_indices ptr1 + 1)
                (Z.to_nat (end_y - ptr2)) ptr2 (end_y - ptr2) ltac:(lia)). lia.
Qed.

(** X16.  The variants for a sparse vector without values return, bit for bit,
    what the numeric variants return for a vector whose values are all
    [1.0], on a matrix of doubles: in [matmul_csr_svec], and in
    [matmul_spcolvec_by_scolvecascsr], which reads the value of the entry
    with one-based index [index] at [y_values[index - 1]]. *)
Theorem binary_variants_as_ones :
  (forall (X_csr_indptr X_csr_indices : list Z) (X_csr_values : list real)
          (y_indices_base1 : list Z) (nthreads : Z),
      Forall (fun v => valid double v = true) X_csr_values ->
      matmul_csr_svec X_csr_indptr X_csr_indices X_csr_values y_indices_base1
        SBinary nthreads
      = matmul_csr_svec X_csr_indptr X_csr_indices X_csr_values y_indices_base1
          (SNumeric (repeat (one double) (length y_indices_base1))) nthreads) /\
  (forall (X_csr_indptr X_csr_indices : list Z) (X_csr_values : list real)
          (y_indices_base1 : list Z) (y_values : list real) (y_length : Z),
      Forall (fun v => valid double v = true) X_csr_values ->
      Forall (fun index => getr y_values (index - 1) = one double) y_indices_base1 ->
      matmul_spcolvec_by_scolvecascsr X_csr_indptr X_csr_indices X_csr_values
        y_indices_base1 PBinary y_length
      = matmul_spcolvec_by_scolvecascsr X_csr_indptr X_csr_indices X_csr_values
          y_indices_base1 (PNumeric y_values) y_length).
Proof.
  split.
  - intros X_csr_indptr X_csr_indices X_csr_values y_indices_base1 nthreads HX.
    unfold matmul_csr_svec. cbv zeta.
    destruct (Z.of_nat (length y_indices_base1) =? 0); [reflexivity|].
    apply for_loop_ext. intros row [out|] _; [|reflexivity]. cbn [option_bind].
    unfold svec_row. cbv zeta.
    rewrite (svec_loop_ext_in _ _ _ SBinary
               (SNumeric (repeat (one double) (length y_indices_base1))));
      [reflexivity| |lia].
    intros p pos Hpos. cbn [svec_term]. unfold getr at 3.
    rewrite get_repeat by lia. symmetry. apply DoubleOne.mul_double_one_r.
    now apply valid_get.
  - intros X_csr_indptr X_csr_indices X_csr_values y_indices_base1 y_values y_length
      HX Hy.
    unfold matmul_spcolvec_by_scolvecascsr. cbv zeta.
    rewrite (for_loop_ext 0 _
               (spcolvec_col X_csr_indptr X_csr_values y_indices_base1 PBinary)
               (spcolvec_col X_csr_indptr X_csr_values y_indices_base1
                  (PNumeric y_values))); [reflexivity|].
    intros ix st Hix. rewrite !spcolvec_col_spec. f_equal. f_equal.
    apply map_ext. intros row. cbn [spcolvec_value].
    assert (Hone : getr y_values (geti y_indices_base1 ix - 1) = one double).
    { rewrite Forall_forall in Hy. apply Hy. apply get_In. lia. }
    rewrite Hone. symmetry. apply DoubleOne.mul_double_one_l. now apply valid_get.
Qed.

Lemma binary_variants_as_ones_witness :
  matmul_csr_svec [0; 3] [1; 3; 5] [of_int 1; of_int 2; of_int 3] [4; 6] SBinary 1
  = matmul_csr_svec [0; 3] [1; 3; 5] [of_int 1; of_int 2; of_int 3] [4; 6]
      (SNumeric (repeat (one double) (length [4; 6]))) 1 /\
  matmul_spcolvec_by_scolvecascsr [0; 1; 1; 2] [0; 0] [of_int 2; of_int 5] [2]
    PBinary 3
  = matmul_spcolvec_by_scolvecascsr [0; 1; 1; 2] [0; 0] [of_int 2; of_int 5] [2]
      (PNumeric [of_int 7; one double; of_int 9]) 3.
Proof.
  split.
  - apply (proj1 binary_variants_as_ones [0; 3] [1; 3; 5]
             [of_int 1; of_int 2; of_int 3] [4; 6] 1).
    repeat constructor.
  - apply (proj2 binary_variants_as_ones [0; 1; 1; 2] [0; 0] [of_int 2; of_int 5] [2]
             [of_int 7; one double; of_int 9] 3); repeat constructor.
Defined.

(** ** A NaN in the dense operand reaches the output *)

(** A loop whose accumulator is made a NaN by one iteration and kept a NaN
    by every iteration ends with a NaN. *)
Lemma loop_nan (g : Z -> real -> real) lo hi p0 acc :
  lo <= p0 < hi ->
  (forall a, g p0 a = S754_nan) -> (forall p, g p S754_nan = S754_nan) ->
  for_loop lo hi g acc = S754_nan.
Proof.
  intros Hp Hhit Hstay.
  rewrite (for_loop_split lo (p0 + 1) hi) by lia.
  rewrite (for_loop_last lo (p0 + 1)) by lia.
  replace (p0 + 1 - 1) with p0 by lia. rewrite Hhit.
  destruct (Z.le_gt_cases hi (p0 + 1)); [now rewrite for_loop_empty|].
  apply (for_loop_ind (fun _ a => a = S754_nan)); [lia|reflexivity|].
  intros p a _ ->. apply Hstay.
Qed.

Lemma is_nan_eq x : is_nan x = true -> x = S754_nan.
Proof. destruct x; try discriminate; reflexivity. Qed.

Lemma mul_nan_r t x : mul t x S754_nan = S754_nan.
Proof. destruct x; reflexivity. Qed.

Lemma add_assign_nan_l T term : add_assign T S754_nan term = S754_nan.
Proof. destruct T; reflexivity. Qed.

Lemma add_assign_nan_r T val : add_assign T val S754_nan = S754_nan.
Proof.
  unfold add_assign. rewrite add_nan_r. now destruct T.
Qed.

Lemma axpy_term_nan t alpha : axpy_term t alpha S754_nan = S754_nan.
Proof.
  unfold axpy_term. destruct t; [apply mul_nan_r|].
  destruct (eqb _ _); [reflexivity|apply mul_nan_r].
Qed.

(** X17.  A NaN ([NA_real_] is one) in the dense operand, at a position that a
    stored entry of a row refers to, makes the result of that row a NaN,
    whatever the other terms are: in the numeric and float32 variants of
    [matmul_csr_dvec], and in every column of [gemm_csr_drm_as_drm] where
    the dense row of a stored entry holds a NaN, the stored value being
    other than zero at [double] (the linked [daxpy] returns at once for a
    factor of zero). *)
Theorem nan_propagates :
  (forall (X_csr_indptr X_csr_indices : list Z) (X_csr_values y : list real)
          (single : bool) (nthreads row ix : Z),
      0 <= row < Z.of_nat (length X_csr_indptr) - 1 ->
      geti X_csr_indptr row <= ix < geti X_csr_indptr (row + 1) ->
      is_nan (getr y (geti X_csr_indices ix)) = true ->
      is_nan (getr (matmul_csr_dvec X_csr_indptr X_csr_indices X_csr_values
                      (if single then FloatVector y else NumericVector y) nthreads)
                   row) = true) /\
  (forall (t : real_t) (m k n : Z) (indptr indices : list Z) (values B : list real)
          (ldb : Z) (C : list real) (ldc nthreads i j p : Z),
      csr_valid m k indptr indices values = true -> n <= ldc ->
      0 <= i < m -> 0 <= j < n -> 0 <= i * ldc + j < Z.of_nat (length C) ->
      geti indptr i <= p < geti indptr (i + 1) ->
      t = float \/ nonzero (getr values p) = true ->
      is_nan (getr B (geti indices p * ldb + j)) = true ->
      is_nan (getr (gemm_csr_drm_as_drm t m n indptr indices values B ldb C ldc
                      nthreads) (i * ldc + j)) = true).
Proof.
  split.
  - intros X_csr_indptr X_csr_indices X_csr_values y single nthreads row ix
      Hrow Hix Hnan.
    rewrite matmul_csr_dvec_row by assumption. apply is_nan_eq in Hnan.
    unfold dvec_row. rewrite (loop_nan _ _ _ ix); [reflexivity|assumption| |].
    + intros a. destruct single; cbn [dvec_term]; rewrite Hnan;
        [change (to_double float S754_nan) with S754_nan|];
        rewrite mul_nan_r; apply add_assign_nan_r.
    + intros p. apply add_assign_nan_l.
  - intros t m k n indptr indices values B ldb C ldc nthreads i j p
      Hvalid Hn Hi Hj Hb Hp _ Hnan.
    rewrite (gemm_csr_drm_as_drm_loop t m k) by assumption.
    rewrite drm_rows_element by assumption. apply is_nan_eq in Hnan.
    unfold sparse_sum. rewrite (loop_nan _ _ _ p); [reflexivity|assumption| |].
    + intros a. rewrite Hnan, axpy_term_nan. apply add_nan_r.
    + intros q. apply add_nan_l.
Qed.

Lemma nan_propagates_witness :
  is_nan (getr (matmul_csr_dvec [0; 2; 3] [0; 1; 0] [of_int 1; of_int 2; of_int 3]
                  (if false then FloatVector [of_int 5; S754_nan]
                   else NumericVector [of_int 5; S754_nan]) 1) 0) = true /\
  is_nan (getr (gemm_csr_drm_as_drm double 3 3 [0; 2; 2; 3] [0; 1; 2]
                  [of_int 1; of_int 2; of_int 3]
                  [S754_nan; zero; zero; zero; of_int 1; zero; zero; zero; of_int 1] 3
                  (repeat zero 9) 3 1) (0 * 3 + 0)) = true.
Proof.
  split.
  - apply (proj1 nan_propagates [0; 2; 3] [0; 1; 0] [of_int 1; of_int 2; of_int 3]
             [of_int 5; S754_nan] false 1 0 1).
    + simpl. lia.
    + split; [apply Z.leb_le|apply Z.ltb_lt]; reflexivity.
    + reflexivity.
  - apply (proj2 nan_propagates double 3 3 3 [0; 2; 2; 3] [0; 1; 2]
             [of_int 1; of_int 2; of_int 3]
             [S754_nan; zero; zero; zero; of_int 1; zero; zero; zero; of_int 1] 3
             (repeat zero 9) 3 1 0 0 0).
    + reflexivity.
    + lia.
    + lia.
    + lia.
    + simpl. lia.
    + split; [apply Z.leb_le|apply Z.ltb_lt]; reflexivity.
    + right. reflexivity.
    + reflexivity.
Defined.
